(** * gemini-transcribe: chunked transcription pipeline

    A shallow embedding of [src/lib/utils/audio.ts] (time utilities and
    [mergeTranscripts]), of the upload endpoint ([processChunk] and the
    window loop of [POST]) and of the client's stream consumer, together
    with the properties the specification states about them.

    JavaScript numbers are idealised as exact rationals extended with
    [NaN]: rounding of IEEE doubles and the infinities are not modelled. *)

From Stdlib Require Import ZArith QArith Qround Qminmax Qabs Lia Lqa.
From Stdlib Require Import Ascii String DecimalString DecimalPos.
From Stdlib Require Import Sorted Permutation.
From stdpp Require Import list strings gmap.

Local Open Scope string_scope.
Local Open Scope list_scope.

(** ** JavaScript numbers *)

Module JS.

Inductive number : Type :=
  | NaN
  | Num (q : Q).

Definition lift2 (f : Q -> Q -> Q) (a b : number) : number :=
  match a, b with
  | Num x, Num y => Num (f x y)
  | _, _ => NaN
  end.

Definition add : number -> number -> number := lift2 Qplus.
Definition sub : number -> number -> number := lift2 Qminus.
Definition mul : number -> number -> number := lift2 Qmult.

(** [Math.min] and [Math.abs]: both propagate [NaN]. *)
Definition min : number -> number -> number := lift2 Qmin.

Definition abs (a : number) : number :=
  match a with
  | Num x => Num (Qabs x)
  | NaN => NaN
  end.

Definition Qltb (x y : Q) : bool := negb (Qle_bool y x).

(** [a < b] and [a > b]: every comparison with [NaN] is false. *)
Definition lt (a b : number) : bool :=
  match a, b with
  | Num x, Num y => Qltb x y
  | _, _ => false
  end.

Definition gt (a b : number) : bool := lt b a.

(** [Math.trunc] on a finite number, and the remainder operator [%],
    whose result takes the sign of the dividend. *)
Definition Qtrunc (x : Q) : Z :=
  if Qle_bool 0 x then Qfloor x else Qceiling x.

Definition Qrem (x y : Q) : Q := x - y * inject_Z (Qtrunc (x / y)).

(** The operators [/] and [%]; the program only ever divides by the
    constant 60, so a zero divisor is not modelled. *)
Definition div : number -> number -> number := lift2 Qdiv.
Definition rem : number -> number -> number := lift2 Qrem.

(** [Math.floor]. *)
Definition floor (a : number) : number :=
  match a with
  | Num x => Num (inject_Z (Qfloor x))
  | NaN => NaN
  end.

Definition Z_toString (z : Z) : string :=
  NilZero.string_of_int (Z.to_int z).

(** The decimal digits of [r / d] after the point, for [0 <= r < d]:
    as many as there are, [n] at most. *)
Fixpoint fraction_digits (n : nat) (r d : Z) : string :=
  match n with
  | O => EmptyString
  | S n' =>
      if (r =? 0)%Z then EmptyString
      else Z_toString (10 * r / d) ++ fraction_digits n' (10 * r mod d) d
  end.

(** [Number.prototype.toString].  A whole number prints its decimal
    digits; any other number prints its sign, its whole part, a point
    and the digits of its fraction, cut after 16 places where they do
    not end.  JavaScript prints the shortest digits that read back as
    the same double, and an exponent below 1e-6 and from 1e21 on;
    neither is modelled. *)
Definition toString (a : number) : string :=
  match a with
  | Num x =>
      if Qeq_bool (inject_Z (Qfloor x)) x then Z_toString (Qfloor x)
      else
        let whole := Qfloor (Qabs x) in
        let part := (Qabs x - inject_Z whole)%Q in
        (if Qltb x 0 then "-" else "") ++ Z_toString whole ++ "." ++
        fraction_digits 16 (Qnum part) (Z.pos (Qden part))
  | NaN => "NaN"
  end.

Fixpoint repeat_char (n : nat) (c : ascii) : string :=
  match n with
  | O => EmptyString
  | S n' => String c (repeat_char n' c)
  end.

(** [String.prototype.padStart] with a one-character filler. *)
Definition padStart (n : nat) (c : ascii) (s : string) : string :=
  repeat_char (n - String.length s) c ++ s.

(** [String.prototype.split] with a one-character separator: the result
    always has at least one element. *)
Fixpoint split (sep : ascii) (s : string) : list string :=
  match s with
  | EmptyString => [EmptyString]
  | String c s' =>
      if Ascii.eqb c sep then EmptyString :: split sep s'
      else match split sep s' with
           | [] => [String c EmptyString]
           | w :: ws => String c w :: ws
           end
  end.

(** [Array.prototype.sort] with a comparator.  ECMAScript requires the
    sort to be stable, which fixes the result whenever the comparator is
    consistent; it is computed here by insertion.  A comparator value
    that is [NaN] counts as [+0] (the elements are left in order). *)
Fixpoint sort_insert {A : Type} (cmp : A -> A -> number) (x : A)
    (l : list A) : list A :=
  match l with
  | [] => [x]
  | y :: l' =>
      if gt (cmp x y) (Num 0) then y :: sort_insert cmp x l'
      else x :: y :: l'
  end.

Definition sort {A : Type} (cmp : A -> A -> number) (l : list A) : list A :=
  fold_right (sort_insert cmp) [] l.

(** [String.prototype.trim], on the white space of ASCII: tab, line
    feed, vertical tab, form feed, carriage return and space. *)
Fixpoint trimStart (s : string) : string :=
  match s with
  | EmptyString => EmptyString
  | String c s' => if Ascii.is_space c then trimStart s' else s
  end.

Definition trim (s : string) : string :=
  String.rev (trimStart (String.rev (trimStart s))).

(** [String.prototype.includes]. *)
Fixpoint includes (needle s : string) : bool :=
  String.prefix needle s ||
  match s with
  | EmptyString => false
  | String _ s' => includes needle s'
  end.

Definition digits_toNumber (s : string) : number :=
  match NilZero.uint_of_string s with
  | Some d => Num (inject_Z (Z.of_uint d))
  | None => NaN
  end.

(** [Number(s)] for a string [s].  Modelled on the fragment the program
    itself writes and reads back: the empty string (zero) and decimal
    digits with an optional sign.  Anything else is [NaN] here; in
    JavaScript that also holds except for strings with surrounding white
    space, a fraction, an exponent, a radix prefix or [Infinity]. *)
Definition toNumber (s : string) : number :=
  match s with
  | EmptyString => Num 0
  | String "+" s' => digits_toNumber s'
  | String "-" s' =>
      match digits_toNumber s' with
      | Num x => Num (- x)
      | NaN => NaN
      end
  | _ => digits_toNumber s
  end.

End JS.

Import JS.

(** ** Data model ([src/lib/types.ts]) *)

Record TranscriptEntry : Type := mkEntry {
  timestamp : string;
  speaker : string;
  text : string
}.

Inductive Status : Type := success | error.

(** [{...entry, timestamp: t}] and [{...entry, timestamp: t, speaker: s}]. *)
Definition with_timestamp (entry : TranscriptEntry) (t : string) :=
  mkEntry t (speaker entry) (text entry).

Definition with_timestamp_speaker (entry : TranscriptEntry) (t s : string) :=
  mkEntry t s (text entry).

(** ** Time utilities ([src/lib/utils/audio.ts]) *)

Definition CHUNK_DURATION : Z := 120.
Definition CHUNK_OVERLAP : Z := 60.

Definition formatTime (seconds : number) : string :=
  let minutes := floor (div seconds (Num 60)) in
  let remainingSeconds := floor (rem seconds (Num 60)) in
  padStart 2 "0" (toString minutes) ++ ":" ++
  padStart 2 "0" (toString remainingSeconds).

(** [const [minutes, seconds] = timestamp.split(':').map(Number)]: a
    missing second component is [undefined], and the sum is [NaN]. *)
Definition parseTimeToSeconds (timestamp : string) : number :=
  match List.map toNumber (split ":" timestamp) with
  | minutes :: seconds :: _ => add (mul minutes (Num 60)) seconds
  | _ => NaN
  end.

(** ** Transcript merger ([mergeTranscripts]) *)

Definition speaker_label (currentSpeakerIndex : Z) : string :=
  "Speaker " ++ Z_toString currentSpeakerIndex.

(** The state of the first pass: [speakerMap] and [currentSpeakerIndex]. *)
Definition note_speaker (st : gmap string string * Z)
    (entry : TranscriptEntry) : gmap string string * Z :=
  let '(speakerMap, currentSpeakerIndex) := st in
  match speakerMap !! speaker entry with
  | Some _ => st
  | None =>
      (<[speaker entry := speaker_label currentSpeakerIndex]> speakerMap,
       (currentSpeakerIndex + 1)%Z)
  end.

Definition normalizeSpeakers (chunks : list (list TranscriptEntry))
    : gmap string string * Z :=
  fold_left (fun st chunk => fold_left note_speaker chunk st) chunks
    (∅, 1%Z).

Definition speakerMap_of (chunks : list (list TranscriptEntry))
    : gmap string string :=
  fst (normalizeSpeakers chunks).

(** [existing.speaker === speakerMap.get(entry.speaker)]. *)
Definition speaker_matches (speakerMap : gmap string string)
    (existing entry : TranscriptEntry) : bool :=
  match speakerMap !! speaker entry with
  | Some canonical => String.eqb (speaker existing) canonical
  | None => false
  end.

(** [speakerMap.get(entry.speaker) || entry.speaker]. *)
Definition canonical_speaker (speakerMap : gmap string string)
    (entry : TranscriptEntry) : string :=
  match speakerMap !! speaker entry with
  | Some canonical =>
      if String.eqb canonical "" then speaker entry else canonical
  | None => speaker entry
  end.

Definition isDuplicate (speakerMap : gmap string string)
    (merged : list TranscriptEntry) (entry : TranscriptEntry)
    (adjustedTime : number) : bool :=
  existsb (fun existing =>
    lt (abs (sub (parseTimeToSeconds (timestamp existing)) adjustedTime))
       (Num 5)
    && speaker_matches speakerMap existing entry
    && String.eqb (text existing) (text entry)) merged.

(** One turn of the inner loop; [merged.push] appends at the end. *)
Definition merge_entry (speakerMap : gmap string string)
    (currentChunkStartTime : number) (merged : list TranscriptEntry)
    (entry : TranscriptEntry) : list TranscriptEntry :=
  let entryTime := parseTimeToSeconds (timestamp entry) in
  let adjustedTime := add entryTime currentChunkStartTime in
  if isDuplicate speakerMap merged entry adjustedTime then merged
  else merged ++ [with_timestamp_speaker entry (formatTime adjustedTime)
                    (canonical_speaker speakerMap entry)].

(** The outer loop from index [i]; [chunkStartTimes[i]] past the end of
    the array is [undefined], and adding it gives [NaN]. *)
Fixpoint merge_chunks (speakerMap : gmap string string)
    (chunkStartTimes : list Q) (i : nat)
    (chunks : list (list TranscriptEntry))
    (merged : list TranscriptEntry) : list TranscriptEntry :=
  match chunks with
  | [] => merged
  | chunk :: rest =>
      let currentChunkStartTime :=
        match chunkStartTimes !! i with
        | Some s => Num s
        | None => NaN
        end in
      merge_chunks speakerMap chunkStartTimes (S i) rest
        (fold_left (merge_entry speakerMap currentChunkStartTime)
           chunk merged)
  end.

Definition merged_entries (chunks : list (list TranscriptEntry))
    (chunkStartTimes : list Q) : list TranscriptEntry :=
  merge_chunks (speakerMap_of chunks) chunkStartTimes 0 chunks [].

Definition by_timestamp (a b : TranscriptEntry) : number :=
  sub (parseTimeToSeconds (timestamp a)) (parseTimeToSeconds (timestamp b)).

Definition mergeTranscripts (chunks : list (list TranscriptEntry))
    (chunkStartTimes : list Q) : list TranscriptEntry :=
  sort by_timestamp (merged_entries chunks chunkStartTimes).

(** ** Segment processor ([processChunk]) *)

(** What the body of the [try] block comes to: the backend's answer
    parsed into entries, or an exception carrying [error.message]
    (absent when the thrown value has none). *)
Inductive attempt : Type :=
  | Transcribed (parsedTranscript : list TranscriptEntry)
  | Failed (message : option string).

Inductive completion : Type :=
  | Return (entries : list TranscriptEntry)
  | Throw (message : option string).

Definition safety_text : string :=
  "This segment was skipped due to content safety filters. The transcription will continue with the next segment.".

Definition rate_limit_text : string :=
  "Rate limit reached. Waiting before retrying.".

(** [error.message?.includes(needle)], read as a condition. *)
Definition message_includes (needle : string) (message : option string)
    : bool :=
  match message with
  | Some m => includes needle m
  | None => false
  end.

Definition adjust_entry (startTime chunkDuration : Q)
    (entry : TranscriptEntry) : TranscriptEntry :=
  let entryTime := parseTimeToSeconds (timestamp entry) in
  let adjustedTime :=
    JS.min (add entryTime (Num startTime))
           (Num (startTime + chunkDuration)) in
  with_timestamp entry (formatTime adjustedTime).

(** The [finally] block releases the temporary file and writes a log
    line; it leaves the completion of the function as it is. *)
Definition processChunk (body : attempt) (startTime chunkDuration : Q)
    : completion :=
  match body with
  | Transcribed parsedTranscript =>
      Return (List.map (adjust_entry startTime chunkDuration)
                parsedTranscript)
  | Failed message =>
      if message_includes "SAFETY" message
         || message_includes "429" message
      then
        let message' :=
          if message_includes "SAFETY" message then safety_text
          else rate_limit_text in
        Return [mkEntry (formatTime (Num startTime)) "System" message']
      else Throw message
  end.

(** ** Pipeline orchestrator (the window loop of [POST]) *)

Record Window : Type := mkWindow {
  chunkStartTime : Q;
  chunkDuration : Q
}.

Record ProgressRecord : Type := mkRecord {
  startTime : Q;
  endTime : Q;
  totalDuration : Q;
  processedTimestamp : string;
  status : Status;
  retryCount : Z;
  retryAfter : option Z;
  entries : list TranscriptEntry
}.

(** What the stream controller and the timer see, in order. *)
Inductive event : Type :=
  | Enqueue (record : ProgressRecord)
  | Wait (milliseconds : Z)
  | Close.

Record run_state : Type := mkRun {
  chunks : list (list TranscriptEntry);
  chunkStartTimes : list Q;
  events : list event
}.

(** The surroundings of one turn of the loop: how the backend answers
    for that window and what [Date.now() / 1000] reads. *)
Record turn : Type := mkTurn {
  backend : attempt;
  now : Q
}.

Definition chunkStartTime_at (time : Z) : Z :=
  Z.max 0 (time - CHUNK_OVERLAP).

Definition chunkDuration_at (duration : Q) (time : Z) : Q :=
  Qmin (inject_Z (CHUNK_DURATION + CHUNK_OVERLAP))
       (duration - inject_Z (chunkStartTime_at time)).

Definition window_at (duration : Q) (time : Z) : Window :=
  mkWindow (inject_Z (chunkStartTime_at time))
           (chunkDuration_at duration time).

(** [chunkTranscript[0]?.speaker === 'System']. *)
Definition first_is_System (chunkTranscript : list TranscriptEntry) : bool :=
  match chunkTranscript with
  | entry :: _ => String.eqb (speaker entry) "System"
  | [] => false
  end.

Definition status_of (chunkTranscript : list TranscriptEntry) : Status :=
  if first_is_System chunkTranscript then error else success.

Definition chunkData (w : Window) (duration : Q) (t : turn)
    (chunkTranscript : list TranscriptEntry) : ProgressRecord :=
  mkRecord (chunkStartTime w) (chunkStartTime w + chunkDuration w) duration
    (formatTime (Num (now t))) (status_of chunkTranscript) 0 None
    chunkTranscript.

Definition isRateLimit (message : option string) : bool :=
  message_includes "429" message
  || message_includes "Too Many Requests" message.

Definition errorDelay (message : option string) : Z :=
  if isRateLimit message then 15000%Z else 5000%Z.

Definition errorData (w : Window) (duration : Q) (t : turn)
    (message : option string) : ProgressRecord :=
  mkRecord (chunkStartTime w) (chunkStartTime w + chunkDuration w) duration
    (formatTime (Num (now t))) error 0 (Some (errorDelay message))
    [mkEntry (formatTime (Num (chunkStartTime w))) "System"
       (if isRateLimit message
        then "Rate limit reached. Waiting before continuing."
        else "Error processing segment. Will retry shortly.")].

(** The body of the [for] loop.  The controller is taken to accept every
    record, that is, the consumer does not cancel the stream. *)
Definition POST_turn (env : Z -> turn) (duration : Q) (time : Z)
    (st : run_state) : run_state :=
  let w := window_at duration time in
  match processChunk (backend (env time)) (chunkStartTime w)
          (chunkDuration w) with
  | Return chunkTranscript =>
      let delayTime :=
        if first_is_System chunkTranscript then 10000%Z else 3000%Z in
      mkRun (chunks st ++ [chunkTranscript])
            (chunkStartTimes st ++ [chunkStartTime w])
            (events st ++
               [Enqueue (chunkData w duration (env time) chunkTranscript);
                Wait delayTime])
  | Throw message =>
      mkRun (chunks st) (chunkStartTimes st)
            (events st ++
               [Enqueue (errorData w duration (env time) message);
                Wait (errorDelay message)])
  end.

(** [for (let time = ...; time < duration; time += CHUNK_DURATION)]. *)
Fixpoint for_time {S : Type} (fuel : nat) (duration : Q)
    (body : Z -> S -> S) (time : Z) (st : S) : S :=
  match fuel with
  | O => st
  | Datatypes.S fuel' =>
      if Qltb (inject_Z time) duration
      then for_time fuel' duration body (time + CHUNK_DURATION)%Z
             (body time st)
      else st
  end.

(** More turns than the loop can take from [time]. *)
Definition turns_bound (duration : Q) (time : Z) : nat :=
  Datatypes.S (Z.to_nat (Qceiling duration - time)).

(** [initialStartTime] is the value of [parseInt]: an integer, or [NaN]
    ([None]), for which the loop condition fails at once. *)
Definition for_each_window {S : Type} (duration : Q)
    (initialStartTime : option Z) (body : Z -> S -> S) (st : S) : S :=
  match initialStartTime with
  | Some time => for_time (turns_bound duration time) duration body time st
  | None => st
  end.

(** The values the loop variable [time] takes, in order. *)
Definition loop_times (duration : Q) (initialStartTime : option Z)
    : list Z :=
  for_each_window duration initialStartTime
    (fun time ts => ts ++ [time]) [].

(** The windows the loop goes through (the planner of the design). *)
Definition planned_windows (duration : Q) (initialStartTime : option Z)
    : list Window :=
  for_each_window duration initialStartTime
    (fun time ws => ws ++ [window_at duration time]) [].

(** [start(controller)]: the loop, then [controller.close()]. *)
Definition POST_stream (env : Z -> turn) (duration : Q)
    (initialStartTime : option Z) : run_state :=
  let st :=
    for_each_window duration initialStartTime (POST_turn env duration)
      (mkRun [] [] []) in
  mkRun (chunks st) (chunkStartTimes st) (events st ++ [Close]).

(** The record and the pause of the turn at [time]. *)
Definition record_of (env : Z -> turn) (duration : Q) (time : Z)
    : ProgressRecord :=
  let w := window_at duration time in
  match processChunk (backend (env time)) (chunkStartTime w)
          (chunkDuration w) with
  | Return chunkTranscript =>
      chunkData w duration (env time) chunkTranscript
  | Throw message => errorData w duration (env time) message
  end.

Definition pause_of (env : Z -> turn) (duration : Q) (time : Z) : Z :=
  let w := window_at duration time in
  match processChunk (backend (env time)) (chunkStartTime w)
          (chunkDuration w) with
  | Return chunkTranscript =>
      if first_is_System chunkTranscript then 10000%Z else 3000%Z
  | Throw message => errorDelay message
  end.

Definition enqueued (evs : list event) : list ProgressRecord :=
  omap (fun e => match e with Enqueue r => Some r | _ => None end) evs.

(** ** Client reassembly (the stream consumer of the page) *)

Module Client.

Record state : Type := mkState {
  transcriptArray : list TranscriptEntry;
  processedDuration : number;
  lastProcessedTimestamp : string;
  duration : number
}.

Definition getSecondsFromTimestamp (timestamp : string) : number :=
  match List.map toNumber (split ":" timestamp) with
  | minutes :: seconds :: _ => add (mul minutes (Num 60)) seconds
  | _ => NaN
  end.

Definition updateProcessedDuration (timestamp : string) (st : state)
    : state :=
  let seconds := getSecondsFromTimestamp timestamp in
  if gt seconds (processedDuration st)
  then mkState (transcriptArray st) seconds timestamp (duration st)
  else st.

(** The callback of [chunkTranscript.entries.filter]. *)
Definition is_new (st : state) (entry : TranscriptEntry) : bool :=
  let entryTime := getSecondsFromTimestamp (timestamp entry) in
  if gt entryTime (duration st) then false
  else
    negb (existsb (fun existing =>
      lt (abs (sub (getSecondsFromTimestamp (timestamp existing)) entryTime))
         (Num 2)
      && String.eqb (speaker existing) (speaker entry)
      && String.eqb (text existing) (text entry)) (transcriptArray st)).

Definition newEntries (st : state) (entries : list TranscriptEntry)
    : list TranscriptEntry :=
  List.filter (is_new st) entries.

Definition by_timestamp (a b : TranscriptEntry) : number :=
  sub (getSecondsFromTimestamp (timestamp a))
      (getSecondsFromTimestamp (timestamp b)).

(** The update of the display on a record that is not an error, from
    [if (chunkTranscript.entries.length > 0)] on. *)
Definition append_entries (entries : list TranscriptEntry) (st : state)
    : state :=
  match entries with
  | [] => st
  | _ :: _ =>
      match last (newEntries st entries) with
      | None => st
      | Some lastEntry =>
          updateProcessedDuration (timestamp lastEntry)
            (mkState
               (sort by_timestamp (transcriptArray st ++ newEntries st entries))
               (processedDuration st) (lastProcessedTimestamp st)
               (duration st))
      end
  end.

End Client.

(** ** The page: stream reading, gap detection and retries *)

Module Page.

Definition newline : ascii := "010"%char.

(** One turn of the reading loop of [handleSubmit]: the decoded text is
    added to the buffer, the buffer is split at the line feeds, and the
    last piece ([chunks.pop() || '']) stays in the buffer. *)
Definition read_chunk (streamBuffer textChunk : string)
    : list string * string :=
  let chunks := split newline (streamBuffer ++ textChunk) in
  (removelast chunks, List.last chunks EmptyString).

(** [chunkTranscript.entries[0]?.text.includes('Rate limit')] and the
    delay before the retry. *)
Definition isRateLimit (entries : list TranscriptEntry) : bool :=
  match entries with
  | entry :: _ => includes "Rate limit" (text entry)
  | [] => false
  end.

Definition retryDelay (entries : list TranscriptEntry) : Z :=
  if isRateLimit entries then 15000%Z else 5000%Z.

Record span : Type := mkSpan {
  start : Q;
  end_ : Q
}.

Record gap_state : Type := mkGaps {
  processedChunks : list span;
  transcriptionInterrupted : bool;
  lastProcessedTimestamp : string;
  processedDuration : number
}.

Definition by_start (a b : span) : number :=
  sub (Num (start a)) (Num (start b)).

(** The body of the [if (gap > 5)] of [checkForGaps]. *)
Definition flag_gap (prev : span) (st : gap_state) : gap_state :=
  mkGaps (processedChunks st) true (formatTime (Num (end_ prev)))
    (Num (end_ prev)).

(** The loop of [checkForGaps] from index [i], with [prev] the span at
    [i - 1] and [rest] the spans from [i] on. *)
Fixpoint scan_gaps (prev : span) (rest : list span) (st : gap_state)
    : gap_state :=
  match rest with
  | [] => st
  | cur :: rest' =>
      let gap := sub (Num (start cur)) (Num (end_ prev)) in
      scan_gaps cur rest'
        (if gt gap (Num 5) then flag_gap prev st else st)
  end.

(** [processedChunks.sort] sorts the array in place. *)
Definition checkForGaps (st : gap_state) : gap_state :=
  if (List.length (processedChunks st) <? 2)%nat then st
  else
    let sorted := sort by_start (processedChunks st) in
    let st' := mkGaps sorted (transcriptionInterrupted st)
                 (lastProcessedTimestamp st) (processedDuration st) in
    match sorted with
    | [] => st'
    | first :: rest => scan_gaps first rest st'
    end.

(** [processedChunks.push({start, end}); checkForGaps()] on a record
    that is not an error. *)
Definition track_chunk (startTime endTime : Q) (st : gap_state)
    : gap_state :=
  checkForGaps
    (mkGaps (processedChunks st ++ [mkSpan startTime endTime])
       (transcriptionInterrupted st) (lastProcessedTimestamp st)
       (processedDuration st)).

(** The variables of the page that the handling of a response reads
    and writes: those of [gap_state], the display and the total
    duration. *)
Record page : Type := mkPage {
  gaps : gap_state;
  transcriptArray : list TranscriptEntry;
  duration : number
}.

(** The variables [Client.append_entries] works on, and their values
    written back. *)
Definition display (p : page) : Client.state :=
  Client.mkState (transcriptArray p) (processedDuration (gaps p))
    (lastProcessedTimestamp (gaps p)) (duration p).

Definition set_display (c : Client.state) (p : page) : page :=
  mkPage
    (mkGaps (processedChunks (gaps p)) (transcriptionInterrupted (gaps p))
       (Client.lastProcessedTimestamp c) (Client.processedDuration c))
    (Client.transcriptArray c) (Client.duration c).

(** [await new Promise(r => setTimeout(r, retryDelay));
    handleSubmit(true, startFrom); return]. *)
Record retry : Type := mkRetry {
  delay : Z;
  startFrom : Q
}.

(** The body of the [try] for a parsed record.  An error record sets
    the flag and the resume text and ends the handling of the response
    with a retry; its entries are not looked at any further.  Any other
    record has its span tracked and its entries appended. *)
Definition handle_record (chunkTranscript : ProgressRecord) (p : page)
    : page * option retry :=
  match status chunkTranscript with
  | error =>
      (mkPage
         (mkGaps (processedChunks (gaps p)) true
            (formatTime (Num (startTime chunkTranscript)))
            (processedDuration (gaps p)))
         (transcriptArray p) (duration p),
       Some (mkRetry (retryDelay (entries chunkTranscript))
               (startTime chunkTranscript)))
  | success =>
      let p' :=
        mkPage
          (track_chunk (startTime chunkTranscript) (endTime chunkTranscript)
             (gaps p))
          (transcriptArray p) (duration p) in
      (set_display
         (Client.append_entries (entries chunkTranscript) (display p')) p',
       None)
  end.

(** [for (const x of l) { ... }] with a body that may [return]. *)
Fixpoint for_of {A : Type} (body : A -> page -> page * option retry)
    (l : list A) (p : page) : page * option retry :=
  match l with
  | [] => (p, None)
  | x :: l' =>
      match body x p with
      | (p', None) => for_of body l' p'
      | (p', Some r) => (p', Some r)
      end
  end.

(** [!duration] and [!firstChunk.totalDuration]: zero and [NaN] count
    as no duration. *)
Definition falsy (a : number) : bool :=
  match a with
  | Num x => Qeq_bool x 0
  | NaN => true
  end.

Section Reading.

(** [JSON.parse] on a line of the response: the progress record the
    line holds, where it holds one.  The response is taken to consist
    of progress records as the server writes them and of lines that do
    not parse, which change nothing (the [catch] logs them); a line
    that parses to a value of another shape is not modelled. *)
Variable JSON_parse : string -> option ProgressRecord.

(** [if (!duration && chunks.length > 0)]: while the page knows no
    total duration it takes the one of the first line of a read. *)
Definition adopt_duration (chunks : list string) (p : page) : page :=
  if falsy (duration p) then
    match chunks with
    | [] => p
    | firstLine :: _ =>
        match JSON_parse firstLine with
        | Some firstChunk =>
            if falsy (Num (totalDuration firstChunk)) then p
            else mkPage (gaps p) (transcriptArray p)
                   (Num (totalDuration firstChunk))
        | None => p
        end
    end
  else p.

(** The body of [for (const chunk of chunks)]. *)
Definition handle_chunk (chunk : string) (p : page) : page * option retry :=
  let trimmedChunk := trim chunk in
  if String.eqb trimmedChunk EmptyString then (p, None)
  else
    match JSON_parse trimmedChunk with
    | Some chunkTranscript => handle_record chunkTranscript p
    | None => (p, None)
    end.

(** The reading loop of [handleSubmit] over the pieces of text that
    [reader.read()] and the decoder deliver, from the buffer and the
    page as they are; the response is taken to arrive whole, a failing
    [reader.read()] is not modelled.  The loop ends when the response
    does ([done], where [uploadComplete] is set), or at the first error
    record.  In the latter case the call of [handleSubmit(true, ...)]
    empties the buffer before the handler returns; what the retry goes
    on to do with its own response is not part of this call. *)
Fixpoint read_loop (pieces : list string) (streamBuffer : string) (p : page)
    : page * string * option retry :=
  match pieces with
  | [] => (p, streamBuffer, None)
  | textChunk :: pieces' =>
      let '(chunks, streamBuffer') := read_chunk streamBuffer textChunk in
      match for_of handle_chunk chunks (adopt_duration chunks p) with
      | (p', None) => read_loop pieces' streamBuffer' p'
      | (p', Some r) => (p', EmptyString, Some r)
      end
  end.

End Reading.

End Page.

(** ** Notions of the specification *)

(** Numbers compared as JavaScript compares them: [NaN] is below
    nothing and above nothing. *)
Definition num_le (a b : number) : Prop :=
  match a, b with
  | Num x, Num y => (x <= y)%Q
  | _, _ => False
  end.

Definition num_eq (a b : number) : Prop :=
  match a, b with
  | Num x, Num y => (x == y)%Q
  | NaN, NaN => True
  | _, _ => False
  end.

Definition time_of (entry : TranscriptEntry) : number :=
  parseTimeToSeconds (timestamp entry).

(** Sorted by timestamp, ascending. *)
Definition ascending (l : list TranscriptEntry) : Prop :=
  Sorted (fun a b => num_le (time_of a) (time_of b)) l.

(** The entries of [l] whose timestamp is [t] seconds, in their order. *)
Definition at_time (t : Q) (l : list TranscriptEntry)
    : list TranscriptEntry :=
  List.filter (fun e =>
    match time_of e with
    | Num x => Qeq_bool x t
    | NaN => false
    end) l.

(** A point in time lies in the window [[start, start + duration)]. *)
Definition covers (w : Window) (x : Q) : Prop :=
  (chunkStartTime w <= x /\ x < chunkStartTime w + chunkDuration w)%Q.

(** The raw speaker labels in the order the windows present them, and
    the distinct ones among them in the order of their first occurrence. *)
Definition raw_labels (chunks : list (list TranscriptEntry)) : list string :=
  List.map speaker (List.concat chunks).

Fixpoint first_seen_order (labels : list string) : list string :=
  match labels with
  | [] => []
  | l :: rest =>
      l :: List.filter (fun l' => negb (String.eqb l' l))
             (first_seen_order rest)
  end.

(** The merged entry [out] stems from an entry of window [i]: it has
    that entry's text, the canonical label of its speaker, and the
    timestamp written for its time shifted by the start of the window. *)
Definition merged_from (speakerMap : gmap string string)
    (chunks : list (list TranscriptEntry)) (chunkStartTimes : list Q)
    (out : TranscriptEntry) : Prop :=
  exists (i : nat) chunk entry,
    chunks !! i = Some chunk /\ In entry chunk /\
    text out = text entry /\
    speakerMap !! speaker entry = Some (speaker out) /\
    timestamp out
    = formatTime (add (parseTimeToSeconds (timestamp entry))
                      (match chunkStartTimes !! i with
                       | Some s => Num s
                       | None => NaN
                       end)).

(** A number of whole seconds. *)
Definition whole (q : Q) : Prop := (q == inject_Z (Qfloor q))%Q.

(** Two merged entries that the dedup rule would not take for one
    another: if speaker and text agree, the timestamps read as numbers
    at least five seconds apart. *)
Definition far_apart (a b : TranscriptEntry) : Prop :=
  speaker a = speaker b -> text a = text b ->
  exists ta tb,
    time_of a = Num ta /\ time_of b = Num tb /\ (5 <= Qabs (ta - tb))%Q.

(** A gap of more than five seconds between two spans next to one
    another. *)
Definition gap_between (prev cur : Page.span) : Prop :=
  (5 < Page.start cur - Page.end_ prev)%Q.

(** No two spans next to one another in the list are more than five
    seconds apart. *)
Definition gap_free (l : list Page.span) : Prop :=
  forall l1 prev cur l2,
    l = l1 ++ prev :: cur :: l2 -> ~ gap_between prev cur.

(** The span [cur] starts after [prev] starts and before it ends. *)
Definition follows_within (prev cur : Page.span) : Prop :=
  (Page.start prev < Page.start cur /\ Page.start cur <= Page.end_ prev)%Q.

(** The span of a record; the records that come before the first error
    record; and that error record. *)
Definition span_of (r : ProgressRecord) : Page.span :=
  Page.mkSpan (startTime r) (endTime r).

Fixpoint before_error (records : list ProgressRecord)
    : list ProgressRecord :=
  match records with
  | [] => []
  | r :: rest =>
      match status r with
      | error => []
      | success => r :: before_error rest
      end
  end.

Fixpoint first_error (records : list ProgressRecord)
    : option ProgressRecord :=
  match records with
  | [] => None
  | r :: rest =>
      match status r with
      | error => Some r
      | success => first_error rest
      end
  end.

(** The display after the entries of the records were appended, one
    record after the other, with nothing else going on. *)
Definition appended (records : list ProgressRecord) (c : Client.state)
    : Client.state :=
  fold_left (fun c r => Client.append_entries (entries r) c) records c.

(** The lines a text holds, each ended by a line feed, and what follows
    the last line feed. *)
Definition lines_of (text : string) : list string :=
  removelast (split Page.newline text).

Definition rest_of (text : string) : string :=
  List.last (split Page.newline text) EmptyString.

(** How the reading of a response ends, given what the handling of its
    lines came to: with the rest of the text in the buffer, or with a
    retry and an empty buffer. *)
Definition ended (streamBuffer : string) (r : Page.page * option Page.retry)
    : Page.page * string * option Page.retry :=
  match r with
  | (p, None) => (p, streamBuffer, None)
  | (p, Some x) => (p, EmptyString, Some x)
  end.

(** The line [l] holds the record [r], for [JSON.parse] as it is and
    after [trim]. *)
Definition holds (JSON_parse : string -> option ProgressRecord)
    (l : string) (r : ProgressRecord) : Prop :=
  JSON_parse l = Some r /\ trim l <> EmptyString /\
  JSON_parse (trim l) = Some r.

Definition string_concat (pieces : list string) : string :=
  fold_right String.append EmptyString pieces.

(** No character of [s] is the separator. *)
Fixpoint free_of (sep : ascii) (s : string) : bool :=
  match s with
  | EmptyString => true
  | String c s' => negb (Ascii.eqb c sep) && free_of sep s'
  end.

(** The timestamp of the entry reads as a number; and, shifted by the
    start [s] of its window, as a time that is not negative. *)
Definition readable (entry : TranscriptEntry) : Prop :=
  exists p, parseTimeToSeconds (timestamp entry) = Num p.

Definition readable_at (s : Q) (entry : TranscriptEntry) : Prop :=
  exists p, parseTimeToSeconds (timestamp entry) = Num p /\ (0 <= p + s)%Q.

(** The speaker of the entry has a canonical label in the map, and the
    label is not the empty string. *)
Definition labelled (speakerMap : gmap string string)
    (entry : TranscriptEntry) : Prop :=
  exists c, speakerMap !! speaker entry = Some c /\ c <> EmptyString.

(** The failure has a message, and the needle occurs in it. *)
Definition mentions (needle : string) (message : option string) : Prop :=
  exists m pre post,
    message = Some m /\ m = String.append pre (String.append needle post).

(** The synthetic entry [processChunk] returns for a contained failure. *)
Definition is_placeholder (startTime : Q) (entries : list TranscriptEntry)
    : Prop :=
  entries = [mkEntry (formatTime (Num startTime)) "System" safety_text] \/
  entries = [mkEntry (formatTime (Num startTime)) "System" rate_limit_text].

(** The dedup rule of the merger as the specification words it for the
    client: an entry already displayed within five seconds, with the same
    speaker and the same text. *)
Definition merger_rule_duplicate (displayed : list TranscriptEntry)
    (entry : TranscriptEntry) : Prop :=
  exists existing, In existing displayed /\
    JS.lt (JS.abs (JS.sub (time_of existing) (time_of entry))) (Num 5) = true /\
    speaker existing = speaker entry /\
    text existing = text entry.

(** ** Sample inputs *)

(** A backend that fails hard on the window of [time = 120]. *)
Definition sample_env (time : Z) : turn :=
  if (time =? 120)%Z
  then mkTurn (Failed (Some "Chunk processing failed")) 1000
  else mkTurn (Transcribed [mkEntry "00:05" "Speaker 1" "hello"]) 1000.

(** A backend transcript whose first line is spoken by somebody the
    backend itself labelled [System]. *)
Definition System_speaks : list TranscriptEntry :=
  [mkEntry "00:10" "System" "All circuits are busy.";
   mkEntry "00:20" "Speaker 1" "I will call again later."].

(** What [processChunk] hands on for a backend timestamp it cannot
    read, and a window with such an entry between two readable ones. *)
Definition unreadable_chunks : list (list TranscriptEntry) :=
  [[mkEntry "NaN:NaN" "Speaker 1" "hello"]].

Definition mixed_chunks : list (list TranscriptEntry) :=
  [[mkEntry "00:05" "Speaker 1" "first";
    mkEntry "NaN:NaN" "Speaker 1" "second";
    mkEntry "00:01" "Speaker 1" "third"]].

Definition overlap_chunks : list (list TranscriptEntry) :=
  [[mkEntry "00:30" "Bob" "later"; mkEntry "01:00" "Alice" "hello"];
   [mkEntry "00:03" "Alice" "hello"; mkEntry "00:00" "Bob" "again"]].

(** Windows handed over out of order, with three entries at one time. *)
Definition shuffled_chunks : list (list TranscriptEntry) :=
  [[mkEntry "00:05" "Bob" "late"];
   [mkEntry "01:45" "Alice" "tie one";
    mkEntry "01:45" "Bob" "tie two";
    mkEntry "00:10" "Alice" "early"]].

(** A record of each status as the server writes them for a recording
    of 300 seconds, and a reader of the one-letter lines that stand for
    them here. *)
Definition success_record : ProgressRecord :=
  mkRecord 0 180 300 "16:40" success 0 None
    [mkEntry "00:05" "Speaker 1" "hello"].

Definition error_record : ProgressRecord :=
  mkRecord 60 240 300 "16:40" error 0 (Some 5000%Z)
    [mkEntry "01:00" "System" "Error processing this section. Retrying..."].

Definition sample_parse (l : string) : option ProgressRecord :=
  if String.eqb l "S" then Some success_record
  else if String.eqb l "E" then Some error_record
  else None.

(** A display holding one line, and the same line arriving again three
    seconds later. *)
Definition displayed_state : Client.state :=
  Client.mkState [mkEntry "00:10" "Speaker 1" "hello"] (Num 10) "00:10"
    (Num 300).

Definition repeated_entry : TranscriptEntry :=
  mkEntry "00:13" "Speaker 1" "hello".

(** * Properties *)

(** ** Strings and numbers *)

Section StringFacts.

Lemma split_free sep s : free_of sep s = true -> split sep s = [s].
Proof.
  induction s as [|c s IH]; simpl; [reflexivity|].
  intros [Hc Hs]%andb_prop. apply negb_true_iff in Hc.
  rewrite Hc, (IH Hs). reflexivity.
Qed.

Lemma split_app sep a b :
  free_of sep a = true ->
  split sep (a ++ String sep b) = a :: split sep b.
Proof.
  induction a as [|c a IH]; simpl.
  - intros _. rewrite Ascii.eqb_refl. reflexivity.
  - intros [Hc Ha]%andb_prop. apply negb_true_iff in Hc.
    rewrite Hc, (IH Ha). reflexivity.
Qed.

Lemma free_of_app sep a b :
  free_of sep (a ++ b) = free_of sep a && free_of sep b.
Proof.
  induction a as [|c a IH]; simpl; [reflexivity|].
  rewrite IH. apply andb_assoc.
Qed.

Lemma free_of_repeat sep n c :
  Ascii.eqb c sep = false -> free_of sep (repeat_char n c) = true.
Proof. intros H. induction n; simpl; [reflexivity|]. now rewrite H. Qed.

Lemma free_of_uint d : free_of ":" (NilEmpty.string_of_uint d) = true.
Proof. induction d; simpl; auto. Qed.

Lemma free_of_Z_toString z : free_of ":" (Z_toString z) = true.
Proof.
  unfold Z_toString, NilZero.string_of_int, NilZero.string_of_uint.
  destruct (Z.to_int z) as [d|d]; destruct d; simpl; auto using free_of_uint.
Qed.

Lemma free_of_padStart n s :
  free_of ":" s = true -> free_of ":" (padStart n "0" s) = true.
Proof.
  intros H. unfold padStart.
  rewrite free_of_app, H, free_of_repeat; reflexivity.
Qed.

Lemma prefix_spec p s :
  String.prefix p s = true <-> exists post, s = (p ++ post)%string.
Proof.
  revert s. induction p as [|c p IH]; intros s.
  - split; [eauto | intros _; destruct s; reflexivity].
  - destruct s as [|c' s]; cbn [String.prefix String.append];
      [split; [discriminate | intros [? [=]]]|].
    destruct (Ascii.ascii_dec c c') as [E|Hne].
    + subst c'. rewrite IH.
      split; intros [post E]; exists post;
        [now rewrite E | now injection E].
    + split; [discriminate | intros [? [= E _]]; congruence].
Qed.

(** [includes] finds the needle exactly when it occurs somewhere. *)
Lemma includes_spec needle s :
  includes needle s = true <->
  exists pre post, s = (pre ++ needle ++ post)%string.
Proof.
  split.
  - induction s as [|c s IH]; cbn [includes].
    + rewrite orb_false_r. intros H. apply prefix_spec in H as [post E].
      exists EmptyString, post. exact E.
    + intros [H|H]%orb_prop.
      * apply prefix_spec in H as [post E].
        exists EmptyString, post. exact E.
      * destruct (IH H) as (pre & post & ->).
        exists (String c pre), post. reflexivity.
  - intros (pre & post & ->). induction pre as [|c pre IH].
    + assert (String.prefix needle (needle ++ post) = true) as H
        by (apply prefix_spec; eauto).
      change (includes needle (needle ++ post)%string = true).
      destruct (needle ++ post)%string; cbn [includes]; now rewrite H.
    + change (includes needle (String c (pre ++ needle ++ post)%string) = true).
      cbn [includes]. rewrite IH. apply orb_true_r.
Qed.

End StringFacts.

Section NumberFacts.

Lemma padStart_long n c s : (n <= String.length s)%nat -> padStart n c s = s.
Proof.
  intros H. unfold padStart.
  replace (n - String.length s)%nat with 0%nat by lia. reflexivity.
Qed.

Lemma length_uint_pos d :
  d <> Decimal.Nil -> (1 <= String.length (NilEmpty.string_of_uint d))%nat.
Proof. destruct d; simpl; [congruence|lia..]. Qed.

Lemma digits_toNumber_uint d :
  d <> Decimal.Nil ->
  digits_toNumber (NilEmpty.string_of_uint d) = Num (inject_Z (Z.of_uint d)).
Proof.
  intros Hd. unfold digits_toNumber, NilZero.uint_of_string.
  destruct (NilEmpty.string_of_uint d) eqn:E.
  - destruct d; simpl in E; congruence.
  - rewrite <- E, NilEmpty.usu. reflexivity.
Qed.

Lemma toNumber_pad_uint d :
  d <> Decimal.Nil ->
  toNumber (padStart 2 "0" (NilEmpty.string_of_uint d))
  = Num (inject_Z (Z.of_uint d)).
Proof.
  intros Hd.
  destruct (decide (2 <= String.length (NilEmpty.string_of_uint d))%nat)
    as [Hlen|Hlen].
  - rewrite padStart_long by exact Hlen.
    rewrite <- (digits_toNumber_uint d Hd).
    destruct d; simpl; congruence.
  - destruct d as [|d|d|d|d|d|d|d|d|d|d]; try congruence;
      destruct d; simpl in Hlen; try lia; reflexivity.
Qed.

Lemma toNumber_pad_Z z :
  toNumber (padStart 2 "0" (Z_toString z)) = Num (inject_Z z).
Proof.
  unfold Z_toString. destruct z as [|p|p]; simpl Z.to_int.
  - reflexivity.
  - pose proof (DecimalPos.Unsigned.to_uint_nonnil p) as Hn.
    unfold NilZero.string_of_int, NilZero.string_of_uint.
    destruct (Pos.to_uint p) eqn:E; try congruence;
      rewrite <- E, toNumber_pad_uint by congruence;
      unfold Z.of_uint; rewrite DecimalPos.Unsigned.of_to; reflexivity.
  - pose proof (DecimalPos.Unsigned.to_uint_nonnil p) as Hn.
    pose proof (length_uint_pos _ Hn) as Hl.
    unfold NilZero.string_of_int, NilZero.string_of_uint.
    destruct (Pos.to_uint p) eqn:E; try congruence;
      rewrite <- E in *; rewrite padStart_long by (simpl; lia);
      unfold toNumber; rewrite digits_toNumber_uint by exact Hn;
      unfold Z.of_uint; rewrite DecimalPos.Unsigned.of_to; reflexivity.
Qed.

(** Reading back what [formatTime] wrote for a number. *)
(** A whole number prints without a fraction: the case of every value
    [Math.floor] returns. *)
Lemma toString_whole z : toString (Num (inject_Z z)) = Z_toString z.
Proof.
  unfold toString. rewrite Qfloor_Z.
  now rewrite (proj2 (Qeq_bool_iff _ _) (Qeq_refl _)).
Qed.

Lemma parse_formatTime q :
  parseTimeToSeconds (formatTime (Num q))
  = Num (inject_Z (Qfloor (q / 60)) * 60 + inject_Z (Qfloor (Qrem q 60))).
Proof.
  unfold parseTimeToSeconds, formatTime. cbn [JS.floor JS.div JS.rem lift2].
  rewrite !toString_whole.
  change (String.append ":" ?x) with (String ":" x).
  rewrite split_app by (apply free_of_padStart, free_of_Z_toString).
  rewrite split_free by (apply free_of_padStart, free_of_Z_toString).
  cbn [List.map]. rewrite !toNumber_pad_Z. reflexivity.
Qed.

End NumberFacts.

Section FloorFacts.

Local Open Scope Q_scope.

Lemma Qfloor_unique (x : Q) (z : Z) :
  inject_Z z <= x -> x < inject_Z (z + 1) -> Qfloor x = z.
Proof.
  intros Hlo Hhi.
  pose proof (Qfloor_le x) as H1. pose proof (Qlt_floor x) as H2.
  assert (inject_Z (Qfloor x) < inject_Z (z + 1)) as H3 by lra.
  assert (inject_Z z < inject_Z (Qfloor x + 1)) as H4 by lra.
  rewrite <- Zlt_Qlt in H3, H4. lia.
Qed.

Lemma Qltb_lt (x y : Q) : Qltb x y = true <-> x < y.
Proof.
  unfold Qltb. rewrite negb_true_iff, <- not_true_iff_false, Qle_bool_iff.
  split; [apply Qnot_le_lt | apply Qlt_not_le].
Qed.

Lemma Qltb_ge (x y : Q) : Qltb x y = false <-> y <= x.
Proof.
  unfold Qltb. rewrite negb_false_iff. apply Qle_bool_iff.
Qed.

Lemma Qfloor_div60 (x : Q) : Qfloor (x / 60) = (Qfloor x / 60)%Z.
Proof.
  pose proof (Qfloor_le x) as H1. pose proof (Qlt_floor x) as H2.
  set (n := Qfloor x) in *.
  pose proof (Z.div_mod n 60 ltac:(lia)) as Hdm.
  pose proof (Z.mod_pos_bound n 60 ltac:(lia)) as Hb.
  assert (inject_Z n == 60 * inject_Z (n / 60) + inject_Z (n mod 60)) as Hq.
  { rewrite Hdm at 1. rewrite inject_Z_plus, inject_Z_mult. reflexivity. }
  assert (0 <= inject_Z (n mod 60)) as Hr0
    by (change 0 with (inject_Z 0); rewrite <- Zle_Qle; lia).
  assert (inject_Z (n mod 60) <= 59) as Hr1
    by (change 59 with (inject_Z 59); rewrite <- Zle_Qle; lia).
  rewrite inject_Z_plus in H2. change (inject_Z 1) with 1 in H2.
  apply Qfloor_unique.
  - apply Qle_shift_div_l; lra.
  - rewrite inject_Z_plus. change (inject_Z 1) with 1.
    apply Qlt_shift_div_r; lra.
Qed.

Lemma Qtrunc_nonneg (x : Q) : 0 <= x -> Qtrunc x = Qfloor x.
Proof.
  intros H. unfold Qtrunc.
  destruct (Qle_bool 0 x) eqn:E; [reflexivity|].
  apply Qle_bool_iff in H. congruence.
Qed.

Lemma Qfloor_rem60 (x : Q) :
  0 <= x -> Qfloor (Qrem x 60) = (Qfloor x mod 60)%Z.
Proof.
  intros Hx. unfold Qrem.
  rewrite Qtrunc_nonneg by (apply Qle_shift_div_l; lra).
  rewrite Qfloor_div60.
  pose proof (Qfloor_le x) as H1. pose proof (Qlt_floor x) as H2.
  set (n := Qfloor x) in *.
  pose proof (Z.div_mod n 60 ltac:(lia)) as Hdm.
  assert (inject_Z n == 60 * inject_Z (n / 60) + inject_Z (n mod 60)) as Hq.
  { rewrite Hdm at 1. rewrite inject_Z_plus, inject_Z_mult. reflexivity. }
  rewrite inject_Z_plus in H2. change (inject_Z 1) with 1 in H2.
  apply Qfloor_unique.
  - lra.
  - rewrite inject_Z_plus. change (inject_Z 1) with 1. lra.
Qed.

Lemma Qfloor_nonneg (x : Q) : 0 <= x -> (0 <= Qfloor x)%Z.
Proof.
  intros H. change 0%Z with (Qfloor 0). now apply Qfloor_resp_le.
Qed.

End FloorFacts.

(** ** Time utilities *)

Section TimeUtilities.

Local Open Scope Q_scope.

(** For a number that is not negative, [formatTime] prints the whole
    seconds: minutes are the quotient and seconds the remainder by 60. *)
Lemma formatTime_nonneg (x : Q) :
  0 <= x ->
  formatTime (Num x)
  = (padStart 2 "0" (Z_toString (Qfloor x / 60)) ++ ":" ++
     padStart 2 "0" (Z_toString (Qfloor x mod 60)))%string.
Proof.
  intros Hx. unfold formatTime.
  cbn [JS.floor JS.div JS.rem lift2].
  rewrite !toString_whole, Qfloor_div60, Qfloor_rem60 by exact Hx. reflexivity.
Qed.

(** [formatTime] does not tell apart two fractions of the same value. *)
Lemma formatTime_Qeq (x y : Q) :
  x == y -> formatTime (Num x) = formatTime (Num y).
Proof.
  intros E. unfold formatTime.
  cbn [JS.floor JS.div JS.rem lift2]. rewrite !toString_whole.
  assert (x / 60 == y / 60) as E1 by (rewrite E; reflexivity).
  assert (Qrem x 60 == Qrem y 60) as E2.
  { unfold Qrem, Qtrunc.
    rewrite (Qfloor_comp _ _ E1), (Qceiling_comp _ _ E1).
    assert (Qle_bool 0 (x / 60) = Qle_bool 0 (y / 60)) as ->
      by (apply eq_true_iff_eq; rewrite !Qle_bool_iff, E1; reflexivity).
    rewrite E. reflexivity. }
  rewrite (Qfloor_comp _ _ E1), (Qfloor_comp _ _ E2). reflexivity.
Qed.

Lemma parse_formatTime_nonneg (x : Q) :
  0 <= x ->
  exists t, parseTimeToSeconds (formatTime (Num x)) = Num t /\
            t == inject_Z (Qfloor x).
Proof.
  intros Hx. rewrite parse_formatTime. eexists. split; [reflexivity|].
  rewrite Qfloor_div60, Qfloor_rem60 by exact Hx.
  rewrite (Z.div_mod (Qfloor x) 60) at 3 by lia.
  rewrite inject_Z_plus, inject_Z_mult. ring.
Qed.

(** C10. On whole seconds [parseTimeToSeconds] undoes [formatTime],
    however many digits the minutes take; and on any number that is not
    negative [formatTime] prints the floor: the text is that of the
    whole seconds below it, minutes [floor x / 60] and seconds
    [floor x mod 60]. *)
Theorem formatTime_parseTimeToSeconds_round_trip (s : Z) (x : Q) :
  (0 <= s)%Z -> 0 <= x ->
  parseTimeToSeconds (formatTime (Num (inject_Z s))) = Num (inject_Z s) /\
  formatTime (Num x) = formatTime (Num (inject_Z (Qfloor x))) /\
  formatTime (Num x)
  = (padStart 2 "0" (Z_toString (Qfloor x / 60)) ++ ":" ++
     padStart 2 "0" (Z_toString (Qfloor x mod 60)))%string.
Proof.
  intros Hs Hx. split; [|split].
  - rewrite parse_formatTime.
    assert (0 <= inject_Z s) as Hq
      by (change 0 with (inject_Z 0); rewrite <- Zle_Qle; exact Hs).
    rewrite Qfloor_div60, Qfloor_rem60, Qfloor_Z by exact Hq.
    pose proof (Z.div_mod s 60 ltac:(lia)) as Hdm.
    unfold Qplus, Qmult, inject_Z. cbn [Qnum Qden Pos.mul].
    do 2 f_equal. lia.
  - rewrite !formatTime_nonneg, Qfloor_Z; [reflexivity| |exact Hx].
    change 0 with (inject_Z 0). rewrite <- Zle_Qle.
    now apply Qfloor_nonneg.
  - now apply formatTime_nonneg.
Qed.

Lemma formatTime_parseTimeToSeconds_round_trip_witness :
  parseTimeToSeconds (formatTime (Num (inject_Z 3725))) = Num (inject_Z 3725) /\
  formatTime (Num (1199 # 10)) = formatTime (Num (inject_Z (Qfloor (1199 # 10)))) /\
  formatTime (Num (1199 # 10)) = "01:59"%string.
Proof.
  apply (formatTime_parseTimeToSeconds_round_trip 3725 (1199 # 10)).
  - lia.
  - unfold Qle; simpl; lia.
Defined.

(** The two calls of [Math.floor] are what makes the text whole
    seconds: the quotient and the remainder themselves print with their
    fraction. *)
Example toString_fraction :
  toString (JS.div (Num 90) (Num 60)) = "1.5"%string /\
  toString (JS.floor (JS.div (Num 90) (Num 60))) = "1"%string /\
  toString (JS.rem (Num (181 # 2)) (Num 60)) = "30.5"%string /\
  toString (JS.floor (JS.rem (Num (181 # 2)) (Num 60))) = "30"%string.
Proof. repeat split; reflexivity. Qed.

Example formatTime_75 : formatTime (Num 75) = "01:15"%string.
Proof. reflexivity. Qed.

Example formatTime_hour : formatTime (Num 3725) = "62:05"%string.
Proof. reflexivity. Qed.

Example formatTime_long : formatTime (Num 6000) = "100:00"%string.
Proof. reflexivity. Qed.

Example parse_long : parseTimeToSeconds "100:00" = Num 6000.
Proof. reflexivity. Qed.

Example formatTime_NaN : formatTime NaN = "NaN:NaN"%string.
Proof. reflexivity. Qed.

Example parse_no_colon : parseTimeToSeconds "90" = NaN.
Proof. reflexivity. Qed.

Example parse_NaN : parseTimeToSeconds "NaN:NaN" = NaN.
Proof. reflexivity. Qed.

End TimeUtilities.

(** ** The window loop *)

Section WindowLoop.

Local Open Scope Q_scope.

Variable duration : Q.

Lemma ceiling_above (time : Z) :
  inject_Z time < duration -> (time < Qceiling duration)%Z.
Proof.
  intros H. pose proof (Qle_ceiling duration) as Hc.
  rewrite Zlt_Qlt. lra.
Qed.

(** Fuel above the bound is never used up. *)
Lemma for_time_fuel {S : Type} (body : Z -> S -> S) (f1 f2 : nat) :
  forall time st,
    (Z.to_nat (Qceiling duration - time) < f1)%nat ->
    (Z.to_nat (Qceiling duration - time) < f2)%nat ->
    for_time f1 duration body time st = for_time f2 duration body time st.
Proof.
  revert f2. induction f1 as [|f1 IH]; intros f2 time st H1 H2; [lia|].
  destruct f2 as [|f2]; [lia|]. simpl.
  destruct (Qltb (inject_Z time) duration) eqn:E; [|reflexivity].
  apply Qltb_lt, ceiling_above in E.
  apply IH; unfold CHUNK_DURATION; lia.
Qed.

(** The loop, one turn at a time. *)
Lemma for_each_window_step {S : Type} (body : Z -> S -> S) time st :
  for_each_window duration (Some time) body st
  = if Qltb (inject_Z time) duration
    then for_each_window duration (Some (time + CHUNK_DURATION)%Z) body
           (body time st)
    else st.
Proof.
  unfold for_each_window. unfold turns_bound at 1. cbn [for_time].
  destruct (Qltb (inject_Z time) duration) eqn:E; [|reflexivity].
  apply Qltb_lt, ceiling_above in E.
  apply for_time_fuel; unfold turns_bound, CHUNK_DURATION; lia.
Qed.

(** Induction along the loop: a turn happens when [time < duration] and
    the next one starts at [time + CHUNK_DURATION]. *)
Lemma window_loop_ind (P : Z -> Prop) :
  (forall time,
     (inject_Z time < duration -> P (time + CHUNK_DURATION)%Z) -> P time) ->
  forall time, P time.
Proof.
  intros Hstep time.
  remember (Z.to_nat (Qceiling duration - time)) as n eqn:Hn.
  revert time Hn.
  induction n as [n IH] using lt_wf_ind. intros time Hn.
  apply Hstep. intros Hlt. apply ceiling_above in Hlt.
  eapply IH; [|reflexivity]. unfold CHUNK_DURATION. lia.
Qed.

Lemma for_each_window_times {S : Type} (body : Z -> S -> S) init st :
  for_each_window duration init body st
  = fold_left (fun st time => body time st) (loop_times duration init) st.
Proof.
  destruct init as [time|]; [|reflexivity].
  unfold loop_times.
  enough (forall acc,
    for_each_window duration (Some time) body (fold_left (fun st t => body t st) acc st)
    = fold_left (fun st t => body t st)
        (for_each_window duration (Some time) (fun t ts => ts ++ [t]) acc) st)
    as H by (apply (H [])).
  induction time as [time IH] using window_loop_ind. intros acc.
  rewrite !(for_each_window_step _ time).
  destruct (Qltb (inject_Z time) duration) eqn:E; [|reflexivity].
  apply Qltb_lt in E. rewrite <- (IH E). rewrite fold_left_app. reflexivity.
Qed.

Lemma collect_times_acc time acc :
  for_each_window duration (Some time) (fun t ts => ts ++ [t]) acc
  = acc ++ loop_times duration (Some time).
Proof.
  unfold loop_times. revert acc.
  induction time as [time IH] using window_loop_ind. intros acc.
  rewrite !(for_each_window_step _ time).
  destruct (Qltb (inject_Z time) duration) eqn:E;
    [|now rewrite app_nil_r].
  apply Qltb_lt in E.
  rewrite (IH E (acc ++ [time])), (IH E ([] ++ [time])).
  rewrite <- app_assoc. reflexivity.
Qed.

Lemma loop_times_step time :
  loop_times duration (Some time)
  = if Qltb (inject_Z time) duration
    then time :: loop_times duration (Some (time + CHUNK_DURATION)%Z)
    else [].
Proof.
  unfold loop_times at 1. rewrite for_each_window_step.
  destruct (Qltb (inject_Z time) duration); [|reflexivity].
  rewrite collect_times_acc. reflexivity.
Qed.

(** The [i]-th turn runs at [time + i * CHUNK_DURATION], and it runs
    exactly when that is below [duration]. *)
Lemma loop_times_lookup time (i : nat) :
  loop_times duration (Some time) !! i
  = if Qltb (inject_Z (time + Z.of_nat i * CHUNK_DURATION)) duration
    then Some (time + Z.of_nat i * CHUNK_DURATION)%Z
    else None.
Proof.
  revert time. induction i as [|i IH]; intros time.
  - rewrite loop_times_step. replace (time + Z.of_nat 0 * CHUNK_DURATION)%Z
      with time by lia.
    destruct (Qltb (inject_Z time) duration); reflexivity.
  - rewrite loop_times_step.
    replace (time + Z.of_nat (S i) * CHUNK_DURATION)%Z
      with (time + CHUNK_DURATION + Z.of_nat i * CHUNK_DURATION)%Z by lia.
    destruct (Qltb (inject_Z time) duration) eqn:E.
    + simpl. apply IH.
    + simpl. apply Qltb_ge in E.
      destruct (Qltb _ duration) eqn:E'; [|reflexivity].
      apply Qltb_lt in E'.
      assert (inject_Z time <= inject_Z (time + CHUNK_DURATION + Z.of_nat i * CHUNK_DURATION))
        by (rewrite <- Zle_Qle; unfold CHUNK_DURATION; lia).
      lra.
Qed.

Lemma planned_windows_times init :
  planned_windows duration init
  = List.map (window_at duration) (loop_times duration init).
Proof.
  unfold planned_windows. rewrite for_each_window_times.
  enough (forall l acc,
    fold_left (fun ws time => ws ++ [window_at duration time]) l acc
    = acc ++ List.map (window_at duration) l) as H by (apply (H _ [])).
  induction l as [|t l IH]; intros acc; simpl.
  - now rewrite app_nil_r.
  - rewrite IH, <- app_assoc. reflexivity.
Qed.

End WindowLoop.

(** ** Segment planner *)

Section Planner.

Local Open Scope Q_scope.

(** Integer facts read as facts about rationals. *)
Lemma inject_Z_le (a b : Z) : (a <= b)%Z -> inject_Z a <= inject_Z b.
Proof. now rewrite <- Zle_Qle. Qed.

Lemma inject_Z_sub (a b : Z) : inject_Z (a - b) = inject_Z a - inject_Z b.
Proof.
  unfold Z.sub, Qminus. now rewrite inject_Z_plus, inject_Z_opp.
Qed.

Lemma planned_lookup (duration : Q) (time : Z) (i : nat) :
  planned_windows duration (Some time) !! i
  = if Qltb (inject_Z (time + Z.of_nat i * CHUNK_DURATION)) duration
    then Some (window_at duration (time + Z.of_nat i * CHUNK_DURATION))
    else None.
Proof.
  rewrite planned_windows_times.
  change (List.map (window_at duration) ?l) with (window_at duration <$> l).
  rewrite list_lookup_fmap, loop_times_lookup.
  destruct (Qltb _ duration); reflexivity.
Qed.

(** The start of a window stays within a minute behind the loop
    variable and is never negative. *)
Lemma chunkStartTime_bounds (duration : Q) (time : Z) :
  (0 <= time)%Z ->
  let s := chunkStartTime (window_at duration time) in
  0 <= s /\ s <= inject_Z time /\ inject_Z time - 60 <= s.
Proof.
  intros Ht. cbn. unfold chunkStartTime_at, CHUNK_OVERLAP.
  change 0 with (inject_Z 0). change 60 with (inject_Z 60).
  rewrite <- inject_Z_sub. repeat split; apply inject_Z_le; lia.
Qed.

(** The end of a window is the earlier of three minutes after its
    start and the end of the media. *)
Lemma window_end (duration : Q) (time : Z) :
  let w := window_at duration time in
  chunkStartTime w + chunkDuration w
  == Qmin (chunkStartTime w + 180) duration.
Proof.
  cbn. unfold chunkDuration_at.
  change (inject_Z (CHUNK_DURATION + CHUNK_OVERLAP)) with 180.
  set (s := inject_Z (chunkStartTime_at time)).
  rewrite <- Q.plus_min_distr_l.
  apply Q.min_compat; [reflexivity | ring].
Qed.

(** C1. With windows of 120 seconds overlapping by 60 and no resume
    offset, the loop over a media of positive duration plans windows
    whose starts strictly increase: by 60 from the first (whose start
    is clamped at 0) to the second and by exactly 120 afterwards; the
    last window ends at the total duration; and every point of
    [[0, totalDuration)] lies in one of the windows. *)
Theorem planner_windows_cover (totalDuration : Q) :
  0 < totalDuration ->
  let ws := planned_windows totalDuration (Some 0%Z) in
  (forall (i : nat) w w',
     ws !! i = Some w -> ws !! S i = Some w' ->
     chunkStartTime w < chunkStartTime w' /\
     (i = 0%nat -> chunkStartTime w == 0 /\ chunkStartTime w' == 60) /\
     (i <> 0%nat ->
      chunkStartTime w' == chunkStartTime w + inject_Z CHUNK_DURATION)) /\
  (exists w, last ws = Some w /\
     chunkStartTime w + chunkDuration w == totalDuration) /\
  (forall x, 0 <= x -> x < totalDuration ->
     exists w, In w ws /\ covers w x).
Proof.
  intros HD ws. split; [|split].
  - intros i w w'. unfold ws. rewrite !planned_lookup.
    destruct (Qltb _ totalDuration); [|discriminate].
    destruct (Qltb _ totalDuration); [|discriminate].
    intros [= <-] [= <-]. cbn. unfold chunkStartTime_at, CHUNK_OVERLAP, CHUNK_DURATION.
    split; [|split].
    + rewrite <- Zlt_Qlt. lia.
    + intros ->. split; reflexivity.
    + intros Hi. rewrite <- inject_Z_plus. apply inject_Z_injective. lia.
  - assert (ws !! 0%nat = Some (window_at totalDuration 0)) as H0.
    { unfold ws. rewrite planned_lookup.
      change (0 + Z.of_nat 0 * CHUNK_DURATION)%Z with 0%Z.
      apply Qltb_lt in HD. change (inject_Z 0) with 0. now rewrite HD. }
    assert (0 < List.length ws)%nat as Hlen
      by (apply lookup_lt_is_Some; eauto).
    destruct (last ws) as [w|] eqn:Hlast;
      [|apply last_None in Hlast; rewrite Hlast in Hlen; simpl in Hlen; lia].
    exists w. split; [reflexivity|].
    rewrite last_lookup in Hlast.
    assert (ws !! List.length ws = None) as Hend
      by (apply lookup_ge_None; lia).
    destruct (List.length ws) as [|n]; [lia|]. simpl in Hlast.
    unfold ws in Hlast, Hend. rewrite planned_lookup in Hlast, Hend.
    destruct (Qltb _ totalDuration) eqn:E1 in Hlast; [|discriminate].
    destruct (Qltb _ totalDuration) eqn:E2 in Hend; [discriminate|].
    injection Hlast as <-. apply Qltb_lt in E1. apply Qltb_ge in E2.
    set (t := (0 + Z.of_nat n * CHUNK_DURATION)%Z) in *.
    replace (0 + Z.of_nat (S n) * CHUNK_DURATION)%Z with (t + 120)%Z in E2
      by (unfold t, CHUNK_DURATION; lia).
    rewrite inject_Z_plus in E2. change (inject_Z 120) with 120 in E2.
    rewrite window_end.
    destruct (chunkStartTime_bounds totalDuration t) as (Hs0 & Hs1 & Hs2);
      [unfold t, CHUNK_DURATION; lia|].
    rewrite Q.min_r; [reflexivity|]. cbv zeta in Hs2. lra.
  - intros x Hx0 HxD.
    pose proof (Qfloor_le (x / 120)) as Hf1.
    pose proof (Qlt_floor (x / 120)) as Hf2.
    assert (0 <= Qfloor (x / 120))%Z as Hk
      by (apply Qfloor_nonneg, Qle_shift_div_l; lra).
    set (k := Qfloor (x / 120)) in *.
    set (t := (0 + Z.of_nat (Z.to_nat k) * CHUNK_DURATION)%Z).
    assert (inject_Z t == inject_Z k * 120) as Ht.
    { unfold t, CHUNK_DURATION. rewrite Z2Nat.id by exact Hk.
      rewrite Z.add_0_l, inject_Z_mult. reflexivity. }
    rewrite inject_Z_plus in Hf2. change (inject_Z 1) with 1 in Hf2.
    assert (x == x / 120 * 120) as Hy by field.
    assert (inject_Z k * 120 <= x) as Hlo by lra.
    assert (x < (inject_Z k + 1) * 120) as Hhi by lra.
    exists (window_at totalDuration t). split.
    + apply list_elem_of_In, list_elem_of_lookup. exists (Z.to_nat k).
      unfold ws. rewrite planned_lookup. fold t.
      assert (Qltb (inject_Z t) totalDuration = true) as ->
        by (apply Qltb_lt; lra).
      reflexivity.
    + destruct (chunkStartTime_bounds totalDuration t) as (Hs0 & Hs1 & Hs2);
        [unfold t, CHUNK_DURATION; lia|].
      cbv zeta in Hs1, Hs2. unfold covers. rewrite window_end. split; [lra|].
      apply Q.min_glb_lt; lra.
Qed.

Lemma planner_windows_cover_witness :
  0 < 300 /\
  planned_windows 300 (Some 0%Z)
  = [mkWindow 0 180; mkWindow 60 180; mkWindow 180 120] /\
  exists w, last (planned_windows 300 (Some 0%Z)) = Some w /\
            chunkStartTime w + chunkDuration w == 300.
Proof.
  split; [reflexivity|]. split; [vm_compute; reflexivity|].
  destruct (planner_windows_cover 300 eq_refl) as (_ & H & _). exact H.
Defined.

Example planned_windows_fraction :
  planned_windows (601 # 2) (Some 0%Z)
  = [mkWindow 0 180; mkWindow 60 180; mkWindow 180 (241 # 2)].
Proof. vm_compute. reflexivity. Qed.

Example planned_windows_short :
  planned_windows 45 (Some 0%Z) = [mkWindow 0 45].
Proof. vm_compute. reflexivity. Qed.

Example planned_windows_NaN : planned_windows 300 None = [].
Proof. reflexivity. Qed.

End Planner.

(** ** Segment processor *)

Section Processor.

Local Open Scope Q_scope.

Lemma Qtrunc_ge_floor (y : Q) : (Qfloor y <= Qtrunc y)%Z.
Proof.
  unfold Qtrunc. destruct (Qle_bool 0 y); [lia|].
  rewrite Zle_Qle. apply Qle_floor_ceiling.
Qed.

(** What [formatTime] writes never reads back above the number it was
    given, whatever its sign. *)
Lemma parse_formatTime_le (a : Q) :
  exists t, parseTimeToSeconds (formatTime (Num a)) = Num t /\ t <= a.
Proof.
  rewrite parse_formatTime. eexists. split; [reflexivity|].
  pose proof (Qfloor_le (a / 60)) as Hm.
  pose proof (Qfloor_le (Qrem a 60)) as Hr.
  pose proof (inject_Z_le _ _ (Qtrunc_ge_floor (a / 60))) as Ht.
  unfold Qrem in Hr at 2. lra.
Qed.

Lemma Qmin_gt (x y : Q) : y < x -> Qmin x y = y.
Proof.
  intros H. unfold Qmin, GenericMinMax.gmin.
  now rewrite (proj1 (Qgt_alt x y) H).
Qed.

(** C3. For a window starting at [s] and lasting [d], [processChunk]
    turns every parsed entry, in order, into the same entry with the
    timestamp [formatTime (min (parsedSeconds + s) (s + d))]; an entry
    whose window-relative time exceeds [d] gets exactly the timestamp of
    [s + d], and no emitted timestamp reads back above [s + d]. *)
Theorem processChunk_clamps_timestamps (s d : Q)
    (parsedTranscript : list TranscriptEntry) :
  exists out,
    processChunk (Transcribed parsedTranscript) s d = Return out /\
    List.length out = List.length parsedTranscript /\
    forall (i : nat) entry, parsedTranscript !! i = Some entry ->
      exists emitted, out !! i = Some emitted /\
        speaker emitted = speaker entry /\
        text emitted = text entry /\
        timestamp emitted
        = formatTime (JS.min (add (parseTimeToSeconds (timestamp entry)) (Num s))
                             (Num (s + d))) /\
        forall p, parseTimeToSeconds (timestamp entry) = Num p ->
          (d < p -> timestamp emitted = formatTime (Num (s + d))) /\
          (exists t, parseTimeToSeconds (timestamp emitted) = Num t /\
                     t <= s + d).
Proof.
  eexists. split; [reflexivity|]. split; [apply length_map|].
  intros i entry Hi.
  exists (adjust_entry s d entry). split.
  - change (List.map (adjust_entry s d) ?l) with (adjust_entry s d <$> l).
    rewrite list_lookup_fmap, Hi. reflexivity.
  - do 3 (split; [reflexivity|]).
    intros p Hp. cbn. rewrite Hp. cbn. split.
    + intros Hdp. rewrite Qmin_gt by lra. reflexivity.
    + destruct (parse_formatTime_le (Qmin (p + s) (s + d))) as (t & Ht & Hle).
      exists t. split; [exact Ht|].
      pose proof (Q.le_min_r (p + s) (s + d)). lra.
Qed.

Lemma processChunk_clamps_timestamps_witness :
  processChunk
    (Transcribed [mkEntry "00:10" "Speaker 1" "in range";
                  mkEntry "05:00" "Speaker 2" "out of range"]) 60 180
  = Return [mkEntry "01:10" "Speaker 1" "in range";
            mkEntry "04:00" "Speaker 2" "out of range"] /\
  exists emitted,
    [mkEntry "01:10" "Speaker 1" "in range";
     mkEntry "04:00" "Speaker 2" "out of range"] !! 1%nat = Some emitted /\
    timestamp emitted = formatTime (Num (60 + 180)).
Proof.
  split; [vm_compute; reflexivity|].
  destruct (processChunk_clamps_timestamps 60 180
              [mkEntry "00:10" "Speaker 1" "in range";
               mkEntry "05:00" "Speaker 2" "out of range"])
    as (out & Hout & _ & H).
  injection Hout as <-.
  destruct (H 1%nat (mkEntry "05:00" "Speaker 2" "out of range") eq_refl)
    as (emitted & Hi & _ & _ & _ & Hp).
  exists emitted. split; [exact Hi|].
  destruct (Hp 300 eq_refl) as [Hclamp _]. apply Hclamp. reflexivity.
Defined.

(** An unreadable timestamp from the backend leaves the processor as
    the text [NaN:NaN]. *)
Example processChunk_unreadable_timestamp :
  processChunk (Transcribed [mkEntry "1m05s" "Speaker 1" "hello"]) 60 180
  = Return [mkEntry "NaN:NaN" "Speaker 1" "hello"].
Proof. vm_compute. reflexivity. Qed.

Lemma message_includes_spec needle message :
  message_includes needle message = true <-> mentions needle message.
Proof.
  unfold message_includes, mentions. destruct message as [m|].
  - rewrite includes_spec. split.
    + intros (pre & post & E). exists m, pre, post. split; [reflexivity|exact E].
    + intros (m' & pre & post & [= <-] & E). exists pre, post. exact E.
  - split; [discriminate | intros (? & ? & ? & [=] & _)].
Qed.

(** C4. A failure whose message contains [SAFETY] or [429] is not
    propagated: [processChunk] returns exactly one entry, stamped with
    the formatted window start, spoken by [System], with the text that
    explains the failure (the safety text when [SAFETY] occurs, the
    rate-limit text otherwise).  Every other failure, with or without a
    message, is thrown again as it is. *)
Theorem processChunk_contains_failures (message : option string) (s d : Q) :
  (mentions "SAFETY" message \/ mentions "429" message ->
   exists explanation,
     processChunk (Failed message) s d
     = Return [mkEntry (formatTime (Num s)) "System" explanation] /\
     (mentions "SAFETY" message -> explanation = safety_text) /\
     (~ mentions "SAFETY" message -> explanation = rate_limit_text)) /\
  (~ mentions "SAFETY" message -> ~ mentions "429" message ->
   processChunk (Failed message) s d = Throw message).
Proof.
  pose proof (message_includes_spec "SAFETY" message) as HS.
  pose proof (message_includes_spec "429" message) as HR.
  unfold processChunk.
  destruct (message_includes "SAFETY" message);
    destruct (message_includes "429" message); cbn [orb]; split.
  - intros _. exists safety_text. intuition.
  - intuition.
  - intros _. exists safety_text. intuition.
  - intuition.
  - intros _. exists rate_limit_text. intuition discriminate.
  - intuition.
  - intuition discriminate.
  - reflexivity.
Qed.

Lemma processChunk_contains_failures_witness :
  processChunk (Failed (Some "[429 Too Many Requests] Resource has been exhausted")) 60 180
  = Return [mkEntry "01:00" "System" rate_limit_text] /\
  processChunk (Failed (Some "Chunk processing failed")) 60 180
  = Throw (Some "Chunk processing failed").
Proof.
  assert (~ mentions "SAFETY"
            (Some "[429 Too Many Requests] Resource has been exhausted"))
    as Hno by (rewrite <- message_includes_spec; discriminate).
  split.
  - destruct (processChunk_contains_failures
                (Some "[429 Too Many Requests] Resource has been exhausted")
                60 180) as [H _].
    destruct H as (explanation & E & _ & Hrate).
    + right. exists "[429 Too Many Requests] Resource has been exhausted",
        "[", " Too Many Requests] Resource has been exhausted".
      split; reflexivity.
    + rewrite E, (Hrate Hno). reflexivity.
  - apply (processChunk_contains_failures (Some "Chunk processing failed") 60 180);
      rewrite <- message_includes_spec; discriminate.
Defined.

Example processChunk_safety :
  processChunk (Failed (Some "Candidate was blocked due to SAFETY")) 60 180
  = Return [mkEntry "01:00" "System" safety_text].
Proof. reflexivity. Qed.

Example processChunk_no_message :
  processChunk (Failed None) 60 180 = Throw None.
Proof. reflexivity. Qed.

(** A parse failure whose message quotes a position containing 429 is
    taken for a rate limit. *)
Example processChunk_syntax_error :
  processChunk
    (Failed (Some "Unexpected token < in JSON at position 1429")) 60 180
  = Return [mkEntry "01:00" "System" rate_limit_text].
Proof. reflexivity. Qed.

End Processor.

(** ** Pipeline orchestrator *)

Section Orchestrator.

Local Open Scope Q_scope.

Variable env : Z -> turn.
Variable duration : Q.

Lemma POST_turn_events time st :
  events (POST_turn env duration time st)
  = events st ++ [Enqueue (record_of env duration time);
                  Wait (pause_of env duration time)].
Proof.
  unfold POST_turn, record_of, pause_of. cbv zeta.
  destruct (processChunk _ _ _); reflexivity.
Qed.

Lemma POST_loop_events times st :
  events (fold_left (fun st time => POST_turn env duration time st) times st)
  = events st ++
    List.concat (List.map (fun time =>
      [Enqueue (record_of env duration time);
       Wait (pause_of env duration time)]) times).
Proof.
  revert st. induction times as [|t times IH]; intros st; simpl.
  - now rewrite app_nil_r.
  - rewrite IH, POST_turn_events, <- app_assoc. reflexivity.
Qed.

Lemma POST_stream_events init :
  events (POST_stream env duration init)
  = List.concat (List.map (fun time =>
      [Enqueue (record_of env duration time);
       Wait (pause_of env duration time)]) (loop_times duration init))
    ++ [Close].
Proof.
  unfold POST_stream. cbn [events].
  rewrite for_each_window_times, POST_loop_events. reflexivity.
Qed.

Lemma enqueued_app evs evs' :
  enqueued (evs ++ evs') = enqueued evs ++ enqueued evs'.
Proof. apply omap_app. Qed.

Lemma POST_stream_enqueued init :
  enqueued (events (POST_stream env duration init))
  = List.map (record_of env duration) (loop_times duration init).
Proof.
  rewrite POST_stream_events, enqueued_app. cbn. rewrite app_nil_r.
  induction (loop_times duration init) as [|t times IH]; [reflexivity|].
  cbn. f_equal. exact IH.
Qed.

Lemma record_of_window time :
  let r := record_of env duration time in
  let w := window_at duration time in
  startTime r = chunkStartTime w /\
  endTime r = chunkStartTime w + chunkDuration w /\
  totalDuration r = duration.
Proof.
  unfold record_of. cbv zeta.
  destruct (processChunk _ _ _); repeat split.
Qed.

End Orchestrator.

Section OrchestratorClaims.

Local Open Scope Q_scope.

(** C6. Whatever the backend answers, the stream carries exactly one
    record per planned window, in window order, and is closed once,
    after the last record.  When [processChunk] throws for a window,
    the record of that window is the error record, and every later
    window still gets its record. *)
Theorem POST_one_record_per_window (env : Z -> turn) (duration : Q)
    (initialStartTime : option Z) :
  let run := POST_stream env duration initialStartTime in
  let ws := planned_windows duration initialStartTime in
  Forall2 (fun w r =>
             startTime r = chunkStartTime w /\
             endTime r = chunkStartTime w + chunkDuration w)
          ws (enqueued (events run)) /\
  (exists evs, events run = evs ++ [Close] /\ ~ In Close evs) /\
  (forall (i : nat) time message,
     loop_times duration initialStartTime !! i = Some time ->
     processChunk (backend (env time))
       (chunkStartTime (window_at duration time))
       (chunkDuration (window_at duration time)) = Throw message ->
     (exists r,
        enqueued (events run) !! i = Some r /\
        r = errorData (window_at duration time) duration (env time) message /\
        status r = error /\
        startTime r = chunkStartTime (window_at duration time)) /\
     forall (j : nat) w, (i < j)%nat -> ws !! j = Some w ->
       exists r, enqueued (events run) !! j = Some r /\
                 startTime r = chunkStartTime w).
Proof.
  intros run ws.
  assert (Forall2 (fun w r =>
             startTime r = chunkStartTime w /\
             endTime r = chunkStartTime w + chunkDuration w)
          ws (enqueued (events run))) as HF.
  { unfold run, ws. rewrite POST_stream_enqueued, planned_windows_times.
    induction (loop_times duration initialStartTime) as [|t times IH];
      constructor; [|exact IH].
    destruct (record_of_window env duration t) as (H1 & H2 & _).
    split; assumption. }
  split; [exact HF|]. split.
  - eexists. split; [apply POST_stream_events|].
    induction (loop_times duration initialStartTime) as [|t times IH];
      simpl; [tauto|].
    intros [H|[H|H]]; [discriminate..|tauto].
  - intros i time message Hi Hthrow. split.
    + eexists. split; [|repeat split].
      unfold run. rewrite POST_stream_enqueued.
      change (List.map (record_of env duration) ?l)
        with (record_of env duration <$> l).
      rewrite list_lookup_fmap, Hi. cbn. unfold record_of. cbv zeta.
      rewrite Hthrow. reflexivity.
    + intros j w _ Hj.
      destruct (Forall2_lookup_l _ _ _ _ _ HF Hj) as (r & Hr & Hs & _).
      exists r. split; assumption.
Qed.

Lemma POST_one_record_per_window_witness :
  List.map (fun r => (startTime r, status r))
    (enqueued (events (POST_stream sample_env 300 (Some 0%Z))))
  = [(0, success); (60, error); (180, success)] /\
  enqueued (events (POST_stream sample_env 300 (Some 0%Z))) !! 1%nat
  = Some (errorData (window_at 300 120) 300 (sample_env 120)
            (Some "Chunk processing failed")).
Proof.
  split; [vm_compute; reflexivity|].
  destruct (POST_one_record_per_window sample_env 300 (Some 0%Z))
    as (_ & _ & H).
  destruct (H 1%nat 120%Z (Some "Chunk processing failed"))
    as [(r & Hr & -> & _) _]; [vm_compute; reflexivity..|].
  exact Hr.
Defined.

Example POST_stream_trace :
  List.map (fun e => match e with
                     | Enqueue r => Some (status r)
                     | _ => None
                     end)
    (events (POST_stream sample_env 300 (Some 0%Z)))
  = [Some success; None; Some error; None; Some success; None; None] /\
  last (events (POST_stream sample_env 300 (Some 0%Z))) = Some Close.
Proof. split; vm_compute; reflexivity. Qed.

Example POST_stream_NaN_start :
  events (POST_stream sample_env 300 None) = [Close].
Proof. reflexivity. Qed.

End OrchestratorClaims.

Section RecordStatus.

Local Open Scope Q_scope.

Lemma status_of_error (chunkTranscript : list TranscriptEntry) :
  status_of chunkTranscript = error <->
  exists entry rest,
    chunkTranscript = entry :: rest /\ speaker entry = "System"%string.
Proof.
  unfold status_of, first_is_System.
  destruct chunkTranscript as [|entry rest].
  - split; [discriminate | intros (? & ? & [=] & _)].
  - destruct (String.eqb_spec (speaker entry) "System") as [E|E].
    + split; [eauto | reflexivity].
    + split; [discriminate | intros (? & ? & [= <- <-] & ?); contradiction].
Qed.

(** What the test [chunkTranscript[0]?.speaker === 'System'] of
    [chunkData] computes.  The record of a window whose processing
    returned entries has status [error] exactly when the list is not
    empty and its first entry is spoken by [System].  That is the case
    of the synthetic placeholder; the empty list, and a list whose first
    entry has another speaker (whoever speaks later), give [success]. *)
Lemma record_status_error_iff_first_System (w : Window) (duration : Q)
    (t : turn) (chunkTranscript : list TranscriptEntry) :
  (status (chunkData w duration t chunkTranscript) = error <->
   exists entry rest,
     chunkTranscript = entry :: rest /\ speaker entry = "System"%string) /\
  (is_placeholder (chunkStartTime w) chunkTranscript ->
   status (chunkData w duration t chunkTranscript) = error) /\
  (chunkTranscript = [] ->
   status (chunkData w duration t chunkTranscript) = success) /\
  (forall entry rest,
     chunkTranscript = entry :: rest -> speaker entry <> "System"%string ->
     status (chunkData w duration t chunkTranscript) = success).
Proof.
  cbn [chunkData status]. split; [apply status_of_error|]. split; [|split].
  - intros [-> | ->]; reflexivity.
  - intros ->. reflexivity.
  - intros entry rest -> Hs. unfold status_of, first_is_System.
    apply String.eqb_neq in Hs. now rewrite Hs.
Qed.

Lemma record_status_error_iff_first_System_witness :
  status (chunkData (mkWindow 60 180) 300 (mkTurn (Failed None) 1000)
            [mkEntry "01:00" "System" rate_limit_text]) = error /\
  status (chunkData (mkWindow 60 180) 300 (mkTurn (Failed None) 1000) [])
  = success /\
  status (chunkData (mkWindow 60 180) 300 (mkTurn (Failed None) 1000)
            [mkEntry "01:10" "Speaker 1" "hello";
             mkEntry "01:20" "System" "hello"]) = success.
Proof.
  split; [|split].
  - apply (record_status_error_iff_first_System (mkWindow 60 180) 300
             (mkTurn (Failed None) 1000)
             [mkEntry "01:00" "System" rate_limit_text]).
    right. reflexivity.
  - apply (record_status_error_iff_first_System (mkWindow 60 180) 300
             (mkTurn (Failed None) 1000) []).
    reflexivity.
  - eapply (record_status_error_iff_first_System (mkWindow 60 180) 300
             (mkTurn (Failed None) 1000)
             [mkEntry "01:10" "Speaker 1" "hello";
              mkEntry "01:20" "System" "hello"]).
    + reflexivity.
    + discriminate.
Defined.

(** C5.  The status is meant to be [error] only for the synthetic
    placeholder, the one [System] entry the program itself writes; the
    code tests the speaker of the first entry alone and misses the
    rest.  At the transcript [System_speaks], which the backend opens
    with a line it attributes to [System], [processChunk] returns the
    two entries as they are, they are not the placeholder, and the
    record still gets the status [error]. *)
Theorem record_status_not_only_placeholder :
  processChunk (Transcribed System_speaks) 0 180 = Return System_speaks /\
  status (chunkData (mkWindow 0 180) 300 (mkTurn (Transcribed System_speaks) 1000)
            System_speaks) = error /\
  ~ is_placeholder 0 System_speaks.
Proof.
  split; [vm_compute; reflexivity|]. split; [reflexivity|].
  intros [H|H]; discriminate H.
Qed.

End RecordStatus.

(** ** Speaker canonicalisation *)

Section Speakers.

Lemma first_seen_order_In labels l :
  In l (first_seen_order labels) <-> In l labels.
Proof.
  induction labels as [|x rest IH]; simpl; [tauto|].
  rewrite filter_In, IH, negb_true_iff, String.eqb_neq.
  destruct (String.eqb_spec l x) as [->|Hne]; [tauto|].
  split; [tauto|]. intros [H|H]; [congruence | tauto].
Qed.

Lemma first_seen_order_NoDup labels : List.NoDup (first_seen_order labels).
Proof.
  induction labels as [|x rest IH]; simpl; constructor.
  - rewrite filter_In, String.eqb_refl. intros [_ [=]].
  - now apply List.NoDup_filter.
Qed.

(** A label met again changes nothing; a new one goes to the end. *)
Lemma first_seen_order_snoc seen x :
  first_seen_order (seen ++ [x])
  = if in_dec String.string_dec x seen then first_seen_order seen
    else first_seen_order seen ++ [x].
Proof.
  induction seen as [|a seen IH]; simpl.
  - reflexivity.
  - rewrite IH.
    destruct (in_dec String.string_dec x seen) as [Hx|Hx].
    + destruct (String.string_dec a x); reflexivity.
    + rewrite List.filter_app. simpl.
      destruct (String.eqb_spec x a) as [->|Hne]; simpl.
      * destruct (String.string_dec a a); [|congruence].
        now rewrite app_nil_r.
      * destruct (String.string_dec a x); [congruence | reflexivity].
Qed.

Lemma normalizeSpeakers_labels chunks :
  normalizeSpeakers chunks
  = fold_left (fun st l => note_speaker st (mkEntry "" l ""))
      (raw_labels chunks) (∅, 1%Z).
Proof.
  unfold normalizeSpeakers, raw_labels. generalize (∅ : gmap string string, 1%Z).
  induction chunks as [|chunk chunks IH]; intros st; simpl; [reflexivity|].
  rewrite IH, List.map_app, fold_left_app. f_equal.
  clear. revert st. induction chunk as [|e chunk IH]; intros st; simpl;
    [reflexivity|].
  rewrite <- IH. reflexivity.
Qed.

(** The state of the first pass after the labels [seen]. *)
Lemma note_speaker_invariant (seen : list string) :
  let st := fold_left (fun st l => note_speaker st (mkEntry "" l ""))
              seen (∅, 1%Z) in
  snd st = (Z.of_nat (List.length (first_seen_order seen)) + 1)%Z /\
  (forall (i : nat) l, first_seen_order seen !! i = Some l ->
     fst st !! l = Some (speaker_label (Z.of_nat i + 1))) /\
  (forall l, fst st !! l = None <-> ~ In l seen).
Proof.
  induction seen as [|x seen IH] using rev_ind.
  - cbn. split; [reflexivity|]. split; [intros i l [=]|].
    intros l. rewrite lookup_empty. tauto.
  - rewrite fold_left_app. cbn [fold_left].
    destruct (fold_left _ seen _) as [m idx]. cbn [fst snd] in IH.
    destruct IH as (Hidx & Hlook & Hdom).
    rewrite first_seen_order_snoc. unfold note_speaker. cbn [speaker].
    destruct (m !! x) as [c|] eqn:Hx.
    + assert (In x seen) as Hin.
      { destruct (in_dec String.string_dec x seen) as [H|H]; [exact H|].
        apply Hdom in H. congruence. }
      destruct (in_dec String.string_dec x seen); [|tauto]. cbn [fst snd].
      split; [exact Hidx|]. split; [exact Hlook|].
      intros l. rewrite Hdom, in_app_iff. simpl.
      split; [|tauto]. intros H [H'|[<-|[]]]; tauto.
    + assert (~ In x seen) as Hnin by (now apply Hdom).
      destruct (in_dec String.string_dec x seen); [tauto|]. cbn [fst snd].
      split; [|split].
      * rewrite length_app. simpl. lia.
      * intros i l Hi.
        destruct (decide (i < List.length (first_seen_order seen))%nat)
          as [Hlt|Hge].
        -- rewrite lookup_app_l in Hi by exact Hlt.
           assert (l <> x) as Hne.
           { intros ->. apply Hnin, first_seen_order_In.
             eapply list_elem_of_In, list_elem_of_lookup_2, Hi. }
           rewrite lookup_insert_ne by congruence. now apply Hlook.
        -- rewrite lookup_app_r in Hi by lia.
           destruct (i - List.length (first_seen_order seen))%nat eqn:E;
             [|destruct n0; discriminate Hi].
           injection Hi as <-. rewrite lookup_insert_eq.
           do 2 f_equal. lia.
      * intros l. rewrite in_app_iff. simpl.
        destruct (decide (l = x)) as [->|Hne].
        -- rewrite lookup_insert_eq. split; [discriminate | tauto].
        -- rewrite lookup_insert_ne by congruence. rewrite Hdom.
           split; [|tauto]. intros H [H'|[E|[]]]; [tauto | congruence].
Qed.

(** C9. The speaker map depends on the raw labels only through the
    order in which the distinct ones first occur, window after window:
    the label at position [i] (from 0) of that order is mapped to
    [Speaker (i + 1)], and no other key is mapped. *)
Theorem speakerMap_first_seen_order (chunks : list (list TranscriptEntry)) :
  (forall (i : nat) label,
     first_seen_order (raw_labels chunks) !! i = Some label ->
     speakerMap_of chunks !! label
     = Some ("Speaker " ++ Z_toString (Z.of_nat i + 1))%string) /\
  (forall label,
     ~ In label (raw_labels chunks) -> speakerMap_of chunks !! label = None).
Proof.
  unfold speakerMap_of. rewrite normalizeSpeakers_labels.
  destruct (note_speaker_invariant (raw_labels chunks)) as (_ & Hlook & Hdom).
  split; [exact Hlook|]. intros label H. now apply Hdom.
Qed.

Lemma speakerMap_first_seen_order_witness :
  first_seen_order ["Alice"; "Bob"; "Alice"]%string = ["Alice"; "Bob"]%string /\
  speakerMap_of [[mkEntry "00:01" "Alice" "a"; mkEntry "00:02" "Bob" "b"];
                 [mkEntry "00:03" "Alice" "c"]] !! "Bob"%string
  = Some "Speaker 2"%string /\
  speakerMap_of [[mkEntry "00:01" "Alice" "a"; mkEntry "00:02" "Bob" "b"];
                 [mkEntry "00:03" "Alice" "c"]] !! "Alice"%string
  = Some "Speaker 1"%string /\
  speakerMap_of [[mkEntry "00:01" "Alice" "a"; mkEntry "00:02" "Bob" "b"];
                 [mkEntry "00:03" "Alice" "c"]] !! "Carol"%string
  = None.
Proof.
  split; [reflexivity|].
  destruct (speakerMap_first_seen_order
              [[mkEntry "00:01" "Alice" "a"; mkEntry "00:02" "Bob" "b"];
               [mkEntry "00:03" "Alice" "c"]]) as [Hmap Hnone].
  split; [|split].
  - apply (Hmap 1%nat). reflexivity.
  - apply (Hmap 0%nat). reflexivity.
  - apply Hnone. simpl. intros [H|[H|[H|[]]]]; discriminate H.
Defined.

End Speakers.

(** ** Transcript merger *)

Section Merger.

Local Open Scope Q_scope.

Variable speakerMap : gmap string string.

Lemma isDuplicate_app merged more entry a :
  isDuplicate speakerMap merged entry a = true ->
  isDuplicate speakerMap (merged ++ more) entry a = true.
Proof.
  unfold isDuplicate. rewrite existsb_app. intros ->. reflexivity.
Qed.

Lemma merge_entry_extends s merged entry :
  exists more, merge_entry speakerMap s merged entry = merged ++ more.
Proof.
  unfold merge_entry. cbv zeta.
  destruct (isDuplicate _ _ _ _); [exists [] | eexists]; [|reflexivity].
  now rewrite app_nil_r.
Qed.

Lemma merge_chunk_extends s chunk merged :
  exists more,
    fold_left (merge_entry speakerMap s) chunk merged = merged ++ more.
Proof.
  revert merged. induction chunk as [|e chunk IH]; intros merged; simpl.
  - exists []. now rewrite app_nil_r.
  - destruct (merge_entry_extends s merged e) as [m1 ->].
    destruct (IH (merged ++ m1)) as [m2 ->].
    exists (m1 ++ m2). now rewrite app_assoc.
Qed.

Lemma merge_chunks_extends starts i chunks merged :
  exists more,
    merge_chunks speakerMap starts i chunks merged = merged ++ more.
Proof.
  revert i merged. induction chunks as [|chunk chunks IH];
    intros i merged; simpl.
  - exists []. now rewrite app_nil_r.
  - destruct (merge_chunk_extends
                match starts !! i with Some s => Num s | None => NaN end
                chunk merged) as [m1 ->].
    destruct (IH (S i) (merged ++ m1)) as [m2 ->].
    exists (m1 ++ m2). now rewrite app_assoc.
Qed.

(** Once an entry has gone through the inner loop, the merged list
    holds a duplicate of it: itself, or the one it was dropped for. *)
Lemma merge_entry_absorbs s merged entry :
  labelled speakerMap entry -> readable_at s entry ->
  isDuplicate speakerMap (merge_entry speakerMap (Num s) merged entry) entry
    (add (parseTimeToSeconds (timestamp entry)) (Num s)) = true.
Proof.
  intros (c & Hc & Hne) (p & Hp & Hpos). unfold merge_entry. cbv zeta.
  destruct (isDuplicate speakerMap merged entry _) eqn:E; [exact E|].
  unfold isDuplicate. rewrite existsb_app. apply orb_true_iff. right.
  cbn [existsb with_timestamp_speaker timestamp speaker text].
  rewrite Hp. cbn [add lift2].
  destruct (parse_formatTime_nonneg (p + s) Hpos) as (t & -> & Ht).
  unfold speaker_matches, canonical_speaker. rewrite Hc.
  apply String.eqb_neq in Hne. rewrite Hne, !String.eqb_refl.
  rewrite orb_false_r, !andb_true_r. cbn [sub lift2 JS.abs JS.lt].
  apply Qltb_lt, Qabs_Qlt_condition.
  pose proof (Qfloor_le (p + s)). pose proof (Qlt_floor (p + s)) as H2.
  rewrite inject_Z_plus in H2. change (inject_Z 1) with 1 in H2. lra.
Qed.

Lemma merge_entry_dropped s merged entry :
  isDuplicate speakerMap merged entry
    (add (parseTimeToSeconds (timestamp entry)) s) = true ->
  merge_entry speakerMap s merged entry = merged.
Proof. unfold merge_entry. cbv zeta. now intros ->. Qed.

(** The same, for a whole window and for all the windows. *)
Lemma merge_chunk_absorbs s chunk merged :
  Forall (labelled speakerMap) chunk -> Forall (readable_at s) chunk ->
  Forall (fun entry =>
    isDuplicate speakerMap
      (fold_left (merge_entry speakerMap (Num s)) chunk merged) entry
      (add (parseTimeToSeconds (timestamp entry)) (Num s)) = true) chunk.
Proof.
  intros HL HR. revert merged.
  induction chunk as [|e chunk IH]; intros merged; [constructor|].
  inversion HL as [|? ? HLe HLc]; inversion HR as [|? ? HRe HRc]; subst.
  simpl. constructor; [|now apply IH].
  destruct (merge_chunk_extends (Num s) chunk
              (merge_entry speakerMap (Num s) merged e)) as [more ->].
  now apply isDuplicate_app, merge_entry_absorbs.
Qed.

Lemma merge_chunk_dropped s chunk merged :
  Forall (fun entry =>
    isDuplicate speakerMap merged entry
      (add (parseTimeToSeconds (timestamp entry)) s) = true) chunk ->
  fold_left (merge_entry speakerMap s) chunk merged = merged.
Proof.
  induction 1 as [|e chunk He _ IH]; simpl; [reflexivity|].
  now rewrite merge_entry_dropped.
Qed.

(** The outer loop, with the start offsets of its windows somewhere in
    the array: [pre] before them and [post] after. *)
Lemma merge_chunks_cons pre s ss post chunk chunks merged :
  merge_chunks speakerMap (pre ++ (s :: ss) ++ post) (List.length pre)
    (chunk :: chunks) merged
  = merge_chunks speakerMap ((pre ++ [s]) ++ ss ++ post)
      (List.length (pre ++ [s])) chunks
      (fold_left (merge_entry speakerMap (Num s)) chunk merged).
Proof.
  cbn [merge_chunks].
  rewrite <- app_assoc. cbn [app].
  rewrite list_lookup_middle by reflexivity.
  rewrite length_app. cbn [List.length].
  now replace (List.length pre + 1)%nat with (S (List.length pre)) by lia.
Qed.

Lemma merge_chunks_absorbs chunks ss :
  Forall2 (fun chunk s => Forall (labelled speakerMap) chunk /\ Forall (readable_at s) chunk)
    chunks ss ->
  forall pre post merged,
  Forall2 (fun chunk s => Forall (fun entry =>
    isDuplicate speakerMap
      (merge_chunks speakerMap (pre ++ ss ++ post) (List.length pre)
         chunks merged) entry
      (add (parseTimeToSeconds (timestamp entry)) (Num s)) = true) chunk)
    chunks ss.
Proof.
  induction 1 as [|chunk s chunks ss [HL HR] _ IH]; intros pre post merged;
    [constructor|].
  rewrite merge_chunks_cons. constructor; [|apply IH].
  destruct (merge_chunks_extends ((pre ++ [s]) ++ ss ++ post)
              (List.length (pre ++ [s])) chunks
              (fold_left (merge_entry speakerMap (Num s)) chunk merged))
    as [more ->].
  eapply Forall_impl; [apply (merge_chunk_absorbs s chunk merged HL HR)|].
  intros e He. now apply isDuplicate_app.
Qed.

Lemma merge_chunks_dropped chunks ss merged :
  Forall2 (fun chunk s => Forall (fun entry =>
    isDuplicate speakerMap merged entry
      (add (parseTimeToSeconds (timestamp entry)) (Num s)) = true) chunk)
    chunks ss ->
  forall pre post,
  merge_chunks speakerMap (pre ++ ss ++ post) (List.length pre) chunks merged
  = merged.
Proof.
  induction 1 as [|chunk s chunks ss Hc _ IH]; intros pre post;
    [reflexivity|].
  rewrite merge_chunks_cons, merge_chunk_dropped by exact Hc. apply IH.
Qed.

Lemma merge_chunks_post {P : list TranscriptEntry -> Q -> Prop} chunks ss :
  Forall2 P chunks ss ->
  forall pre post post' merged,
  merge_chunks speakerMap (pre ++ ss ++ post) (List.length pre) chunks merged
  = merge_chunks speakerMap (pre ++ ss ++ post') (List.length pre) chunks
      merged.
Proof.
  induction 1 as [|chunk s chunks ss _ _ IH]; intros pre post post' merged;
    [reflexivity|].
  rewrite !merge_chunks_cons. apply IH.
Qed.

Lemma merge_chunks_app starts i chunks chunks' merged :
  merge_chunks speakerMap starts i (chunks ++ chunks') merged
  = merge_chunks speakerMap starts (i + List.length chunks) chunks'
      (merge_chunks speakerMap starts i chunks merged).
Proof.
  revert i merged. induction chunks as [|chunk chunks IH];
    intros i merged; simpl.
  - now rewrite Nat.add_0_r.
  - rewrite IH. f_equal. lia.
Qed.

(** Every merged entry carries a timestamp written by [formatTime] for
    a number, so it reads as a number again. *)
Lemma merge_chunks_readable chunks ss :
  Forall2 (fun chunk (s : Q) => Forall readable chunk) chunks ss ->
  forall pre post merged,
  Forall readable merged ->
  Forall readable
    (merge_chunks speakerMap (pre ++ ss ++ post) (List.length pre) chunks
       merged).
Proof.
  induction 1 as [|chunk s chunks ss Hc _ IH]; intros pre post merged Hm;
    [exact Hm|].
  rewrite merge_chunks_cons. apply IH. clear IH.
  revert merged Hm. induction Hc as [|e chunk [p Hp] _ IHc];
    intros merged Hm; [exact Hm|].
  simpl. apply IHc. unfold merge_entry. cbv zeta.
  destruct (isDuplicate _ _ _ _); [exact Hm|].
  apply Forall_app. split; [exact Hm|]. constructor; [|constructor].
  unfold readable. cbn [with_timestamp_speaker timestamp].
  rewrite Hp. cbn [add lift2]. rewrite parse_formatTime. eauto.
Qed.

End Merger.

Section MergerClaims.

Local Open Scope Q_scope.

Lemma speakerMap_labelled chunks entry :
  In entry (List.concat chunks) -> labelled (speakerMap_of chunks) entry.
Proof.
  intros Hin. unfold labelled, speakerMap_of.
  rewrite normalizeSpeakers_labels.
  destruct (note_speaker_invariant (raw_labels chunks)) as (_ & Hlook & _).
  assert (In (speaker entry) (first_seen_order (raw_labels chunks))) as Hl
    by (apply first_seen_order_In, in_map, Hin).
  apply list_elem_of_In, list_elem_of_lookup in Hl as [i Hi].
  eexists. split; [apply (Hlook i), Hi | discriminate].
Qed.

Lemma note_speaker_known labels st :
  (forall l, In l labels -> fst st !! l <> None) ->
  fold_left (fun st l => note_speaker st (mkEntry "" l "")) labels st = st.
Proof.
  induction labels as [|l labels IH]; intros H; simpl; [reflexivity|].
  assert (note_speaker st (mkEntry "" l "") = st) as ->.
  { destruct st as [m idx]. unfold note_speaker. cbn [speaker].
    specialize (H l (or_introl eq_refl)). cbn [fst] in H.
    destruct (m !! l); [reflexivity | congruence]. }
  apply IH. intros l' Hl'. apply H. now right.
Qed.

Lemma speakerMap_of_twice chunks :
  speakerMap_of (chunks ++ chunks) = speakerMap_of chunks.
Proof.
  unfold speakerMap_of. rewrite !normalizeSpeakers_labels. f_equal.
  unfold raw_labels. rewrite List.concat_app, List.map_app, fold_left_app.
  apply note_speaker_known. intros l Hl.
  destruct (note_speaker_invariant (List.map speaker (List.concat chunks)))
    as (_ & _ & Hdom).
  rewrite Hdom. tauto.
Qed.

Lemma Forall2_labelled {P : TranscriptEntry -> Q -> Prop} chunks ss :
  Forall2 (fun chunk s => Forall (fun e => P e s) chunk) chunks ss ->
  forall m, (forall e, In e (List.concat chunks) -> labelled m e) ->
  Forall2 (fun chunk s => Forall (labelled m) chunk /\
                          Forall (fun e => P e s) chunk) chunks ss.
Proof.
  induction 1 as [|chunk s chunks ss Hc _ IH]; intros m Hm; constructor.
  - split; [|exact Hc]. apply List.Forall_forall. intros e He.
    apply Hm. simpl. apply in_app_iff. now left.
  - apply IH. intros e He. apply Hm. simpl. apply in_app_iff. now right.
Qed.

(** C2, as the code has it.  When the start offsets run parallel to the
    windows and every entry's timestamp reads as a number that, shifted
    by the start of its window, is not negative, merging the input
    followed by itself adds nothing: every entry of the second copy is
    dropped as a duplicate, and the result is that of merging once. *)
Theorem mergeTranscripts_idempotent
    (chunks : list (list TranscriptEntry)) (chunkStartTimes : list Q) :
  Forall2 (fun chunk s => Forall (readable_at s) chunk)
    chunks chunkStartTimes ->
  merged_entries (chunks ++ chunks) (chunkStartTimes ++ chunkStartTimes)
  = merged_entries chunks chunkStartTimes /\
  mergeTranscripts (chunks ++ chunks) (chunkStartTimes ++ chunkStartTimes)
  = mergeTranscripts chunks chunkStartTimes.
Proof.
  intros H.
  enough (merged_entries (chunks ++ chunks) (chunkStartTimes ++ chunkStartTimes)
          = merged_entries chunks chunkStartTimes) as E
    by (split; [exact E | unfold mergeTranscripts; now rewrite E]).
  unfold merged_entries. rewrite speakerMap_of_twice.
  set (m := speakerMap_of chunks).
  pose proof (Forall2_labelled (P := fun e s => readable_at s e) chunks
                chunkStartTimes H m (speakerMap_labelled chunks)) as HL.
  rewrite merge_chunks_app. simpl Nat.add.
  rewrite (Forall2_length _ _ _ H).
  assert (merge_chunks m (chunkStartTimes ++ chunkStartTimes) 0 chunks []
          = merge_chunks m chunkStartTimes 0 chunks []) as ->.
  { pose proof (merge_chunks_post m chunks chunkStartTimes H []
                  chunkStartTimes [] []) as E.
    cbn [app List.length] in E. now rewrite app_nil_r in E. }
  pose proof (merge_chunks_absorbs m chunks chunkStartTimes HL [] [] []) as Ha.
  cbn [app List.length] in Ha. rewrite app_nil_r in Ha.
  pose proof (merge_chunks_dropped m chunks chunkStartTimes _ Ha
                chunkStartTimes []) as Hd.
  rewrite app_nil_r in Hd. exact Hd.
Qed.

Lemma mergeTranscripts_idempotent_witness :
  mergeTranscripts (overlap_chunks ++ overlap_chunks) ([0; 57] ++ [0; 57])
  = mergeTranscripts overlap_chunks [0; 57] /\
  mergeTranscripts overlap_chunks [0; 57]
  = [mkEntry "00:30" "Speaker 1" "later";
     mkEntry "00:57" "Speaker 1" "again";
     mkEntry "01:00" "Speaker 2" "hello"].
Proof.
  split; [|vm_compute; reflexivity].
  apply (mergeTranscripts_idempotent overlap_chunks [0; 57]).
  repeat constructor;
    (eexists; split; [vm_compute; reflexivity | vm_compute; discriminate]).
Defined.

(** C2, as the specification has it, fails on an entry whose timestamp
    does not read as a number, such as the [NaN:NaN] that [processChunk]
    writes for a backend timestamp it cannot read: no comparison with
    [NaN] holds, the entry is never taken for a duplicate, and the
    second copy is merged as well.  It also fails below zero, where
    [formatTime] writes a minus sign in both fields and the text reads
    back a minute away from the time it was written for. *)
Lemma mergeTranscripts_not_idempotent :
  (mergeTranscripts unreadable_chunks [60]
   = [mkEntry "NaN:NaN" "Speaker 1" "hello"] /\
   mergeTranscripts (unreadable_chunks ++ unreadable_chunks) ([60] ++ [60])
   = [mkEntry "NaN:NaN" "Speaker 1" "hello";
      mkEntry "NaN:NaN" "Speaker 1" "hello"] /\
   mergeTranscripts (unreadable_chunks ++ unreadable_chunks) ([60] ++ [60])
   <> mergeTranscripts unreadable_chunks [60]) /\
  (mergeTranscripts [[mkEntry "00:00" "Bob" "hello"]] [-30]
   = [mkEntry "-1:-30" "Speaker 1" "hello"] /\
   mergeTranscripts
     ([[mkEntry "00:00" "Bob" "hello"]] ++ [[mkEntry "00:00" "Bob" "hello"]])
     ([-30] ++ [-30])
   = [mkEntry "-1:-30" "Speaker 1" "hello";
      mkEntry "-1:-30" "Speaker 1" "hello"]).
Proof.
  split; [split; [|split]|split]; try (vm_compute; reflexivity).
  vm_compute. discriminate.
Qed.

End MergerClaims.

(** ** Sorting *)

Section Sort.

Local Open Scope Q_scope.

Context {A : Type}.

Lemma sort_insert_perm (cmp : A -> A -> number) x l :
  Permutation (x :: l) (sort_insert cmp x l).
Proof.
  induction l as [|y l IH]; cbn [sort_insert]; [reflexivity|].
  destruct (gt (cmp x y) (Num 0)); [|reflexivity].
  rewrite perm_swap. now apply perm_skip.
Qed.

Lemma sort_perm (cmp : A -> A -> number) l : Permutation l (sort cmp l).
Proof.
  induction l as [|x l IH]; simpl; [reflexivity|].
  rewrite <- sort_insert_perm. now apply perm_skip.
Qed.

Variable key : A -> number.

Let cmp (a b : A) : number := sub (key a) (key b).
Let le (a b : A) : Prop := num_le (key a) (key b).
Let is_num (a : A) : Prop := exists q, key a = Num q.
Let keyed (t : Q) (a : A) : bool :=
  match key a with
  | Num v => Qeq_bool v t
  | NaN => false
  end.

Lemma cmp_gt x y qx qy :
  key x = Num qx -> key y = Num qy ->
  gt (cmp x y) (Num 0) = true <-> qy < qx.
Proof.
  intros Hx Hy. unfold cmp, gt. rewrite Hx, Hy. cbn [sub lift2 JS.lt].
  rewrite Qltb_lt. split; intros; lra.
Qed.

Lemma sort_insert_HdRel x y l :
  le y x -> HdRel le y l -> HdRel le y (sort_insert cmp x l).
Proof.
  intros Hyx Hl. destruct l as [|z l]; cbn [sort_insert]; [now constructor|].
  inversion Hl; subst.
  destruct (gt (cmp x z) (Num 0)); now constructor.
Qed.

Lemma sort_insert_sorted x l :
  is_num x -> Forall is_num l ->
  Sorted le l -> Sorted le (sort_insert cmp x l).
Proof.
  intros [qx Hx] Hnum Hs. induction l as [|y l IH]; cbn [sort_insert].
  - repeat constructor.
  - inversion Hnum as [|? ? [qy Hy] Hnum']; subst.
    inversion Hs as [|? ? Hs' Hhd]; subst.
    destruct (gt (cmp x y) (Num 0)) eqn:E.
    + apply (cmp_gt x y qx qy Hx Hy) in E.
      constructor; [now apply IH|].
      apply sort_insert_HdRel; [|exact Hhd].
      unfold le. rewrite Hx, Hy. cbn. lra.
    + constructor; [exact Hs|]. constructor.
      unfold le. rewrite Hx, Hy. cbn.
      apply Qnot_lt_le. intros Hlt.
      apply (cmp_gt x y qx qy Hx Hy) in Hlt. congruence.
Qed.

Lemma sort_sorted l : Forall is_num l -> Sorted le (sort cmp l).
Proof.
  induction 1 as [|x l Hx Hl IH]; simpl; [constructor|].
  apply sort_insert_sorted; [exact Hx | | exact IH].
  eapply Permutation_Forall; [apply sort_perm | exact Hl].
Qed.

(** Insertion moves an element past strictly earlier ones only, so the
    elements of one time stay in the order they had. *)
Lemma sort_insert_stable t x l :
  is_num x -> Forall is_num l ->
  List.filter (keyed t) (sort_insert cmp x l)
  = List.filter (keyed t) (x :: l).
Proof.
  intros [qx Hx] Hnum. induction Hnum as [|y l [qy Hy] _ IH];
    [reflexivity|].
  cbn [sort_insert]. destruct (gt (cmp x y) (Num 0)) eqn:E; [|reflexivity].
  apply (cmp_gt x y qx qy Hx Hy) in E.
  assert (keyed t x = Qeq_bool qx t) as Kx by (unfold keyed; now rewrite Hx).
  assert (keyed t y = Qeq_bool qy t) as Ky by (unfold keyed; now rewrite Hy).
  cbn [List.filter] in *. rewrite IH, Kx, Ky.
  destruct (Qeq_bool qy t) eqn:Ey; destruct (Qeq_bool qx t) eqn:Ex;
    try reflexivity.
  apply Qeq_bool_iff in Ey, Ex. lra.
Qed.

Lemma sort_stable t l :
  Forall is_num l ->
  List.filter (keyed t) (sort cmp l) = List.filter (keyed t) l.
Proof.
  induction 1 as [|x l Hx Hl IH]; [reflexivity|].
  cbn [sort fold_right]. fold (sort cmp l).
  rewrite sort_insert_stable;
    [|exact Hx | eapply Permutation_Forall; [apply sort_perm | exact Hl]].
  cbn [List.filter]. now rewrite IH.
Qed.

End Sort.

Section MergerOrder.

Local Open Scope Q_scope.

Lemma merged_entries_readable chunks chunkStartTimes :
  Forall2 (fun chunk (s : Q) => Forall readable chunk)
    chunks chunkStartTimes ->
  Forall readable (merged_entries chunks chunkStartTimes).
Proof.
  intros H. unfold merged_entries.
  pose proof (merge_chunks_readable (speakerMap_of chunks) chunks
                chunkStartTimes H [] [] [] (List.Forall_nil _)) as Hr.
  cbn [app List.length] in Hr. now rewrite app_nil_r in Hr.
Qed.

(** C8, as the code has it.  When the start offsets run parallel to the
    windows and every entry's timestamp reads as a number, the result
    of [mergeTranscripts] is the merged entries rearranged in ascending
    order of the timestamps read back from them, in whatever order the
    windows came; and the entries of one and the same time keep the
    order in which they were merged. *)
Theorem mergeTranscripts_sorted_stable
    (chunks : list (list TranscriptEntry)) (chunkStartTimes : list Q) :
  Forall2 (fun chunk (s : Q) => Forall readable chunk)
    chunks chunkStartTimes ->
  ascending (mergeTranscripts chunks chunkStartTimes) /\
  Permutation (merged_entries chunks chunkStartTimes)
    (mergeTranscripts chunks chunkStartTimes) /\
  forall t, at_time t (mergeTranscripts chunks chunkStartTimes)
            = at_time t (merged_entries chunks chunkStartTimes).
Proof.
  intros H. apply merged_entries_readable in H.
  unfold mergeTranscripts, ascending, at_time. split; [|split].
  - apply (sort_sorted time_of). exact H.
  - apply sort_perm.
  - intros t. apply (sort_stable time_of). exact H.
Qed.

Lemma mergeTranscripts_sorted_stable_witness :
  merged_entries shuffled_chunks [100; 0]
  = [mkEntry "01:45" "Speaker 1" "late";
     mkEntry "01:45" "Speaker 2" "tie one";
     mkEntry "01:45" "Speaker 1" "tie two";
     mkEntry "00:10" "Speaker 2" "early"] /\
  mergeTranscripts shuffled_chunks [100; 0]
  = [mkEntry "00:10" "Speaker 2" "early";
     mkEntry "01:45" "Speaker 1" "late";
     mkEntry "01:45" "Speaker 2" "tie one";
     mkEntry "01:45" "Speaker 1" "tie two"] /\
  ascending (mergeTranscripts shuffled_chunks [100; 0]).
Proof.
  split; [vm_compute; reflexivity|]. split; [vm_compute; reflexivity|].
  apply (mergeTranscripts_sorted_stable shuffled_chunks [100; 0]).
  repeat constructor; eexists; vm_compute; reflexivity.
Defined.

(** C8, as the specification has it, fails when a timestamp does not
    read as a number: the comparator gives [NaN] for every pair with
    that entry, which the sort takes for [+0], and the entry of 5
    seconds stays before the entry of 1 second. *)
Lemma mergeTranscripts_not_sorted :
  mergeTranscripts mixed_chunks [0]
  = [mkEntry "00:05" "Speaker 1" "first";
     mkEntry "NaN:NaN" "Speaker 1" "second";
     mkEntry "00:01" "Speaker 1" "third"] /\
  ~ ascending (mergeTranscripts mixed_chunks [0]).
Proof.
  assert (mergeTranscripts mixed_chunks [0]
          = [mkEntry "00:05" "Speaker 1" "first";
             mkEntry "NaN:NaN" "Speaker 1" "second";
             mkEntry "00:01" "Speaker 1" "third"]) as E
    by (vm_compute; reflexivity).
  split; [exact E|]. rewrite E. unfold ascending. intros Hs.
  inversion Hs as [|? ? _ Hhd]; subst.
  inversion Hhd as [|? ? Hle]; subst. exact Hle.
Qed.

(** However the three merged entries are arranged, they are not in
    ascending order: the failure does not hang on how the sort treats
    a comparator that is not consistent. *)
Lemma mixed_chunks_never_ascending (l : list TranscriptEntry) :
  Permutation (merged_entries mixed_chunks [0]) l -> ~ ascending l.
Proof.
  intros Hp Hs.
  assert (In (mkEntry "NaN:NaN" "Speaker 1" "second") l) as Hin.
  { eapply Permutation_in; [exact Hp|]. vm_compute. tauto. }
  assert (List.length l = 3%nat) as Hlen
    by (rewrite <- (Permutation_length Hp); reflexivity).
  unfold ascending in Hs.
  destruct l as [|a [|b [|c [|]]]]; try discriminate Hlen.
  inversion Hs as [|? ? Hs1 Hh1]; subst.
  inversion Hs1 as [|? ? Hs2 Hh2]; subst.
  inversion Hh1 as [|? ? Hab]; subst. inversion Hh2 as [|? ? Hbc]; subst.
  assert (time_of (mkEntry "NaN:NaN" "Speaker 1" "second") = NaN) as Hn
    by reflexivity.
  unfold num_le in Hab, Hbc.
  destruct Hin as [E|[E|[E|[]]]]; rewrite <- E, Hn in *.
  - exact Hab.
  - destruct (time_of a); exact Hab.
  - destruct (time_of b); exact Hbc.
Qed.

End MergerOrder.

(** ** Client reassembly *)

Section ClientClaims.

Local Open Scope Q_scope.

Import Client.

(** The client reads timestamps as the merger does. *)
Lemma getSecondsFromTimestamp_parse ts :
  getSecondsFromTimestamp ts = parseTimeToSeconds ts.
Proof. reflexivity. Qed.

Lemma is_new_spec st entry :
  is_new st entry = true <->
  gt (getSecondsFromTimestamp (timestamp entry)) (duration st) = false /\
  ~ exists existing, In existing (transcriptArray st) /\
      JS.lt (JS.abs (sub (getSecondsFromTimestamp (timestamp existing))
                         (getSecondsFromTimestamp (timestamp entry))))
            (Num 2) = true /\
      speaker existing = speaker entry /\
      text existing = text entry.
Proof.
  unfold is_new. cbv zeta.
  destruct (gt _ (duration st)); [split; [discriminate | intros [[=] _]]|].
  rewrite negb_true_iff, <- not_true_iff_false, existsb_exists.
  split.
  - intros H. split; [reflexivity|]. intros (x & Hx & H1 & H2 & H3).
    apply H. exists x. split; [exact Hx|].
    rewrite H1. apply String.eqb_eq in H2, H3. now rewrite H2, H3.
  - intros [_ H] (x & Hx & Hc). apply H. exists x. split; [exact Hx|].
    apply andb_prop in Hc as [Hc H3]. apply andb_prop in Hc as [H1 H2].
    apply String.eqb_eq in H2, H3. auto.
Qed.

(** C7, as the code has it.  Of a record's entries the client appends
    those whose time is not after the total duration and for which the
    display holds no entry of the same speaker and text within less
    than 2 seconds; the display is the old entries and the appended
    ones, rearranged by the sort; and the high-water mark moves to the
    timestamp of the last appended entry when that is later than the
    mark, and stays where it is otherwise. *)
Theorem client_appends_new_entries (st : state)
    (entries : list TranscriptEntry) :
  let st' := append_entries entries st in
  (forall entry, In entry (newEntries st entries) <->
     In entry entries /\
     gt (getSecondsFromTimestamp (timestamp entry)) (duration st) = false /\
     ~ exists existing, In existing (transcriptArray st) /\
         JS.lt (JS.abs (sub (getSecondsFromTimestamp (timestamp existing))
                            (getSecondsFromTimestamp (timestamp entry))))
               (Num 2) = true /\
         speaker existing = speaker entry /\
         text existing = text entry) /\
  Permutation (transcriptArray st ++ newEntries st entries)
    (transcriptArray st') /\
  (newEntries st entries = [] -> st' = st) /\
  (forall lastEntry, last (newEntries st entries) = Some lastEntry ->
     transcriptArray st'
     = sort by_timestamp (transcriptArray st ++ newEntries st entries) /\
     (gt (getSecondsFromTimestamp (timestamp lastEntry)) (processedDuration st)
      = true ->
      processedDuration st' = getSecondsFromTimestamp (timestamp lastEntry) /\
      lastProcessedTimestamp st' = timestamp lastEntry) /\
     (gt (getSecondsFromTimestamp (timestamp lastEntry)) (processedDuration st)
      = false ->
      processedDuration st' = processedDuration st /\
      lastProcessedTimestamp st' = lastProcessedTimestamp st)).
Proof.
  intros st'. split; [|split; [|split]].
  - intros entry. unfold newEntries. rewrite filter_In, is_new_spec. tauto.
  - unfold st', append_entries.
    destruct entries as [|e0 entries]; [now rewrite app_nil_r|].
    destruct (last (newEntries st (e0 :: entries))) as [lastEntry|] eqn:E.
    + unfold updateProcessedDuration. cbv zeta. cbn [processedDuration].
      destruct (gt _ (processedDuration st)); cbn [transcriptArray];
        apply sort_perm.
    + apply last_None in E. rewrite E. now rewrite app_nil_r.
  - intros E. unfold st', append_entries.
    destruct entries as [|e0 entries]; [reflexivity|]. now rewrite E.
  - intros lastEntry E. unfold st', append_entries.
    destruct entries as [|e0 entries]; [discriminate E|]. rewrite E.
    unfold updateProcessedDuration. cbv zeta. cbn [processedDuration].
    destruct (gt _ (processedDuration st)); cbn;
      (split; [reflexivity|]); split; intros; try discriminate;
      split; reflexivity.
Qed.

Lemma client_appends_new_entries_witness :
  newEntries displayed_state
    [mkEntry "00:11" "Speaker 1" "hello"; repeated_entry;
     mkEntry "00:05" "Speaker 2" "before"]
  = [repeated_entry; mkEntry "00:05" "Speaker 2" "before"] /\
  transcriptArray
    (append_entries
       [mkEntry "00:11" "Speaker 1" "hello"; repeated_entry;
        mkEntry "00:05" "Speaker 2" "before"] displayed_state)
  = [mkEntry "00:05" "Speaker 2" "before";
     mkEntry "00:10" "Speaker 1" "hello"; repeated_entry] /\
  processedDuration
    (append_entries
       [mkEntry "00:11" "Speaker 1" "hello"; repeated_entry;
        mkEntry "00:05" "Speaker 2" "before"] displayed_state)
  = Num 10.
Proof.
  split; [vm_compute; reflexivity|]. split; [vm_compute; reflexivity|].
  destruct (client_appends_new_entries displayed_state
              [mkEntry "00:11" "Speaker 1" "hello"; repeated_entry;
               mkEntry "00:05" "Speaker 2" "before"]) as (_ & _ & _ & H).
  destruct (H (mkEntry "00:05" "Speaker 2" "before") eq_refl)
    as (_ & _ & Hstay).
  apply Hstay. reflexivity.
Defined.

(** C7, as the specification has it, fails: the line on display at
    00:10 and the same line arriving at 00:13 are duplicates under the
    merger's rule of five seconds, yet the client appends the second,
    its threshold being two seconds. *)
Lemma client_keeps_merger_duplicate :
  merger_rule_duplicate (transcriptArray displayed_state) repeated_entry /\
  transcriptArray (append_entries [repeated_entry] displayed_state)
  = [mkEntry "00:10" "Speaker 1" "hello"; repeated_entry] /\
  In repeated_entry
    (transcriptArray (append_entries [repeated_entry] displayed_state)).
Proof.
  split; [|split].
  - exists (mkEntry "00:10" "Speaker 1" "hello").
    split; [left; reflexivity|]. repeat split.
  - vm_compute. reflexivity.
  - right. left. reflexivity.
Qed.

End ClientClaims.

(** * Further properties *)

(** ** Planning from a resume offset *)

Section Resume.

Local Open Scope Q_scope.

Lemma planned_In (duration : Q) (t0 : Z) (w : Window) :
  In w (planned_windows duration (Some t0)) <->
  exists i : nat,
    inject_Z (t0 + Z.of_nat i * CHUNK_DURATION) < duration /\
    w = window_at duration (t0 + Z.of_nat i * CHUNK_DURATION).
Proof.
  rewrite <- list_elem_of_In, list_elem_of_lookup. split.
  - intros [i Hi]. exists i. rewrite planned_lookup in Hi.
    destruct (Qltb _ duration) eqn:E; [|discriminate].
    apply Qltb_lt in E. injection Hi as <-. split; [exact E | reflexivity].
  - intros (i & Hlt & ->). exists i. rewrite planned_lookup.
    apply Qltb_lt in Hlt. now rewrite Hlt.
Qed.

(** X1. Every window planned from a resume offset that is not negative
    starts at or after 0, lasts more than nothing and at most 180
    seconds, and ends within the media. *)
Theorem planned_window_within (duration : Q) (t0 : Z) (w : Window) :
  (0 <= t0)%Z ->
  In w (planned_windows duration (Some t0)) ->
  0 <= chunkStartTime w /\
  0 < chunkDuration w /\
  chunkDuration w <= 180 /\
  chunkStartTime w + chunkDuration w <= duration.
Proof.
  intros Ht0 (i & Hlt & ->)%planned_In.
  set (t := (t0 + Z.of_nat i * CHUNK_DURATION)%Z) in *.
  destruct (chunkStartTime_bounds duration t) as (Hs0 & Hs1 & Hs2);
    [unfold t, CHUNK_DURATION; lia|].
  cbv zeta in Hs1, Hs2.
  pose proof (window_end duration t) as He. cbv zeta in He.
  set (w := window_at duration t) in *.
  assert (chunkDuration w = Qmin 180 (duration - chunkStartTime w)) as Hd
    by reflexivity.
  split; [exact Hs0|]. split; [|split].
  - rewrite Hd. apply Q.min_glb_lt; lra.
  - rewrite Hd. apply Q.le_min_l.
  - rewrite He. apply Q.le_min_r.
Qed.

Lemma planned_window_within_witness :
  In (mkWindow 180 120) (planned_windows 300 (Some 120%Z)) /\
  180 + 120 <= 300.
Proof.
  assert (In (mkWindow 180 120) (planned_windows 300 (Some 120%Z))) as Hin
    by (vm_compute; tauto).
  split; [exact Hin|].
  apply (planned_window_within 300 120 (mkWindow 180 120)); [lia | exact Hin].
Defined.

Lemma lt_ceiling (k : Z) (y : Q) : (k < Qceiling y)%Z <-> inject_Z k < y.
Proof.
  pose proof (Qle_ceiling y) as H1. pose proof (Qceiling_lt y) as H2.
  split; intros H.
  - assert (inject_Z k <= inject_Z (Qceiling y - 1)) as H3
      by (apply inject_Z_le; lia).
    lra.
  - rewrite Zlt_Qlt. lra.
Qed.

(** X2. The loop takes as many turns as there are steps of 120 seconds
    from the resume offset to the end of the media, a started step
    counting as one; none when the offset is at or past the end. *)
Theorem planned_windows_count (duration : Q) (t0 : Z) :
  List.length (planned_windows duration (Some t0))
  = Z.to_nat (Qceiling ((duration - inject_Z t0) / 120)).
Proof.
  set (n := Z.to_nat (Qceiling ((duration - inject_Z t0) / 120))).
  assert (forall i : nat,
            (i < List.length (planned_windows duration (Some t0)))%nat
            <-> (i < n)%nat) as H.
  { intros i. rewrite <- lookup_lt_is_Some, planned_lookup.
    assert (inject_Z (t0 + Z.of_nat i * CHUNK_DURATION) < duration
            <-> (i < n)%nat) as Hi.
    { unfold n, CHUNK_DURATION.
      rewrite inject_Z_plus, inject_Z_mult. change (inject_Z 120) with 120.
      assert ((i < Z.to_nat (Qceiling ((duration - inject_Z t0) / 120)))%nat
              <-> (Z.of_nat i < Qceiling ((duration - inject_Z t0) / 120))%Z)
        as -> by lia.
      rewrite lt_ceiling.
      assert (duration - inject_Z t0
              == (duration - inject_Z t0) / 120 * 120) as Hy by field.
      split; intros; lra. }
    destruct (Qltb _ duration) eqn:E.
    - apply Qltb_lt in E. split; [intros _; now apply Hi | eauto].
    - apply Qltb_ge in E. split; [intros [? [=]]|].
      intros Hn. apply Hi in Hn. lra. }
  destruct (H n) as [H1 _]. destruct (H (List.length (planned_windows duration (Some t0)))) as [_ H2].
  lia.
Qed.

Lemma planned_windows_count_witness :
  List.length (planned_windows (601 # 2) (Some 180%Z)) = 2%nat.
Proof. rewrite planned_windows_count. reflexivity. Defined.

End Resume.

Section ResumeCoverage.

Local Open Scope Q_scope.

Lemma planned_last (duration : Q) (t0 : Z) :
  inject_Z t0 < duration ->
  exists i : nat,
    last (planned_windows duration (Some t0))
    = Some (window_at duration (t0 + Z.of_nat i * CHUNK_DURATION)) /\
    inject_Z (t0 + Z.of_nat i * CHUNK_DURATION) < duration /\
    duration <= inject_Z (t0 + Z.of_nat i * CHUNK_DURATION) + 120.
Proof.
  intros Hlt. set (ws := planned_windows duration (Some t0)).
  assert (ws !! 0%nat = Some (window_at duration t0)) as H0.
  { unfold ws. rewrite planned_lookup.
    replace (t0 + Z.of_nat 0 * CHUNK_DURATION)%Z with t0 by lia.
    apply Qltb_lt in Hlt. now rewrite Hlt. }
  assert (0 < List.length ws)%nat as Hlen
    by (apply lookup_lt_is_Some; eauto).
  assert (ws !! List.length ws = None) as Hend
    by (apply lookup_ge_None; lia).
  rewrite last_lookup.
  destruct (List.length ws) as [|n] eqn:El; [lia|]. cbn [Nat.pred].
  assert (is_Some (ws !! n)) as [w Hw] by (apply lookup_lt_is_Some; lia).
  unfold ws in Hw, Hend |- *. rewrite planned_lookup in Hw, Hend.
  destruct (Qltb (inject_Z (t0 + Z.of_nat n * CHUNK_DURATION)) duration)
    eqn:E1; [|discriminate Hw].
  destruct (Qltb (inject_Z (t0 + Z.of_nat (S n) * CHUNK_DURATION)) duration)
    eqn:E2; [discriminate Hend|].
  exists n. rewrite planned_lookup, E1.
  apply Qltb_lt in E1. apply Qltb_ge in E2.
  split; [reflexivity|]. split; [exact E1|].
  replace (t0 + Z.of_nat (S n) * CHUNK_DURATION)%Z
    with (t0 + Z.of_nat n * CHUNK_DURATION + 120)%Z in E2
    by (unfold CHUNK_DURATION; lia).
  rewrite inject_Z_plus in E2. exact E2.
Qed.

(** X3. Resuming from an offset [t0] that is not negative and lies
    before the end of the media, the first window starts a minute
    before the offset (at 0 if that would be negative), the last window
    ends at the end of the media, and every point from the start of the
    first window to the end of the media lies in a window: a retry from
    the start of a failed window covers that window again. *)
Theorem resumed_windows_cover (duration : Q) (t0 : Z) :
  (0 <= t0)%Z -> inject_Z t0 < duration ->
  let ws := planned_windows duration (Some t0) in
  (exists w, head ws = Some w /\
     chunkStartTime w = inject_Z (Z.max 0 (t0 - 60))) /\
  (exists w, last ws = Some w /\
     chunkStartTime w + chunkDuration w == duration) /\
  (forall x, inject_Z (Z.max 0 (t0 - 60)) <= x -> x < duration ->
     exists w, In w ws /\ covers w x).
Proof.
  intros Ht0 Hlt ws. split; [|split].
  - exists (window_at duration t0). split; [|reflexivity].
    unfold ws. rewrite planned_windows_times, loop_times_step.
    apply Qltb_lt in Hlt. now rewrite Hlt.
  - destruct (planned_last duration t0 Hlt) as (i & Hlast & Hlo & Hhi).
    eexists. split; [exact Hlast|].
    set (t := (t0 + Z.of_nat i * CHUNK_DURATION)%Z) in *.
    destruct (chunkStartTime_bounds duration t) as (Hs0 & Hs1 & Hs2);
      [unfold t, CHUNK_DURATION; lia|].
    cbv zeta in Hs2. rewrite window_end, Q.min_r; [reflexivity | lra].
  - intros x Hx0 HxD.
    assert (exists i : nat,
              inject_Z (t0 + Z.of_nat i * CHUNK_DURATION) < duration /\
              (inject_Z (t0 + Z.of_nat i * CHUNK_DURATION) <= x \/ i = 0%nat) /\
              x < inject_Z (t0 + Z.of_nat i * CHUNK_DURATION) + 120)
      as (i & Hi & Hlo & Hhi).
    { destruct (Qlt_le_dec x (inject_Z t0)) as [Hbefore|Hafter].
      - exists 0%nat. replace (t0 + Z.of_nat 0 * CHUNK_DURATION)%Z with t0 by lia.
        split; [exact Hlt|]. split; [now right | lra].
      - set (y := (x - inject_Z t0) / 120).
        assert (x - inject_Z t0 == y * 120) as Hy by (unfold y; field).
        pose proof (Qfloor_le y) as Hf1. pose proof (Qlt_floor y) as Hf2.
        rewrite inject_Z_plus in Hf2. change (inject_Z 1) with 1 in Hf2.
        assert (0 <= Qfloor y)%Z as Hk by (apply Qfloor_nonneg; lra).
        exists (Z.to_nat (Qfloor y)). rewrite Z2Nat.id by exact Hk.
        unfold CHUNK_DURATION. rewrite inject_Z_plus, inject_Z_mult.
        change (inject_Z 120) with 120.
        split; [lra|]. split; [left; lra | lra]. }
    set (t := (t0 + Z.of_nat i * CHUNK_DURATION)%Z) in *.
    exists (window_at duration t). split.
    + apply planned_In. exists i. split; [exact Hi | reflexivity].
    + destruct (chunkStartTime_bounds duration t) as (Hs0 & Hs1 & Hs2);
        [unfold t, CHUNK_DURATION; lia|].
      cbv zeta in Hs1, Hs2. unfold covers. rewrite window_end. split.
      * destruct Hlo as [Hlo| ->]; [lra|]. unfold t.
        replace (t0 + Z.of_nat 0 * CHUNK_DURATION)%Z with t0 by lia.
        exact Hx0.
      * apply Q.min_glb_lt; lra.
Qed.

Lemma resumed_windows_cover_witness :
  planned_windows 500 (Some 180%Z)
  = [mkWindow 120 180; mkWindow 240 180; mkWindow 360 140] /\
  exists w, In w (planned_windows 500 (Some 180%Z)) /\ covers w 130.
Proof.
  split; [vm_compute; reflexivity|].
  destruct (resumed_windows_cover 500 180) as (_ & _ & H);
    [lia | reflexivity|].
  apply H; [unfold Qle; simpl; lia | reflexivity].
Defined.

(** X4. From a resume offset that is not negative, each window starts
    after the one before it and at least 60 seconds before that one
    ends: consecutive windows overlap by the overlap length or more. *)
Theorem planned_windows_overlap (duration : Q) (t0 : Z) (i : nat)
    (w w' : Window) :
  (0 <= t0)%Z ->
  planned_windows duration (Some t0) !! i = Some w ->
  planned_windows duration (Some t0) !! S i = Some w' ->
  chunkStartTime w < chunkStartTime w' /\
  chunkStartTime w' + inject_Z CHUNK_OVERLAP
  <= chunkStartTime w + chunkDuration w.
Proof.
  intros Ht0 Hw Hw'. rewrite planned_lookup in Hw, Hw'.
  destruct (Qltb (inject_Z (t0 + Z.of_nat i * CHUNK_DURATION)) duration)
    eqn:E1; [|discriminate Hw].
  destruct (Qltb (inject_Z (t0 + Z.of_nat (S i) * CHUNK_DURATION)) duration)
    eqn:E2; [|discriminate Hw'].
  injection Hw as <-. injection Hw' as <-. apply Qltb_lt in E1, E2.
  set (t := (t0 + Z.of_nat i * CHUNK_DURATION)%Z) in *.
  replace (t0 + Z.of_nat (S i) * CHUNK_DURATION)%Z with (t + 120)%Z in *
    by (unfold t, CHUNK_DURATION; lia).
  assert (0 <= t)%Z as Ht by (unfold t, CHUNK_DURATION; lia).
  destruct (chunkStartTime_bounds duration t Ht) as (Hs0 & Hs1 & Hs2).
  cbv zeta in Hs1, Hs2. rewrite window_end.
  assert (chunkStartTime (window_at duration (t + 120)) == inject_Z t + 60)
    as Hnext.
  { cbn. unfold chunkStartTime_at, CHUNK_OVERLAP.
    replace (Z.max 0 (t + 120 - 60)) with (t + 60)%Z by lia.
    now rewrite inject_Z_plus. }
  rewrite inject_Z_plus in E2. change (inject_Z 120) with 120 in E2.
  rewrite Hnext. change (inject_Z CHUNK_OVERLAP) with 60.
  split; [lra|]. apply Q.min_glb; lra.
Qed.

Lemma planned_windows_overlap_witness :
  chunkStartTime (mkWindow 60 180) + inject_Z CHUNK_OVERLAP
  <= chunkStartTime (mkWindow 0 180) + chunkDuration (mkWindow 0 180).
Proof.
  apply (planned_windows_overlap 300 0 0 (mkWindow 0 180) (mkWindow 60 180));
    [lia | vm_compute; reflexivity..].
Defined.

End ResumeCoverage.

(** ** Failures between the processor and the orchestrator *)

Section Failures.

Local Open Scope Q_scope.

(** X5. What [processChunk] throws is a failure of the backend whose
    message mentions neither [SAFETY] nor [429]; so the orchestrator
    takes a thrown failure for a rate limit, and waits 15 seconds
    instead of 5, only when the message says [Too Many Requests]. *)
Theorem processChunk_throws_uncontained (body : attempt) (s d : Q)
    (message : option string) :
  processChunk body s d = Throw message ->
  body = Failed message /\
  ~ mentions "SAFETY" message /\
  ~ mentions "429" message /\
  (errorDelay message = 15000%Z <-> mentions "Too Many Requests" message) /\
  (errorDelay message = 5000%Z <-> ~ mentions "Too Many Requests" message).
Proof.
  unfold processChunk. destruct body as [parsed|m]; [discriminate|].
  pose proof (message_includes_spec "SAFETY" m) as HS.
  pose proof (message_includes_spec "429" m) as HR.
  destruct (message_includes "SAFETY" m) eqn:E1;
    destruct (message_includes "429" m) eqn:E2; cbn [orb];
    try discriminate.
  intros [= <-].
  pose proof (message_includes_spec "Too Many Requests" m) as HT.
  unfold errorDelay, isRateLimit. rewrite E2. cbn [orb].
  destruct (message_includes "Too Many Requests" m);
    intuition (try discriminate; try congruence).
Qed.

Lemma processChunk_throws_uncontained_witness :
  errorDelay (Some "Too Many Requests, slow down") = 15000%Z /\
  errorDelay (Some "Chunk processing failed") = 5000%Z.
Proof.
  split.
  - apply (processChunk_throws_uncontained
             (Failed (Some "Too Many Requests, slow down")) 0 180
             (Some "Too Many Requests, slow down") eq_refl).
    apply message_includes_spec. reflexivity.
  - apply (processChunk_throws_uncontained
             (Failed (Some "Chunk processing failed")) 0 180
             (Some "Chunk processing failed") eq_refl).
    rewrite <- message_includes_spec. discriminate.
Defined.

(** X6. A failure of the backend whose message mentions [SAFETY] or
    [429] costs the run one turn of the loop only: the record of the
    window has status [error], no [retryAfter], and the single System
    entry stamped with the start of the window; the loop waits 10
    seconds; and the placeholder is kept with the results, under the
    start of its window. *)
Theorem POST_turn_soft_failure (env : Z -> turn) (duration : Q) (time : Z)
    (st : run_state) (message : option string) :
  backend (env time) = Failed message ->
  mentions "SAFETY" message \/ mentions "429" message ->
  exists explanation r,
    let w := window_at duration time in
    let placeholder :=
      mkEntry (formatTime (Num (chunkStartTime w))) "System" explanation in
    POST_turn env duration time st
    = mkRun (chunks st ++ [[placeholder]])
            (chunkStartTimes st ++ [chunkStartTime w])
            (events st ++ [Enqueue r; Wait 10000%Z]) /\
    status r = error /\
    retryAfter r = None /\
    entries r = [placeholder] /\
    startTime r = chunkStartTime w /\
    (explanation = safety_text \/ explanation = rate_limit_text).
Proof.
  intros Hb Hm.
  assert (message_includes "SAFETY" message || message_includes "429" message
          = true) as Hc.
  { apply orb_true_iff. rewrite !message_includes_spec. exact Hm. }
  exists (if message_includes "SAFETY" message then safety_text
          else rate_limit_text).
  eexists. cbv zeta. unfold POST_turn. cbv zeta. rewrite Hb.
  unfold processChunk. rewrite Hc.
  split; [reflexivity|]. cbn.
  repeat split. destruct (message_includes "SAFETY" message); auto.
Qed.

Lemma POST_turn_soft_failure_witness :
  exists explanation r,
    POST_turn (fun _ => mkTurn (Failed (Some "got 429")) 1000) 300 120
      (mkRun [] [] [])
    = mkRun [[mkEntry "01:00" "System" explanation]] [60]
        [Enqueue r; Wait 10000%Z] /\
    status r = error.
Proof.
  destruct (POST_turn_soft_failure
              (fun _ => mkTurn (Failed (Some "got 429")) 1000) 300 120
              (mkRun [] [] []) (Some "got 429") eq_refl)
    as (explanation & r & H & Hs & _).
  - right. apply message_includes_spec. reflexivity.
  - exists explanation, r. split; [exact H | exact Hs].
Defined.

End Failures.

(** ** What a run leaves behind *)

Section RunResults.

Local Open Scope Q_scope.

Lemma loop_times_In (duration : Q) (t0 time : Z) :
  In time (loop_times duration (Some t0)) ->
  (t0 <= time)%Z /\ inject_Z time < duration.
Proof.
  rewrite <- list_elem_of_In, list_elem_of_lookup. intros [i Hi].
  rewrite loop_times_lookup in Hi.
  destruct (Qltb _ duration) eqn:E; [|discriminate].
  injection Hi as <-. apply Qltb_lt in E.
  split; [unfold CHUNK_DURATION; lia | exact E].
Qed.

Lemma window_at_within (duration : Q) (time : Z) :
  (0 <= time)%Z -> inject_Z time < duration ->
  let w := window_at duration time in
  0 <= chunkStartTime w /\ 0 < chunkDuration w /\
  chunkStartTime w + chunkDuration w <= duration.
Proof.
  intros Ht Hlt.
  destruct (chunkStartTime_bounds duration time Ht) as (Hs0 & Hs1 & Hs2).
  cbv zeta in *. pose proof (window_end duration time) as He.
  cbv zeta in He. split; [exact Hs0|]. split.
  - change (0 < Qmin 180
                 (duration - chunkStartTime (window_at duration time))).
    apply Q.min_glb_lt; lra.
  - rewrite He. apply Q.le_min_r.
Qed.

Lemma fold_left_invariant {S A : Type} (I : S -> Prop) (f : S -> A -> S)
    (l : list A) (st : S) :
  I st -> (forall st x, In x l -> I st -> I (f st x)) ->
  I (fold_left f l st).
Proof.
  revert st. induction l as [|x l IH]; intros st H0 Hstep; [exact H0|].
  simpl. apply IH.
  - apply Hstep; [now left | exact H0].
  - intros st' y Hy. apply Hstep. now right.
Qed.

(** X7. In a run resumed from an offset that is not negative, every
    record on the stream names a span within the media that starts at
    or after 0 and is not empty, carries the total duration and a retry
    count of 0, has status [error] exactly when its first entry is
    spoken by [System], and carries [retryAfter] only with status
    [error], exactly one entry, and a delay of 5 or 15 seconds. *)
Theorem POST_records_well_formed (env : Z -> turn) (duration : Q) (t0 : Z)
    (r : ProgressRecord) :
  (0 <= t0)%Z ->
  In r (enqueued (events (POST_stream env duration (Some t0)))) ->
  0 <= startTime r /\ startTime r < endTime r /\ endTime r <= duration /\
  totalDuration r = duration /\
  retryCount r = 0%Z /\
  (status r = error <->
   exists entry rest,
     entries r = entry :: rest /\ speaker entry = "System"%string) /\
  (forall delay, retryAfter r = Some delay ->
     status r = error /\ List.length (entries r) = 1%nat /\
     (delay = 5000%Z \/ delay = 15000%Z)).
Proof.
  intros Ht0. rewrite POST_stream_enqueued, in_map_iff.
  intros (time & <- & [Hge Hlt]%loop_times_In).
  destruct (window_at_within duration time) as (Hs & Hd & He);
    [lia | exact Hlt|]. cbv zeta in *.
  unfold record_of. cbv zeta.
  destruct (processChunk _ _ _) as [chunkTranscript|message];
    cbn [chunkData errorData startTime endTime totalDuration retryCount
         status entries retryAfter].
  - repeat (split; [first [assumption | reflexivity | lra]|]).
    split; [apply status_of_error | discriminate].
  - repeat (split; [first [assumption | reflexivity | lra]|]).
    split.
    + split; [eauto | reflexivity].
    + intros delay [= <-]. split; [reflexivity|]. split; [reflexivity|].
      unfold errorDelay. destruct (isRateLimit message); auto.
Qed.

Lemma POST_records_well_formed_witness :
  In (errorData (window_at 300 120) 300 (sample_env 120)
        (Some "Chunk processing failed"))
     (enqueued (events (POST_stream sample_env 300 (Some 0%Z)))) /\
  endTime (errorData (window_at 300 120) 300 (sample_env 120)
             (Some "Chunk processing failed")) <= 300.
Proof.
  assert (In (errorData (window_at 300 120) 300 (sample_env 120)
                (Some "Chunk processing failed"))
             (enqueued (events (POST_stream sample_env 300 (Some 0%Z)))))
    as Hin by (right; left; vm_compute; reflexivity).
  split; [exact Hin|].
  apply (POST_records_well_formed sample_env 300 0 _ ltac:(lia) Hin).
Defined.

(** X8. The transcripts a run keeps and the start offsets it keeps with
    them run parallel, one pair for each window whose processing
    returned.  When the backend's timestamps read as numbers that are
    not negative, every kept entry's timestamp reads as a number that
    is not negative either: the kept results are an input on which the
    merger drops what is merged twice and returns a sorted list. *)
Theorem POST_results_parallel (env : Z -> turn) (duration : Q) (t0 : Z) :
  (0 <= t0)%Z ->
  (forall time parsedTranscript entry,
     backend (env time) = Transcribed parsedTranscript ->
     In entry parsedTranscript ->
     exists p, parseTimeToSeconds (timestamp entry) = Num p /\ 0 <= p) ->
  let run := POST_stream env duration (Some t0) in
  Forall2 (fun chunk s => 0 <= s /\ Forall (readable_at s) chunk)
    (chunks run) (chunkStartTimes run) /\
  List.length (chunks run)
  = List.length (List.filter (fun r => match retryAfter r with
                                       | None => true
                                       | Some _ => false
                                       end) (enqueued (events run))).
Proof.
  intros Ht0 Hbackend run. unfold run, POST_stream. cbn [chunks chunkStartTimes events].
  rewrite enqueued_app. cbn [enqueued omap]. rewrite app_nil_r.
  rewrite for_each_window_times.
  apply (fold_left_invariant
    (fun st => Forall2 (fun chunk s => 0 <= s /\ Forall (readable_at s) chunk)
                 (chunks st) (chunkStartTimes st) /\
               List.length (chunks st)
               = List.length (List.filter
                   (fun r => match retryAfter r with
                             | None => true | Some _ => false end)
                   (enqueued (events st))))).
  - split; [constructor | reflexivity].
  - intros st time [Hge Hlt]%loop_times_In [HF Hlen].
    destruct (window_at_within duration time) as (Hs & Hd & He);
      [lia | exact Hlt|]. cbv zeta in *.
    unfold POST_turn. cbv zeta.
    destruct (processChunk _ _ _) as [chunkTranscript|message] eqn:Hp;
      cbn [chunks chunkStartTimes events].
    + split.
      * apply Forall2_app; [exact HF|]. constructor; [|constructor].
        split; [exact Hs|].
        set (s := chunkStartTime (window_at duration time)) in *.
        set (d := chunkDuration (window_at duration time)) in *.
        unfold processChunk in Hp.
        destruct (backend (env time)) as [parsed|m] eqn:Hb.
        -- injection Hp as <-. apply List.Forall_forall.
           intros e' (e & <- & He')%in_map_iff.
           destruct (Hbackend time parsed e Hb He') as (p & Hpe & Hp0).
           unfold readable_at, adjust_entry. cbv zeta.
           cbn [with_timestamp timestamp]. rewrite Hpe. cbn [add lift2 JS.min].
           assert (0 <= Qmin (p + s) (s + d)) as Ha
             by (apply Q.min_glb; lra).
           destruct (parse_formatTime_nonneg _ Ha) as (t & Ht & Hte).
           exists t. split; [exact Ht|].
           pose proof (inject_Z_le _ _ (Qfloor_nonneg _ Ha)) as Hf.
           change (inject_Z 0) with 0 in Hf. lra.
        -- destruct (message_includes "SAFETY" m || message_includes "429" m);
             [|discriminate].
           injection Hp as <-. constructor; [|constructor].
           unfold readable_at. cbn [timestamp].
           destruct (parse_formatTime_nonneg s Hs) as (t & Ht & Hte).
           exists t. split; [exact Ht|].
           pose proof (inject_Z_le _ _ (Qfloor_nonneg _ Hs)) as Hf.
           change (inject_Z 0) with 0 in Hf. lra.
      * rewrite enqueued_app, List.filter_app, !length_app, Hlen. reflexivity.
    + split; [exact HF|].
      rewrite enqueued_app, List.filter_app, length_app, Hlen.
      cbn. lia.
Qed.

Lemma POST_results_parallel_witness :
  Forall2 (fun chunk s => 0 <= s /\ Forall (readable_at s) chunk)
    (chunks (POST_stream sample_env 300 (Some 0%Z)))
    (chunkStartTimes (POST_stream sample_env 300 (Some 0%Z))) /\
  chunkStartTimes (POST_stream sample_env 300 (Some 0%Z)) = [0; 180].
Proof.
  split; [|vm_compute; reflexivity].
  apply (POST_results_parallel sample_env 300 0); [lia|].
  intros time parsed entry Hb Hin. unfold sample_env in Hb.
  destruct (time =? 120)%Z; [discriminate|].
  injection Hb as <-. destruct Hin as [<-|[]].
  exists 5. split; [reflexivity | unfold Qle; simpl; lia].
Defined.

End RunResults.

(** ** Reading and writing timestamps *)

Section Timestamps.

Local Open Scope Q_scope.

(** X9. A timestamp without a colon has no seconds field and reads as
    [NaN], whatever else it holds; and of a timestamp with more than
    two fields only the first two are read, so that [h:mm:ss] is taken
    for [h] minutes and [mm] seconds. *)
Theorem parseTimeToSeconds_fields (a b rest : string) :
  free_of ":" a = true -> free_of ":" b = true ->
  parseTimeToSeconds a = NaN /\
  parseTimeToSeconds (a ++ ":" ++ b ++ ":" ++ rest)
  = parseTimeToSeconds (a ++ ":" ++ b).
Proof.
  intros Ha Hb. unfold parseTimeToSeconds. split.
  - now rewrite split_free.
  - change (a ++ ":" ++ b ++ ":" ++ rest)%string
      with (a ++ String ":" (b ++ String ":" rest))%string.
    change (a ++ ":" ++ b)%string with (a ++ String ":" b)%string.
    rewrite !split_app by assumption.
    rewrite (split_free ":" b Hb).
    destruct (split ":" rest); reflexivity.
Qed.

Lemma parseTimeToSeconds_fields_witness :
  parseTimeToSeconds "1" = NaN /\
  parseTimeToSeconds "1:02:03" = parseTimeToSeconds "1:02".
Proof.
  apply (parseTimeToSeconds_fields "1" "02" "03"); reflexivity.
Defined.

(** X10. On numbers that are not negative [formatTime] tells apart
    exactly the whole seconds: two numbers get the same text when, and
    only when, they have the same floor; and the texts of a smaller and
    a larger number read back in that order, so that sorting by the
    written timestamps never contradicts the times they were written
    for. *)
Theorem formatTime_whole_seconds (x y : Q) :
  0 <= x -> 0 <= y ->
  (formatTime (Num x) = formatTime (Num y) <-> Qfloor x = Qfloor y) /\
  (x <= y ->
   exists tx ty,
     parseTimeToSeconds (formatTime (Num x)) = Num tx /\
     parseTimeToSeconds (formatTime (Num y)) = Num ty /\
     tx <= ty).
Proof.
  intros Hx Hy.
  destruct (parse_formatTime_nonneg x Hx) as (tx & Htx & Ex).
  destruct (parse_formatTime_nonneg y Hy) as (ty & Hty & Ey).
  split.
  - split.
    + intros E. rewrite E, Hty in Htx. injection Htx as <-.
      apply inject_Z_injective. now rewrite <- Ex, <- Ey.
    + intros E. rewrite !formatTime_nonneg by assumption. now rewrite E.
  - intros Hle. exists tx, ty. split; [exact Htx|]. split; [exact Hty|].
    rewrite Ex, Ey. apply inject_Z_le. now apply Qfloor_resp_le.
Qed.

Lemma formatTime_whole_seconds_witness :
  formatTime (Num (1199 # 10)) = formatTime (Num 119) /\
  exists tx ty,
    parseTimeToSeconds (formatTime (Num 119)) = Num tx /\
    parseTimeToSeconds (formatTime (Num (601 # 2))) = Num ty /\
    tx <= ty.
Proof.
  split.
  - apply (formatTime_whole_seconds (1199 # 10) 119);
      [unfold Qle; simpl; lia.. | reflexivity].
  - apply (formatTime_whole_seconds 119 (601 # 2));
      unfold Qle; simpl; lia.
Defined.

End Timestamps.

(** ** What the merger returns *)

Section MergerOutput.

Local Open Scope Q_scope.

Variable speakerMap : gmap string string.
Variable all : list (list TranscriptEntry).
Variable starts : list Q.

Hypothesis all_labelled :
  forall entry, In entry (List.concat all) -> labelled speakerMap entry.

Lemma In_concat_lookup (i : nat) chunk (entry : TranscriptEntry) :
  all !! i = Some chunk -> In entry chunk -> In entry (List.concat all).
Proof.
  intros Hi He. apply in_concat. exists chunk. split; [|exact He].
  eapply list_elem_of_In, list_elem_of_lookup_2, Hi.
Qed.

Lemma merge_entry_from (i : nat) chunk entry merged :
  all !! i = Some chunk -> In entry chunk ->
  Forall (merged_from speakerMap all starts) merged ->
  let s := match starts !! i with Some s => Num s | None => NaN end in
  Forall (merged_from speakerMap all starts)
    (merge_entry speakerMap s merged entry) /\
  (List.length (merge_entry speakerMap s merged entry)
   <= List.length merged + 1)%nat.
Proof.
  intros Hi He Hm. cbv zeta. unfold merge_entry. cbv zeta.
  destruct (isDuplicate _ _ _ _); [split; [exact Hm | lia]|].
  split; [|rewrite length_app; simpl; lia].
  apply Forall_app. split; [exact Hm|]. constructor; [|constructor].
  exists i, chunk, entry. split; [exact Hi|]. split; [exact He|].
  cbn [with_timestamp_speaker text speaker timestamp].
  split; [reflexivity|]. split; [|reflexivity].
  destruct (all_labelled entry (In_concat_lookup i chunk entry Hi He))
    as (c & Hc & Hne).
  unfold canonical_speaker. rewrite Hc.
  apply String.eqb_neq in Hne. now rewrite Hne.
Qed.

Lemma merge_chunk_from (i : nat) chunk merged :
  all !! i = Some chunk ->
  Forall (merged_from speakerMap all starts) merged ->
  let s := match starts !! i with Some s => Num s | None => NaN end in
  Forall (merged_from speakerMap all starts)
    (fold_left (merge_entry speakerMap s) chunk merged) /\
  (List.length (fold_left (merge_entry speakerMap s) chunk merged)
   <= List.length merged + List.length chunk)%nat.
Proof.
  intros Hi Hm. cbv zeta.
  assert (forall todo merged,
    (forall e, In e todo -> In e chunk) ->
    Forall (merged_from speakerMap all starts) merged ->
    Forall (merged_from speakerMap all starts)
      (fold_left (merge_entry speakerMap
         match starts !! i with Some s => Num s | None => NaN end)
         todo merged) /\
    (List.length (fold_left (merge_entry speakerMap
         match starts !! i with Some s => Num s | None => NaN end)
         todo merged)
     <= List.length merged + List.length todo)%nat) as H.
  { induction todo as [|e todo IH]; intros m Hsub Hfm; simpl.
    - split; [exact Hfm | lia].
    - destruct (merge_entry_from i chunk e m Hi (Hsub e (or_introl eq_refl)) Hfm)
        as [H1 H2]. cbv zeta in H1, H2.
      destruct (IH _ (fun e' He' => Hsub e' (or_intror He')) H1) as [H3 H4].
      split; [exact H3 | lia]. }
  apply H; auto.
Qed.

Lemma merge_chunks_from pre rest merged :
  all = pre ++ rest ->
  Forall (merged_from speakerMap all starts) merged ->
  (List.length merged <= List.length (List.concat pre))%nat ->
  Forall (merged_from speakerMap all starts)
    (merge_chunks speakerMap starts (List.length pre) rest merged) /\
  (List.length (merge_chunks speakerMap starts (List.length pre) rest merged)
   <= List.length (List.concat all))%nat.
Proof.
  revert pre merged. induction rest as [|chunk rest IH];
    intros pre merged Hall Hm Hlen.
  - simpl. split; [exact Hm|]. rewrite Hall, app_nil_r. exact Hlen.
  - cbn [merge_chunks].
    assert (all !! List.length pre = Some chunk) as Hi
      by (rewrite Hall; now apply list_lookup_middle).
    destruct (merge_chunk_from (List.length pre) chunk merged Hi Hm)
      as [H1 H2]. cbv zeta in H1, H2.
    replace (S (List.length pre)) with (List.length (pre ++ [chunk]))
      by (rewrite length_app; simpl; lia).
    apply IH.
    + rewrite Hall, <- app_assoc. reflexivity.
    + exact H1.
    + rewrite List.concat_app, length_app. simpl. rewrite app_nil_r. lia.
Qed.

End MergerOutput.

Section MergerOutputClaims.

Local Open Scope Q_scope.

(** X11. The merger invents nothing: it returns no more entries than
    it was given, and each returned entry has the text of an entry of
    some window, the timestamp written for that entry's time shifted by
    the start of its window, and as speaker the canonical label of that
    entry's speaker, which is [Speaker k] for a [k] from 1 to the
    number of distinct raw labels. *)
Theorem mergeTranscripts_provenance
    (chunks : list (list TranscriptEntry)) (chunkStartTimes : list Q) :
  (List.length (mergeTranscripts chunks chunkStartTimes)
   <= List.length (List.concat chunks))%nat /\
  forall out, In out (mergeTranscripts chunks chunkStartTimes) ->
    merged_from (speakerMap_of chunks) chunks chunkStartTimes out /\
    exists k : nat,
      (1 <= k <= List.length (first_seen_order (raw_labels chunks)))%nat /\
      speaker out = speaker_label (Z.of_nat k).
Proof.
  destruct (merge_chunks_from (speakerMap_of chunks) chunks chunkStartTimes
              (speakerMap_labelled chunks) [] chunks [] eq_refl
              (List.Forall_nil _) (Nat.le_refl _)) as [HF Hlen].
  fold (merged_entries chunks chunkStartTimes) in HF, Hlen.
  pose proof (sort_perm by_timestamp (merged_entries chunks chunkStartTimes))
    as Hperm.
  fold (mergeTranscripts chunks chunkStartTimes) in Hperm.
  split; [now rewrite <- (Permutation_length Hperm)|].
  intros out Hout.
  apply (Permutation_in _ (Permutation_sym Hperm)) in Hout.
  rewrite List.Forall_forall in HF. specialize (HF out Hout).
  split; [exact HF|].
  destruct HF as (i & chunk & entry & Hi & He & _ & Hsp & _).
  assert (In (speaker entry) (first_seen_order (raw_labels chunks))) as Hl.
  { apply first_seen_order_In, in_map, in_concat. exists chunk.
    split; [|exact He]. eapply list_elem_of_In, list_elem_of_lookup_2, Hi. }
  apply list_elem_of_In, list_elem_of_lookup in Hl as [j Hj].
  destruct (note_speaker_invariant (raw_labels chunks)) as (_ & Hlook & _).
  specialize (Hlook j _ Hj).
  unfold speakerMap_of in Hsp. rewrite normalizeSpeakers_labels in Hsp.
  rewrite Hlook in Hsp. injection Hsp as Hsp.
  exists (S j). split.
  - apply lookup_lt_Some in Hj. lia.
  - rewrite <- Hsp. f_equal. lia.
Qed.

Lemma mergeTranscripts_provenance_witness :
  In (mkEntry "00:57" "Speaker 1" "again")
     (mergeTranscripts overlap_chunks [0; 57]) /\
  exists k : nat,
    (1 <= k <= 2)%nat /\ "Speaker 1"%string = speaker_label (Z.of_nat k).
Proof.
  assert (In (mkEntry "00:57" "Speaker 1" "again")
             (mergeTranscripts overlap_chunks [0; 57])) as Hin
    by (vm_compute; tauto).
  split; [exact Hin|].
  destruct (mergeTranscripts_provenance overlap_chunks [0; 57]) as [_ H].
  destruct (H _ Hin) as [_ Hk]. exact Hk.
Defined.

End MergerOutputClaims.

(** ** No near-duplicates among the merged entries *)

Section Spacing.

Local Open Scope Q_scope.

Lemma whole_iff (q : Q) : whole q <-> exists z, q == inject_Z z.
Proof.
  unfold whole. split; [eauto|].
  intros [z E]. now rewrite (Qfloor_comp _ _ E), Qfloor_Z.
Qed.

Lemma toNumber_whole s q : toNumber s = Num q -> exists z, q = inject_Z z.
Proof.
  assert (forall s q, digits_toNumber s = Num q -> exists z, q = inject_Z z)
    as Hd.
  { intros s0 q0. unfold digits_toNumber.
    destruct (NilZero.uint_of_string s0); [|discriminate].
    intros [= <-]. eauto. }
  unfold toNumber. destruct s as [|c s']; [intros [= <-]; now exists 0%Z|].
  destruct c as [[] [] [] [] [] [] [] []]; try apply Hd.
  - destruct (digits_toNumber s') eqn:E; [discriminate|].
    intros [= <-]. destruct (Hd _ _ E) as [z ->]. now exists (- z)%Z.
Qed.

Lemma parseTimeToSeconds_whole ts p :
  parseTimeToSeconds ts = Num p -> whole p.
Proof.
  unfold parseTimeToSeconds.
  destruct (List.map toNumber (split ":" ts)) as [|m [|sec rest]] eqn:E;
    try discriminate.
  assert (toNumber_cases : forall n, In n (List.map toNumber (split ":" ts)) ->
            forall q, n = Num q -> exists z, q = inject_Z z).
  { intros n (s0 & <- & _)%in_map_iff q Hq. now apply (toNumber_whole s0). }
  rewrite E in toNumber_cases.
  destruct m as [|qm]; [discriminate|]. destruct sec as [|qs]; [discriminate|].
  destruct (toNumber_cases (Num qm) (or_introl eq_refl) qm eq_refl) as [zm ->].
  destruct (toNumber_cases (Num qs) (or_intror (or_introl eq_refl)) qs eq_refl)
    as [zs ->].
  intros [= <-]. apply whole_iff. exists (zm * 60 + zs)%Z.
  rewrite inject_Z_plus, inject_Z_mult. reflexivity.
Qed.

Lemma whole_plus a b : whole a -> whole b -> whole (a + b).
Proof.
  rewrite !whole_iff. intros [za Ea] [zb Eb]. exists (za + zb)%Z.
  now rewrite inject_Z_plus, Ea, Eb.
Qed.

(** A whole number of seconds that is not negative is read back as it
    was written. *)
Lemma parse_formatTime_whole a :
  whole a -> 0 <= a ->
  exists t, parseTimeToSeconds (formatTime (Num a)) = Num t /\ t == a.
Proof.
  intros Hw Ha. destruct (parse_formatTime_nonneg a Ha) as (t & Ht & E).
  exists t. split; [exact Ht|]. unfold whole in Hw. rewrite E. symmetry.
  exact Hw.
Qed.

Lemma ForallOrdPairs_snoc {A : Type} (R : A -> A -> Prop) l x :
  ForallOrdPairs R l -> Forall (fun e => R e x) l ->
  ForallOrdPairs R (l ++ [x]).
Proof.
  induction 1 as [|a l Ha _ IH]; intros Hx; simpl.
  - repeat constructor.
  - inversion Hx; subst. constructor; [|now apply IH].
    apply Forall_app. split; [exact Ha | now repeat constructor].
Qed.

Lemma ForallOrdPairs_perm {A : Type} (R : A -> A -> Prop) l l' :
  (forall a b, R a b -> R b a) ->
  Permutation l l' -> ForallOrdPairs R l -> ForallOrdPairs R l'.
Proof.
  intros Hsym. induction 1 as [|x l l' Hp IH|x y l|l l' l'' _ IH1 _ IH2];
    intros H.
  - exact H.
  - inversion H; subst. constructor; [|now apply IH].
    eapply Permutation_Forall; eassumption.
  - inversion H as [|? ? Hy Hrest]; subst.
    inversion Hy; subst. inversion Hrest; subst.
    constructor; [constructor; [now apply Hsym | assumption]|].
    now constructor.
  - auto.
Qed.

Lemma far_apart_sym a b : far_apart a b -> far_apart b a.
Proof.
  unfold far_apart. intros H Hs Ht.
  destruct (H (eq_sym Hs) (eq_sym Ht)) as (ta & tb & Ha & Hb & Hd).
  exists tb, ta. split; [exact Hb|]. split; [exact Ha|].
  now rewrite Qabs_Qminus.
Qed.

Variable speakerMap : gmap string string.

(** An entry that is not dropped is far from every merged entry. *)
Lemma merge_entry_spaced s merged entry :
  labelled speakerMap entry -> readable_at s entry -> whole s ->
  Forall readable merged -> ForallOrdPairs far_apart merged ->
  Forall readable (merge_entry speakerMap (Num s) merged entry) /\
  ForallOrdPairs far_apart (merge_entry speakerMap (Num s) merged entry).
Proof.
  intros (c & Hc & Hne) (p & Hp & Hpos) Hs Hr Hf.
  unfold merge_entry. cbv zeta.
  destruct (isDuplicate _ _ _ _) eqn:E; [split; assumption|].
  rewrite Hp in E |- *. cbn [add lift2] in E |- *.
  assert (whole (p + s)) as Hw
    by (apply whole_plus; [eapply parseTimeToSeconds_whole, Hp | exact Hs]).
  destruct (parse_formatTime_whole (p + s) Hw Hpos) as (tx & Htx & Etx).
  set (x := with_timestamp_speaker entry (formatTime (Num (p + s)))
              (canonical_speaker speakerMap entry)).
  assert (speaker x = c) as Hxs.
  { unfold x, canonical_speaker. cbn. rewrite Hc.
    apply String.eqb_neq in Hne. now rewrite Hne. }
  split.
  - apply Forall_app. split; [exact Hr|]. constructor; [|constructor].
    exists tx. exact Htx.
  - apply ForallOrdPairs_snoc; [exact Hf|].
    apply List.Forall_forall. intros e He Hse Hte.
    rewrite List.Forall_forall in Hr. destruct (Hr e He) as [te Hte'].
    exists te, tx. split; [exact Hte'|]. split; [exact Htx|].
    unfold isDuplicate in E.
    assert (lt (JS.abs (sub (parseTimeToSeconds (timestamp e)) (Num (p + s))))
               (Num 5)
            && speaker_matches speakerMap e entry
            && String.eqb (text e) (text entry) = false) as Hfalse.
    { destruct (_ && _ && _) eqn:Eb; [|reflexivity].
      assert (existsb (fun existing =>
                lt (JS.abs (sub (parseTimeToSeconds (timestamp existing))
                                (Num (p + s)))) (Num 5)
                && speaker_matches speakerMap existing entry
                && String.eqb (text existing) (text entry)) merged = true)
        as Hex by (apply existsb_exists; eauto).
      congruence. }
    unfold speaker_matches in Hfalse. rewrite Hc in Hfalse.
    rewrite Hse, Hxs, String.eqb_refl in Hfalse.
    replace (text entry) with (text x) in Hfalse by reflexivity.
    rewrite Hte, String.eqb_refl, !andb_true_r in Hfalse.
    rewrite Hte' in Hfalse. cbn [sub lift2 JS.abs JS.lt] in Hfalse.
    apply Qltb_ge in Hfalse.
    assert (te - tx == te - (p + s)) as -> by (rewrite Etx; reflexivity).
    exact Hfalse.
Qed.

Lemma merge_chunk_spaced s chunk merged :
  Forall (labelled speakerMap) chunk -> Forall (readable_at s) chunk ->
  whole s ->
  Forall readable merged -> ForallOrdPairs far_apart merged ->
  Forall readable (fold_left (merge_entry speakerMap (Num s)) chunk merged) /\
  ForallOrdPairs far_apart
    (fold_left (merge_entry speakerMap (Num s)) chunk merged).
Proof.
  intros HL HR Hs. revert merged.
  induction chunk as [|e chunk IH]; intros merged Hr Hf; [now split|].
  inversion HL as [|? ? HLe HLc]; inversion HR as [|? ? HRe HRc]; subst.
  simpl.
  destruct (merge_entry_spaced s merged e HLe HRe Hs Hr Hf) as [Hr' Hf'].
  now apply IH.
Qed.

Lemma merge_chunks_spaced chunks ss :
  Forall2 (fun chunk s =>
             Forall (labelled speakerMap) chunk /\
             (whole s /\ Forall (readable_at s) chunk)) chunks ss ->
  forall pre post merged,
  Forall readable merged -> ForallOrdPairs far_apart merged ->
  ForallOrdPairs far_apart
    (merge_chunks speakerMap (pre ++ ss ++ post) (List.length pre) chunks
       merged).
Proof.
  induction 1 as [|chunk s chunks ss (HL & Hs & HR) _ IH];
    intros pre post merged Hr Hf; [exact Hf|].
  rewrite merge_chunks_cons.
  destruct (merge_chunk_spaced s chunk merged HL HR Hs Hr Hf) as [H1 H2].
  now apply IH.
Qed.

End Spacing.

Section SpacingClaims.

Local Open Scope Q_scope.

Lemma Forall2_with_labelled
    {P : list TranscriptEntry -> Q -> Prop} chunks ss :
  Forall2 P chunks ss ->
  forall m, (forall e, In e (List.concat chunks) -> labelled m e) ->
  Forall2 (fun chunk s => Forall (labelled m) chunk /\ P chunk s) chunks ss.
Proof.
  induction 1 as [|chunk s chunks ss Hc _ IH]; intros m Hm; constructor.
  - split; [|exact Hc]. apply List.Forall_forall. intros e He.
    apply Hm. simpl. apply in_app_iff. now left.
  - apply IH. intros e He. apply Hm. simpl. apply in_app_iff. now right.
Qed.

(** X12. When the windows start at whole seconds and every entry's
    timestamp reads as a number that, shifted by the start of its
    window, is not negative, no two entries of the result agree in
    speaker and text with timestamps less than five seconds apart: the
    dedup rule leaves no pair it would itself take for duplicates. *)
Theorem mergeTranscripts_no_near_duplicates
    (chunks : list (list TranscriptEntry)) (chunkStartTimes : list Q) :
  Forall2 (fun chunk s => whole s /\ Forall (readable_at s) chunk)
    chunks chunkStartTimes ->
  ForallOrdPairs far_apart (mergeTranscripts chunks chunkStartTimes).
Proof.
  intros H.
  pose proof (Forall2_with_labelled chunks chunkStartTimes H
                (speakerMap_of chunks) (speakerMap_labelled chunks)) as HL.
  pose proof (merge_chunks_spaced (speakerMap_of chunks) chunks
                chunkStartTimes HL [] [] [] (List.Forall_nil _)
                (FOP_nil _)) as Hs.
  cbn [app List.length] in Hs. rewrite app_nil_r in Hs.
  unfold mergeTranscripts.
  eapply ForallOrdPairs_perm; [apply far_apart_sym | apply sort_perm|].
  exact Hs.
Qed.

Lemma mergeTranscripts_no_near_duplicates_witness :
  ForallOrdPairs far_apart (mergeTranscripts overlap_chunks [0; 57]).
Proof.
  apply (mergeTranscripts_no_near_duplicates overlap_chunks [0; 57]).
  repeat constructor;
    try (eexists; split; [vm_compute; reflexivity | vm_compute; discriminate]).
Defined.

End SpacingClaims.

(** ** The display of the client *)

Section Display.

Local Open Scope Q_scope.

Lemma updateProcessedDuration_mark ts st m :
  Client.processedDuration st = Num m ->
  let st' := Client.updateProcessedDuration ts st in
  Client.transcriptArray st' = Client.transcriptArray st /\
  Client.duration st' = Client.duration st /\
  (exists m', Client.processedDuration st' = Num m' /\ m <= m') /\
  (Client.getSecondsFromTimestamp (Client.lastProcessedTimestamp st)
   = Client.processedDuration st ->
   Client.getSecondsFromTimestamp (Client.lastProcessedTimestamp st')
   = Client.processedDuration st').
Proof.
  intros Hm. cbv zeta. unfold Client.updateProcessedDuration. cbv zeta.
  rewrite Hm.
  destruct (gt (Client.getSecondsFromTimestamp ts) (Num m)) eqn:E; cbn.
  - repeat split. destruct (Client.getSecondsFromTimestamp ts) as [|q];
      [discriminate|].
    exists q. split; [reflexivity|]. apply Qltb_lt in E. lra.
  - repeat split; [|now rewrite Hm].
    exists m. split; [exact Hm | lra].
Qed.

(** X13. Appending the entries of a record never moves the high-water
    mark back, keeps the total duration, and keeps the mark and its
    text in step: if [lastProcessedTimestamp] read as
    [processedDuration] before, it does so afterwards. *)
Theorem client_mark_monotone (st : Client.state)
    (entries : list TranscriptEntry) (m : Q) :
  Client.processedDuration st = Num m ->
  let st' := Client.append_entries entries st in
  Client.duration st' = Client.duration st /\
  (exists m', Client.processedDuration st' = Num m' /\ m <= m') /\
  (Client.getSecondsFromTimestamp (Client.lastProcessedTimestamp st)
   = Client.processedDuration st ->
   Client.getSecondsFromTimestamp (Client.lastProcessedTimestamp st')
   = Client.processedDuration st').
Proof.
  intros Hm. cbv zeta. unfold Client.append_entries.
  assert (Client.duration st = Client.duration st /\
          (exists m', Client.processedDuration st = Num m' /\ m <= m') /\
          (Client.getSecondsFromTimestamp (Client.lastProcessedTimestamp st)
           = Client.processedDuration st ->
           Client.getSecondsFromTimestamp (Client.lastProcessedTimestamp st)
           = Client.processedDuration st)) as Hsame.
  { split; [reflexivity|]. split; [|auto]. exists m. split; [exact Hm | lra]. }
  destruct entries as [|e0 entries]; [exact Hsame|].
  destruct (last (Client.newEntries st (e0 :: entries))) as [lastEntry|];
    [|exact Hsame].
  set (st1 := Client.mkState _ _ _ _).
  destruct (updateProcessedDuration_mark (timestamp lastEntry) st1 m Hm)
    as (_ & Hd & Hmark & Htext).
  cbv zeta in *. split; [exact Hd|]. split; [exact Hmark | exact Htext].
Qed.

Lemma client_mark_monotone_witness :
  exists m',
    Client.processedDuration
      (Client.append_entries [repeated_entry] displayed_state) = Num m' /\
    10 <= m'.
Proof.
  apply (client_mark_monotone displayed_state [repeated_entry] 10 eq_refl).
Defined.

End Display.

Section Redelivery.

Local Open Scope Q_scope.

Lemma append_entries_display st entries :
  let st' := Client.append_entries entries st in
  Client.duration st' = Client.duration st /\
  Permutation (Client.transcriptArray st ++ Client.newEntries st entries)
    (Client.transcriptArray st') /\
  (Client.transcriptArray st' = Client.transcriptArray st \/
   Client.transcriptArray st'
   = sort Client.by_timestamp
       (Client.transcriptArray st ++ Client.newEntries st entries)).
Proof.
  cbv zeta. unfold Client.append_entries.
  destruct entries as [|e0 entries].
  - split; [reflexivity|]. split; [now rewrite app_nil_r | now left].
  - destruct (last (Client.newEntries st (e0 :: entries))) as [lastEntry|]
      eqn:E.
    + unfold Client.updateProcessedDuration. cbv zeta.
      destruct (gt _ _); cbn;
        (split; [reflexivity|]); (split; [apply sort_perm | now right]).
    + apply last_None in E. rewrite E, app_nil_r.
      split; [reflexivity|]. split; [reflexivity | now left].
Qed.

Lemma filter_none {A : Type} (f : A -> bool) l :
  (forall x, In x l -> f x = false) -> List.filter f l = [].
Proof.
  induction l as [|x l IH]; intros H; [reflexivity|]. simpl.
  rewrite (H x (or_introl eq_refl)). apply IH. intros y Hy. apply H. now right.
Qed.

(** X14. A record that arrives a second time adds nothing: when the
    timestamps of its entries read as numbers, consuming it again
    leaves the state of the client as the first time left it. *)
Theorem client_redelivery (st : Client.state)
    (entries : list TranscriptEntry) :
  Forall readable entries ->
  Client.newEntries (Client.append_entries entries st) entries = [] /\
  Client.append_entries entries (Client.append_entries entries st)
  = Client.append_entries entries st.
Proof.
  intros Hr.
  destruct (append_entries_display st entries) as (Hd & Hp & _).
  cbv zeta in Hd, Hp.
  set (st1 := Client.append_entries entries st) in *.
  assert (Client.newEntries st1 entries = []) as Hnone.
  { apply filter_none. intros e He.
    rewrite List.Forall_forall in Hr. destruct (Hr e He) as [t Ht].
    unfold Client.is_new. cbv zeta. rewrite Hd.
    destruct (gt _ (Client.duration st)) eqn:Eg; [reflexivity|].
    apply negb_false_iff, existsb_exists.
    destruct (Client.is_new st e) eqn:En.
    - exists e. split.
      + eapply Permutation_in; [exact Hp|]. apply in_app_iff. right.
        apply filter_In. split; [exact He | exact En].
      + change (Client.getSecondsFromTimestamp (timestamp e))
          with (parseTimeToSeconds (timestamp e)).
        rewrite Ht, !String.eqb_refl. cbn [sub lift2 JS.abs JS.lt].
        rewrite !andb_true_r.
        apply Qltb_lt, Qabs_Qlt_condition. split; lra.
    - unfold Client.is_new in En. cbv zeta in En. rewrite Eg in En.
      apply negb_false_iff, existsb_exists in En as (x & Hx & Hfx).
      exists x. split; [|exact Hfx].
      eapply Permutation_in; [exact Hp|]. apply in_app_iff. now left. }
  split; [exact Hnone|].
  unfold Client.append_entries at 1. fold st1.
  destruct entries as [|e0 entries]; [reflexivity|]. now rewrite Hnone.
Qed.

Lemma client_redelivery_witness :
  Client.append_entries [repeated_entry]
    (Client.append_entries [repeated_entry] displayed_state)
  = Client.append_entries [repeated_entry] displayed_state.
Proof.
  apply (client_redelivery displayed_state [repeated_entry]).
  repeat constructor. eexists. vm_compute. reflexivity.
Defined.

(** X15. The display stays in order: when it is sorted by timestamp
    and its timestamps and those of the arriving entries read as
    numbers, it is sorted and readable after the entries are appended,
    whether any of them was new or not. *)
Theorem client_display_sorted (st : Client.state)
    (entries : list TranscriptEntry) :
  Forall readable (Client.transcriptArray st) ->
  ascending (Client.transcriptArray st) ->
  Forall readable entries ->
  ascending (Client.transcriptArray (Client.append_entries entries st)) /\
  Forall readable (Client.transcriptArray (Client.append_entries entries st)).
Proof.
  intros Hd Ha He.
  destruct (append_entries_display st entries) as (_ & Hp & Hcase).
  cbv zeta in Hp, Hcase.
  assert (Forall readable
            (Client.transcriptArray st ++ Client.newEntries st entries))
    as Hall.
  { apply Forall_app. split; [exact Hd|].
    apply List.Forall_forall. intros e [Hin _]%filter_In.
    rewrite List.Forall_forall in He. now apply He. }
  split; [|eapply Permutation_Forall; eassumption].
  destruct Hcase as [-> | ->]; [exact Ha|].
  apply (sort_sorted time_of). exact Hall.
Qed.

Lemma client_display_sorted_witness :
  ascending
    (Client.transcriptArray
       (Client.append_entries
          [repeated_entry; mkEntry "00:05" "Speaker 2" "before"]
          displayed_state)).
Proof.
  apply (client_display_sorted displayed_state
           [repeated_entry; mkEntry "00:05" "Speaker 2" "before"]).
  - repeat constructor. eexists. vm_compute. reflexivity.
  - repeat constructor.
  - repeat constructor; eexists; vm_compute; reflexivity.
Defined.

End Redelivery.

(** ** Gap detection *)

Section Gaps.

Local Open Scope Q_scope.

Import Page.

Lemma gap_test prev cur :
  gt (sub (Num (start cur)) (Num (end_ prev))) (Num 5) = true
  <-> gap_between prev cur.
Proof. unfold gap_between. cbn. apply Qltb_lt. Qed.

Lemma gap_free_tail a l : gap_free (a :: l) -> gap_free l.
Proof.
  intros H l1 p c l2 E. apply (H (a :: l1) p c l2). now rewrite E.
Qed.

Lemma gap_free_short l : (List.length l < 2)%nat -> gap_free l.
Proof.
  intros H l1 p c l2 ->. rewrite length_app in H. simpl in H. lia.
Qed.

Lemma gap_free_cons a b l :
  ~ gap_between a b -> gap_free (b :: l) -> gap_free (a :: b :: l).
Proof.
  intros Hab Hl [|x l1] p c l2 E.
  - injection E as <- <- <-. exact Hab.
  - injection E as <- E. now apply (Hl l1 p c l2).
Qed.

Lemma scan_gaps_spec prev rest st :
  (gap_free (prev :: rest) -> scan_gaps prev rest st = st) /\
  (forall l1 p c l2,
     prev :: rest = l1 ++ p :: c :: l2 -> gap_between p c ->
     gap_free (c :: l2) ->
     scan_gaps prev rest st = flag_gap p st).
Proof.
  revert prev st. induction rest as [|cur rest IH]; intros prev st.
  - split; [reflexivity|]. intros [|x [|y l1]] p c l2 E; discriminate E.
  - cbn [scan_gaps]. split.
    + intros Hfree.
      assert (gt (sub (Num (start cur)) (Num (end_ prev))) (Num 5) = false)
        as ->.
      { apply not_true_iff_false. rewrite gap_test.
        apply (Hfree [] prev cur rest eq_refl). }
      apply IH. now apply gap_free_tail in Hfree.
    + intros l1 p c l2 E Hgap Hfree. destruct l1 as [|x l1].
      * injection E as <- <- <-.
        apply gap_test in Hgap. rewrite Hgap. now apply IH.
      * injection E as <- E.
        destruct (IH cur (if gt (sub (Num (start cur)) (Num (end_ prev)))
                               (Num 5)
                          then flag_gap prev st else st)) as [_ H].
        rewrite (H l1 p c l2 E Hgap Hfree).
        destruct (gt _ _); reflexivity.
Qed.

(** X16. [checkForGaps] does nothing with fewer than two spans.  With
    more, it sorts the spans by their start; if no two neighbours are
    more than five seconds apart nothing else changes; otherwise the
    run is marked interrupted and the resume point is the end of the
    span before the last such gap. *)
Theorem checkForGaps_last_gap (st : gap_state) :
  let sorted := sort by_start (processedChunks st) in
  ((List.length (processedChunks st) < 2)%nat -> checkForGaps st = st) /\
  ((2 <= List.length (processedChunks st))%nat ->
   (gap_free sorted ->
    checkForGaps st
    = mkGaps sorted (transcriptionInterrupted st)
        (lastProcessedTimestamp st) (processedDuration st)) /\
   (forall l1 prev cur l2,
      sorted = l1 ++ prev :: cur :: l2 -> gap_between prev cur ->
      gap_free (cur :: l2) ->
      checkForGaps st
      = mkGaps sorted true (formatTime (Num (end_ prev)))
          (Num (end_ prev)))).
Proof.
  cbv zeta. unfold checkForGaps. split.
  - intros H. apply Nat.ltb_lt in H. now rewrite H.
  - intros H. apply Nat.ltb_ge in H. rewrite H.
    destruct (sort by_start (processedChunks st)) as [|first rest] eqn:E.
    + split; [reflexivity|]. intros [|? ?] ? ? ? E'; discriminate E'.
    + destruct (scan_gaps_spec first rest
                  (mkGaps (first :: rest) (transcriptionInterrupted st)
                     (lastProcessedTimestamp st) (processedDuration st)))
        as [Hfree Hgap].
      split; [exact Hfree|].
      intros l1 prev cur l2 E' Hg Hf. now rewrite (Hgap l1 prev cur l2 E' Hg Hf).
Qed.

Lemma checkForGaps_last_gap_witness :
  checkForGaps (mkGaps [mkSpan 70 120; mkSpan 0 60] false "00:00" (Num 0))
  = mkGaps [mkSpan 0 60; mkSpan 70 120] true "01:00" (Num 60) /\
  checkForGaps (mkGaps [mkSpan 0 60; mkSpan 63 120] false "00:00" (Num 0))
  = mkGaps [mkSpan 0 60; mkSpan 63 120] false "00:00" (Num 0).
Proof.
  split.
  - destruct (checkForGaps_last_gap
                (mkGaps [mkSpan 70 120; mkSpan 0 60] false "00:00" (Num 0)))
      as [_ H].
    destruct (H ltac:(simpl; lia)) as [_ Hgap].
    apply (Hgap [] (mkSpan 0 60) (mkSpan 70 120) []); [reflexivity..|].
    apply gap_free_short. simpl. lia.
  - destruct (checkForGaps_last_gap
                (mkGaps [mkSpan 0 60; mkSpan 63 120] false "00:00" (Num 0)))
      as [_ H].
    destruct (H ltac:(simpl; lia)) as [Hfree _]. apply Hfree.
    apply gap_free_cons; [|apply gap_free_short; simpl; lia].
    unfold gap_between. intros Hlt. vm_compute in Hlt. discriminate Hlt.
Defined.

End Gaps.

Section GapsOfARun.

Local Open Scope Q_scope.

Import Page.

Lemma window_consecutive (duration : Q) (t : Z) :
  (0 <= t)%Z -> inject_Z (t + CHUNK_DURATION) < duration ->
  let w := window_at duration t in
  let w' := window_at duration (t + CHUNK_DURATION) in
  chunkStartTime w < chunkStartTime w' /\
  chunkStartTime w' + 60 <= chunkStartTime w + chunkDuration w.
Proof.
  intros Ht Hlt. cbv zeta.
  destruct (chunkStartTime_bounds duration t Ht) as (Hs0 & Hs1 & Hs2).
  cbv zeta in Hs1, Hs2. rewrite window_end.
  assert (chunkStartTime (window_at duration (t + CHUNK_DURATION))
          == inject_Z t + 60) as Hnext.
  { cbn. unfold chunkStartTime_at, CHUNK_OVERLAP, CHUNK_DURATION.
    replace (Z.max 0 (t + 120 - 60)) with (t + 60)%Z by lia.
    now rewrite inject_Z_plus. }
  unfold CHUNK_DURATION in Hlt. rewrite inject_Z_plus in Hlt.
  change (inject_Z 120) with 120 in Hlt. rewrite Hnext.
  split; [lra|]. apply Q.min_glb; lra.
Qed.

Lemma Sorted_app_l {A : Type} (R : A -> A -> Prop) l1 l2 :
  Sorted R (l1 ++ l2) -> Sorted R l1.
Proof.
  induction l1 as [|a l1 IH]; intros H; [constructor|].
  inversion H as [|? ? Hs Hh]; subst. constructor; [now apply IH|].
  destruct l1; [constructor|]. inversion Hh; subst. now constructor.
Qed.

Lemma Sorted_gap_free l : Sorted follows_within l -> gap_free l.
Proof.
  intros H l1 p c l2 ->. induction l1 as [|a l1 IH].
  - inversion H as [|? ? _ Hh]; subst. inversion Hh as [|? ? [_ Hle]]; subst.
    unfold gap_between. lra.
  - inversion H; subst. now apply IH.
Qed.

Lemma sort_Sorted_id l : Sorted follows_within l -> sort by_start l = l.
Proof.
  induction 1 as [|a l Hs IH Hh]; [reflexivity|].
  cbn [sort fold_right]. fold (sort by_start l). rewrite IH.
  destruct Hh as [|b l [Hlt _]]; [reflexivity|].
  cbn [sort_insert].
  assert (gt (by_start a b) (Num 0) = false) as ->; [|reflexivity].
  unfold by_start. cbn. apply Qltb_ge. lra.
Qed.

Lemma checkForGaps_Sorted st :
  Sorted follows_within (processedChunks st) -> checkForGaps st = st.
Proof.
  intros H. unfold checkForGaps.
  destruct (List.length (processedChunks st) <? 2)%nat; [reflexivity|].
  rewrite (sort_Sorted_id _ H).
  destruct (processedChunks st) as [|first rest] eqn:E;
    [destruct st; cbn in *; now subst|].
  destruct (scan_gaps_spec first rest
              (mkGaps (first :: rest) (transcriptionInterrupted st)
                 (lastProcessedTimestamp st) (processedDuration st)))
    as [Hfree _].
  rewrite Hfree by now apply Sorted_gap_free.
  destruct st; cbn in *; now subst.
Qed.

Lemma spans_Sorted (env : Z -> turn) (duration : Q) (t0 : Z) :
  (0 <= t0)%Z ->
  Sorted follows_within
    (List.map (fun r => mkSpan (startTime r) (endTime r))
       (List.map (record_of env duration) (loop_times duration (Some t0)))).
Proof.
  revert t0. apply (window_loop_ind duration (fun t0 => (0 <= t0)%Z -> _)).
  intros t IH Ht. rewrite loop_times_step.
  destruct (Qltb (inject_Z t) duration) eqn:E; [|constructor].
  apply Qltb_lt in E. cbn [List.map]. constructor.
  - apply (IH E). unfold CHUNK_DURATION. lia.
  - rewrite loop_times_step.
    destruct (Qltb (inject_Z (t + CHUNK_DURATION)) duration) eqn:E';
      [|constructor].
    apply Qltb_lt in E'. cbn [List.map]. constructor.
    destruct (record_of_window env duration t) as (-> & -> & _).
    destruct (record_of_window env duration (t + CHUNK_DURATION))
      as (-> & _ & _).
    destruct (window_consecutive duration t Ht E') as [H1 H2].
    cbv zeta in H1, H2. unfold follows_within. cbn [start end_]. lra.
Qed.

Lemma handle_record_success r p :
  status r = success ->
  handle_record r p
  = (set_display
       (Client.append_entries (entries r)
          (display (mkPage (track_chunk (startTime r) (endTime r) (gaps p))
                      (Page.transcriptArray p) (Page.duration p))))
       (mkPage (track_chunk (startTime r) (endTime r) (gaps p))
          (Page.transcriptArray p) (Page.duration p)),
     None).
Proof. intros E. unfold handle_record. now rewrite E. Qed.

Lemma handle_record_error r p :
  status r = error ->
  handle_record r p
  = (mkPage
       (mkGaps (processedChunks (gaps p)) true
          (formatTime (Num (startTime r))) (processedDuration (gaps p)))
       (Page.transcriptArray p) (Page.duration p),
     Some (mkRetry (retryDelay (entries r)) (startTime r))).
Proof. intros E. unfold handle_record. now rewrite E. Qed.

Lemma handle_records_Sorted records p :
  Sorted follows_within
    (processedChunks (gaps p) ++ List.map span_of records) ->
  let shown := appended (before_error records) (display p) in
  for_of handle_record records p
  = match first_error records with
    | None =>
        (mkPage
           (mkGaps (processedChunks (gaps p) ++ List.map span_of records)
              (transcriptionInterrupted (gaps p))
              (Client.lastProcessedTimestamp shown)
              (Client.processedDuration shown))
           (Client.transcriptArray shown) (Client.duration shown),
         None)
    | Some e =>
        (mkPage
           (mkGaps
              (processedChunks (gaps p)
               ++ List.map span_of (before_error records))
              true (formatTime (Num (startTime e)))
              (Client.processedDuration shown))
           (Client.transcriptArray shown) (Client.duration shown),
         Some (mkRetry (retryDelay (entries e)) (startTime e)))
    end.
Proof.
  revert p. induction records as [|r records IH]; intros p H; cbv zeta.
  - cbn. rewrite app_nil_r. now destruct p as [[] ? ?].
  - cbn [for_of before_error first_error List.map] in *.
    destruct (status r) eqn:E.
    + rewrite (handle_record_success r p E).
      assert (track_chunk (startTime r) (endTime r) (gaps p)
              = mkGaps (processedChunks (gaps p) ++ [span_of r])
                  (transcriptionInterrupted (gaps p))
                  (lastProcessedTimestamp (gaps p))
                  (processedDuration (gaps p))) as Hstep.
      { unfold track_chunk. apply checkForGaps_Sorted.
        cbn [processedChunks].
        apply (Sorted_app_l _ _ (List.map span_of records)).
        now rewrite <- app_assoc. }
      rewrite Hstep. cbv beta iota.
      match goal with
      | |- for_of _ _ ?q = _ =>
          specialize (IH q); cbv zeta in IH; rewrite IH
      end.
      * unfold appended, display, set_display.
        cbn [fold_left gaps Page.transcriptArray Page.duration
             processedChunks transcriptionInterrupted
             lastProcessedTimestamp processedDuration].
        destruct (Client.append_entries (entries r) _) as [ta pd lpt d].
        cbn [Client.transcriptArray Client.processedDuration
             Client.lastProcessedTimestamp Client.duration].
        rewrite <- !app_assoc. reflexivity.
      * unfold set_display.
        cbn [gaps processedChunks]. now rewrite <- app_assoc.
    + rewrite (handle_record_error r p E).
      cbn [List.map appended fold_left]. rewrite app_nil_r. reflexivity.
Qed.

(** X17. The windows of a run never trip the gap detection of the
    page.  While the page handles the first [n] records of a run
    resumed from an offset that is not negative, however many that is,
    having begun without spans: it keeps the spans of the records before
    the first error record, in order; its display and resume point are
    those of appending the entries of these records and nothing else;
    and its interruption flag stays as it was unless an error record
    arrives.  At the first error record the page sets the flag, writes
    the start of that window as the resume text, and retries from that
    start after the delay; the records behind it are not handled. *)
Theorem run_never_trips_gap_detection (env : Z -> turn) (duration : Q)
    (t0 : Z) (n : nat) (p : page) :
  (0 <= t0)%Z -> processedChunks (gaps p) = [] ->
  let records :=
    take n (enqueued (events (POST_stream env duration (Some t0)))) in
  let shown := appended (before_error records) (display p) in
  for_of handle_record records p
  = match first_error records with
    | None =>
        (mkPage
           (mkGaps (List.map span_of records)
              (transcriptionInterrupted (gaps p))
              (Client.lastProcessedTimestamp shown)
              (Client.processedDuration shown))
           (Client.transcriptArray shown) (Client.duration shown),
         None)
    | Some e =>
        (mkPage
           (mkGaps (List.map span_of (before_error records))
              true (formatTime (Num (startTime e)))
              (Client.processedDuration shown))
           (Client.transcriptArray shown) (Client.duration shown),
         Some (mkRetry (retryDelay (entries e)) (startTime e)))
    end.
Proof.
  intros Ht0 Hempty records shown.
  pose proof (handle_records_Sorted records p) as H. cbv zeta in H.
  rewrite Hempty in H. cbn [app] in H. apply H.
  unfold records. rewrite POST_stream_enqueued.
  pose proof (spans_Sorted env duration t0 Ht0) as Hs.
  rewrite <- (take_drop n (List.map (record_of env duration)
                             (loop_times duration (Some t0)))) in Hs.
  rewrite List.map_app in Hs. now apply Sorted_app_l in Hs.
Qed.

Lemma run_never_trips_gap_detection_witness :
  for_of handle_record
    (take 3 (enqueued (events (POST_stream sample_env 300 (Some 0%Z)))))
    (mkPage (mkGaps [] false "00:00" (Num 0)) [] (Num 300))
  = (mkPage (mkGaps [mkSpan 0 180] true "01:00" (Num 5))
       [mkEntry "00:05" "Speaker 1" "hello"] (Num 300),
     Some (mkRetry 5000 60)).
Proof.
  rewrite (run_never_trips_gap_detection sample_env 300 0 3
             (mkPage (mkGaps [] false "00:00" (Num 0)) [] (Num 300))
             ltac:(lia) eq_refl).
  vm_compute. reflexivity.
Defined.

End GapsOfARun.

(** ** Reading the stream *)

Section StreamReading.

Import Page.

Lemma string_app_nil_r (s : string) : String.append s EmptyString = s.
Proof.
  induction s as [|c s IH]; [reflexivity|].
  change (String c (String.append s EmptyString) = String c s).
  now rewrite IH.
Qed.

Lemma string_app_assoc (a b c : string) :
  String.append (String.append a b) c = String.append a (String.append b c).
Proof.
  induction a as [|x a IH]; [reflexivity|].
  change (String x (String.append (String.append a b) c)
          = String x (String.append a (String.append b c))).
  now rewrite IH.
Qed.

Lemma split_nonempty sep s : split sep s <> [].
Proof.
  destruct s as [|c s]; simpl; [discriminate|].
  destruct (Ascii.eqb c sep); [discriminate|].
  destruct (split sep s); discriminate.
Qed.

(** Splitting a text that goes on: the last piece so far is the only
    one the continuation can change. *)
Lemma split_append sep (a b : string) :
  split sep (String.append a b)
  = removelast (split sep a)
    ++ split sep (String.append (List.last (split sep a) EmptyString) b).
Proof.
  induction a as [|c a IH]; [reflexivity|].
  change (String.append (String c a) b) with (String c (String.append a b)).
  cbn [split].
  pose proof (split_nonempty sep a) as Hne.
  destruct (Ascii.eqb c sep) eqn:Ec.
  - rewrite IH. destruct (split sep a) as [|w ws]; [congruence|]. reflexivity.
  - rewrite IH. destruct (split sep a) as [|w0 [|w1 r]]; [congruence| |].
    + cbn [removelast List.last app].
      change (String.append (String c w0) b)
        with (String c (String.append w0 b)).
      cbn [split]. rewrite Ec. reflexivity.
    + reflexivity.
Qed.

Lemma split_last_free sep s :
  free_of sep (List.last (split sep s) EmptyString) = true.
Proof.
  induction s as [|c s IH]; [reflexivity|]. cbn [split].
  pose proof (split_nonempty sep s) as Hne.
  destruct (Ascii.eqb c sep) eqn:Ec.
  - destruct (split sep s) as [|w ws]; [congruence|]. exact IH.
  - destruct (split sep s) as [|w [|w' ws]]; [congruence| |exact IH].
    cbn [List.last free_of] in *. now rewrite Ec, IH.
Qed.

Lemma lines_of_free s : free_of Page.newline s = true -> lines_of s = [].
Proof. intros H. unfold lines_of. now rewrite split_free. Qed.

Lemma rest_of_free s : free_of Page.newline s = true -> rest_of s = s.
Proof. intros H. unfold rest_of. now rewrite split_free. Qed.

Lemma lines_of_append (a b : string) :
  lines_of (String.append a b)
  = lines_of a ++ lines_of (String.append (rest_of a) b).
Proof.
  unfold lines_of, rest_of. rewrite split_append.
  apply removelast_app, split_nonempty.
Qed.

Lemma List_last_app {A : Type} (l1 l2 : list A) (d : A) :
  l2 <> [] -> List.last (l1 ++ l2) d = List.last l2 d.
Proof.
  intros Hne. destruct (exists_last Hne) as (l & x & ->).
  now rewrite app_assoc, !last_last.
Qed.

Lemma rest_of_append (a b : string) :
  rest_of (String.append a b) = rest_of (String.append (rest_of a) b).
Proof.
  unfold rest_of. rewrite split_append.
  apply List_last_app, split_nonempty.
Qed.

Lemma lines_step (streamBuffer textChunk text : string) :
  lines_of (String.append streamBuffer (String.append textChunk text))
  = lines_of (String.append streamBuffer textChunk)
    ++ lines_of
         (String.append (rest_of (String.append streamBuffer textChunk))
            text).
Proof. rewrite <- string_app_assoc. apply lines_of_append. Qed.

Lemma rest_step (streamBuffer textChunk text : string) :
  rest_of (String.append streamBuffer (String.append textChunk text))
  = rest_of
      (String.append (rest_of (String.append streamBuffer textChunk)) text).
Proof. rewrite <- string_app_assoc. apply rest_of_append. Qed.

Lemma for_of_app {A : Type} (body : A -> page -> page * option retry)
    (l1 l2 : list A) (p : page) :
  for_of body (l1 ++ l2) p
  = match for_of body l1 p with
    | (p', None) => for_of body l2 p'
    | (p', Some r) => (p', Some r)
    end.
Proof.
  revert p. induction l1 as [|x l1 IH]; intros p; [reflexivity|].
  cbn [app for_of]. destruct (body x p) as [p' [r|]]; [reflexivity|].
  apply IH.
Qed.

Lemma append_entries_duration entries c :
  Client.duration (Client.append_entries entries c) = Client.duration c.
Proof.
  unfold Client.append_entries. destruct entries; [reflexivity|].
  destruct (last _); [|reflexivity].
  unfold Client.updateProcessedDuration. cbv zeta.
  now destruct (gt _ _).
Qed.

Lemma handle_record_duration r p :
  Page.duration (handle_record r p).1 = Page.duration p.
Proof.
  unfold handle_record. destruct (status r); [|reflexivity].
  cbn [fst set_display Page.duration]. now rewrite append_entries_duration.
Qed.

Section Lines.

Variable JSON_parse : string -> option ProgressRecord.

Lemma handle_chunk_duration chunk p :
  Page.duration (handle_chunk JSON_parse chunk p).1 = Page.duration p.
Proof.
  unfold handle_chunk. cbv zeta.
  destruct (String.eqb _ _); [reflexivity|].
  destruct (JSON_parse _); [apply handle_record_duration | reflexivity].
Qed.

Lemma for_chunks_duration chunks p :
  Page.duration (for_of (handle_chunk JSON_parse) chunks p).1
  = Page.duration p.
Proof.
  revert p. induction chunks as [|chunk chunks IH]; intros p; [reflexivity|].
  cbn [for_of]. pose proof (handle_chunk_duration chunk p) as H.
  destruct (handle_chunk JSON_parse chunk p) as [p' [r|]]; [exact H|].
  rewrite IH. exact H.
Qed.

Lemma adopt_duration_nil p : adopt_duration JSON_parse [] p = p.
Proof. unfold adopt_duration. now destruct (falsy _). Qed.

Lemma adopt_duration_head l chunks p :
  adopt_duration JSON_parse (l :: chunks) p = adopt_duration JSON_parse [l] p.
Proof. reflexivity. Qed.

Lemma adopt_duration_known chunks p :
  falsy (Page.duration p) = false -> adopt_duration JSON_parse chunks p = p.
Proof. intros H. unfold adopt_duration. now rewrite H. Qed.

(** Once the duration of a line was looked at, a line that carries the
    same duration has nothing to add. *)
Lemma adopt_duration_settled l l' r r' p p' :
  JSON_parse l = Some r -> JSON_parse l' = Some r' ->
  totalDuration r = totalDuration r' ->
  Page.duration p' = Page.duration (adopt_duration JSON_parse [l] p) ->
  adopt_duration JSON_parse [l'] p' = p'.
Proof.
  intros Hl Hl' Hd. unfold adopt_duration. rewrite Hl, Hl', <- Hd.
  destruct (falsy (Page.duration p)) eqn:Ep.
  - destruct (falsy (Num (totalDuration r))) eqn:Er.
    + intros _. now destruct (falsy (Page.duration p')).
    + cbn [Page.duration]. intros ->. now rewrite Er.
  - intros ->. now rewrite Ep.
Qed.

(** Reading with nothing to learn about the duration: no line that is
    to come changes what the page takes for the duration. *)
Lemma read_loop_settled pieces streamBuffer p :
  free_of newline streamBuffer = true ->
  (forall l p', In l (lines_of (String.append streamBuffer
                                  (string_concat pieces))) ->
     Page.duration p' = Page.duration p ->
     adopt_duration JSON_parse [l] p' = p') ->
  read_loop JSON_parse pieces streamBuffer p
  = ended (rest_of (String.append streamBuffer (string_concat pieces)))
      (for_of (handle_chunk JSON_parse)
         (lines_of (String.append streamBuffer (string_concat pieces))) p).
Proof.
  revert streamBuffer p.
  induction pieces as [|piece pieces IH]; intros buf p Hfree Hset.
  - cbn [read_loop string_concat fold_right].
    rewrite string_app_nil_r, lines_of_free, rest_of_free by exact Hfree.
    reflexivity.
  - cbn [read_loop string_concat fold_right] in *.
    fold (string_concat pieces) in *.
    rewrite (lines_step buf piece (string_concat pieces)) in *.
    rewrite (rest_step buf piece (string_concat pieces)).
    unfold read_chunk. cbv zeta.
    fold (lines_of (String.append buf piece)).
    fold (rest_of (String.append buf piece)).
    assert (adopt_duration JSON_parse (lines_of (String.append buf piece)) p
            = p) as ->.
    { destruct (lines_of (String.append buf piece)) as [|l ls];
        [apply adopt_duration_nil|].
      rewrite adopt_duration_head. apply Hset; [now left | reflexivity]. }
    rewrite for_of_app.
    pose proof (for_chunks_duration (lines_of (String.append buf piece)) p)
      as Hdur.
    destruct (for_of (handle_chunk JSON_parse)
                (lines_of (String.append buf piece)) p) as [p1 [r|]];
      [reflexivity|].
    cbn [fst] in Hdur. apply IH.
    + apply split_last_free.
    + intros l p' Hl Hp'. apply Hset; [apply in_or_app; now right|].
      now rewrite Hp'.
Qed.

(** Reading a response all of whose lines hold a record with the same
    total duration: the page learns the duration from the first line,
    however the lines arrive. *)
Lemma read_loop_adopt pieces streamBuffer p (d : Q) :
  free_of newline streamBuffer = true ->
  (forall l, In l (lines_of (String.append streamBuffer
                               (string_concat pieces))) ->
     exists r, JSON_parse l = Some r /\ totalDuration r = d) ->
  read_loop JSON_parse pieces streamBuffer p
  = ended (rest_of (String.append streamBuffer (string_concat pieces)))
      (for_of (handle_chunk JSON_parse)
         (lines_of (String.append streamBuffer (string_concat pieces)))
         (adopt_duration JSON_parse
            (lines_of (String.append streamBuffer (string_concat pieces)))
            p)).
Proof.
  revert streamBuffer p.
  induction pieces as [|piece pieces IH]; intros buf p Hfree Hd.
  - cbn [read_loop string_concat fold_right].
    rewrite string_app_nil_r, lines_of_free, rest_of_free by exact Hfree.
    now rewrite adopt_duration_nil.
  - cbn [read_loop string_concat fold_right] in *.
    fold (string_concat pieces) in *.
    rewrite (lines_step buf piece (string_concat pieces)) in *.
    rewrite (rest_step buf piece (string_concat pieces)).
    unfold read_chunk. cbv zeta.
    fold (lines_of (String.append buf piece)).
    fold (rest_of (String.append buf piece)).
    destruct (lines_of (String.append buf piece)) as [|l ls] eqn:El.
    + rewrite adopt_duration_nil. cbn [for_of app] in *.
      apply IH; [apply split_last_free | exact Hd].
    + rewrite for_of_app.
      change (adopt_duration JSON_parse ((l :: ls) ++ ?x) p)
        with (adopt_duration JSON_parse [l] p).
      change (adopt_duration JSON_parse (l :: ls) p)
        with (adopt_duration JSON_parse [l] p).
      pose proof (for_chunks_duration (l :: ls)
                    (adopt_duration JSON_parse [l] p)) as Hdur.
      destruct (for_of (handle_chunk JSON_parse) (l :: ls)
                  (adopt_duration JSON_parse [l] p)) as [p1 [r|]];
        [reflexivity|].
      cbn [fst] in Hdur. apply read_loop_settled; [apply split_last_free|].
      intros l' p' Hl' Hp'.
      destruct (Hd l (or_introl eq_refl)) as (r & Hr & Hrd).
      destruct (Hd l' (or_intror (in_or_app _ _ _ (or_intror Hl'))))
        as (r' & Hr' & Hrd').
      apply (adopt_duration_settled l l' r r' p p' Hr Hr');
        [congruence|]. now rewrite Hp'.
Qed.

(** The lines that hold records are handled as their records are. *)
Lemma for_chunks_records lines records p :
  Forall2 (holds JSON_parse) lines records ->
  for_of (handle_chunk JSON_parse) lines p = for_of handle_record records p.
Proof.
  intros H. revert p.
  induction H as [|l r lines records (_ & Hne & Hr) _ IH]; intros p;
    [reflexivity|].
  cbn [for_of]. unfold handle_chunk at 1. cbv zeta.
  apply String.eqb_neq in Hne. rewrite Hne, Hr.
  destruct (handle_record r p) as [p' [x|]]; [reflexivity | apply IH].
Qed.

End Lines.

Lemma split_lines (ls : list string) :
  Forall (fun l => free_of Page.newline l = true) ls ->
  split Page.newline
    (string_concat
       (List.map (fun l => String.append l (String Page.newline EmptyString))
          ls))
  = ls ++ [EmptyString].
Proof.
  induction 1 as [|l ls Hl _ IH]; [reflexivity|].
  cbn [List.map string_concat fold_right].
  rewrite string_app_assoc.
  change (String.append (String Page.newline EmptyString) ?x)
    with (String Page.newline x).
  rewrite split_app by exact Hl.
  fold (string_concat
          (List.map (fun l => String.append l (String Page.newline EmptyString))
             ls)).
  now rewrite IH.
Qed.

(** X18. What the page makes of a response does not depend on how
    the stream was cut into pieces.  For a page that knows the total
    duration, reading the pieces comes to handling, in order, the lines
    of the whole text that a line feed ends, up to the first error
    record; what follows the last line feed stays in the buffer.  And
    when the response is a sequence of lines, each without a line feed
    and followed by one and each holding a record, all with the same
    total duration, as the server writes them, reading the pieces comes
    to handling these records in order up to the first error record,
    the page having taken the total duration from the first line if it
    had none; the buffer is empty at the end. *)
Theorem read_loop_reassembles
    (JSON_parse : string -> option ProgressRecord) (pieces : list string)
    (p : page) (lines : list string) (records : list ProgressRecord)
    (d : Q) :
  (falsy (Page.duration p) = false ->
   read_loop JSON_parse pieces EmptyString p
   = ended (rest_of (string_concat pieces))
       (for_of (handle_chunk JSON_parse) (lines_of (string_concat pieces))
          p)) /\
  (Forall (fun l => free_of newline l = true) lines ->
   Forall2 (fun l r => holds JSON_parse l r /\ totalDuration r = d)
     lines records ->
   string_concat pieces
   = string_concat
       (List.map (fun l => String.append l (String newline EmptyString))
          lines) ->
   read_loop JSON_parse pieces EmptyString p
   = ended EmptyString
       (for_of handle_record records
          (adopt_duration JSON_parse lines p))).
Proof.
  split.
  - intros Hknown.
    apply (read_loop_settled JSON_parse pieces EmptyString p eq_refl).
    intros l p' _ Hp'. apply adopt_duration_known. now rewrite Hp'.
  - intros Hfree Hholds Htext.
    assert (lines_of (string_concat pieces) = lines) as Hlines
      by (unfold lines_of; rewrite Htext, split_lines by exact Hfree;
          apply removelast_last).
    assert (rest_of (string_concat pieces) = EmptyString) as Hrest
      by (unfold rest_of; rewrite Htext, split_lines by exact Hfree;
          apply last_last).
    rewrite (read_loop_adopt JSON_parse pieces EmptyString p d eq_refl).
    + change (String.append EmptyString ?x) with x.
      rewrite Hlines, Hrest. f_equal. apply for_chunks_records.
      eapply Forall2_impl; [exact Hholds|]. now intros l r [H _].
    + change (String.append EmptyString ?x) with x. rewrite Hlines.
      clear -Hholds. induction Hholds as [|l r ls rs [(Hr & _) Hd] _ IH];
        intros l' [].
      * subst. eauto.
      * now apply IH.
Qed.

(** Without either condition the cut matters.  A page that knows no
    duration looks for one in the first line of each read only: when a
    line that holds no record and a record arrive in one piece, the
    duration stays unknown and the entries of the record are dropped as
    lying beyond it; when they arrive in two pieces, the entries are
    shown. *)
Example read_loop_cut_matters :
  Page.transcriptArray
    (read_loop sample_parse
       [String.append "x"
          (String newline (String.append "S" (String newline "")))]
       EmptyString
       (mkPage (mkGaps [] false "00:00" (Num 0)) [] (Num 0))).1.1
  = [] /\
  Page.transcriptArray
    (read_loop sample_parse
       [String.append "x" (String newline "");
        String.append "S" (String newline "")]
       EmptyString
       (mkPage (mkGaps [] false "00:00" (Num 0)) [] (Num 0))).1.1
  = [mkEntry "00:05" "Speaker 1" "hello"].
Proof. split; vm_compute; reflexivity. Qed.

(** The response of the sample run as far as the page reads it: the
    record of the first window is shown, the error record of the second
    ends the reading with a retry from its start, and the record behind
    it is not looked at. *)
Example read_loop_sample :
  read_loop sample_parse
    [String.append "S" (String newline "E");
     String newline (String.append "S" (String newline ""))]
    EmptyString
    (mkPage (mkGaps [] false "00:00" (Num 0)) [] (Num 0))
  = (mkPage (mkGaps [mkSpan 0 180] true "01:00" (Num 5))
       [mkEntry "00:05" "Speaker 1" "hello"] (Num 300),
     EmptyString, Some (mkRetry 5000 60)).
Proof. vm_compute. reflexivity. Qed.

Lemma read_loop_reassembles_witness :
  read_loop sample_parse
    [String.append "S" (String newline "E");
     String newline (String.append "S" (String newline ""))]
    EmptyString
    (mkPage (mkGaps [] false "00:00" (Num 0)) [] (Num 0))
  = ended EmptyString
      (for_of handle_record [success_record; error_record; success_record]
         (adopt_duration sample_parse ["S"; "E"; "S"]
            (mkPage (mkGaps [] false "00:00" (Num 0)) [] (Num 0)))) /\
  read_loop sample_parse
    [String.append "S" (String newline "E");
     String newline (String.append "S" (String newline ""))]
    EmptyString
    (mkPage (mkGaps [] false "00:00" (Num 0)) [] (Num 300))
  = read_loop sample_parse
      [String.append "S"
         (String newline
            (String.append "E"
               (String newline (String.append "S" (String newline "")))))]
      EmptyString
      (mkPage (mkGaps [] false "00:00" (Num 0)) [] (Num 300)).
Proof.
  split.
  - apply (read_loop_reassembles sample_parse _ _ ["S"; "E"; "S"]
             [success_record; error_record; success_record] 300).
    + repeat constructor.
    + repeat constructor; discriminate.
    + reflexivity.
  - rewrite (proj1 (read_loop_reassembles sample_parse
                      [String.append "S" (String newline "E");
                       String newline
                         (String.append "S" (String newline ""))]
                      (mkPage (mkGaps [] false "00:00" (Num 0)) [] (Num 300))
                      [] [] 0) eq_refl).
    rewrite (proj1 (read_loop_reassembles sample_parse
                      [String.append "S"
                         (String newline
                            (String.append "E"
                               (String newline
                                  (String.append "S" (String newline "")))))]
                      (mkPage (mkGaps [] false "00:00" (Num 0)) [] (Num 300))
                      [] [] 0) eq_refl).
    reflexivity.
Defined.

End StreamReading.

(** ** Retrying after an error record *)

Section Retry.

Local Open Scope Q_scope.

(** X19. The client reads from the text of the first entry what the
    server decided from the message of the failure.  For a record of a
    thrown failure the client waits exactly the [retryAfter] the record
    carries; for a failure [processChunk] contained it waits 5 seconds
    after a safety block and 15 seconds after a rate limit. *)
Theorem client_retry_delay (env : Z -> turn) (duration : Q) (time : Z)
    (message : option string) :
  let w := window_at duration time in
  let r := record_of env duration time in
  (processChunk (backend (env time)) (chunkStartTime w) (chunkDuration w)
   = Throw message ->
   retryAfter r = Some (Page.retryDelay (entries r)) /\
   Page.retryDelay (entries r) = errorDelay message) /\
  (backend (env time) = Failed message ->
   (mentions "SAFETY" message -> Page.retryDelay (entries r) = 5000%Z) /\
   (~ mentions "SAFETY" message -> mentions "429" message ->
    Page.retryDelay (entries r) = 15000%Z)).
Proof.
  cbv zeta. unfold record_of. cbv zeta. split.
  - intros ->. cbn [errorData entries retryAfter].
    unfold Page.retryDelay, Page.isRateLimit, errorDelay. cbn [text].
    destruct (isRateLimit message); split; reflexivity.
  - intros ->. unfold processChunk.
    pose proof (message_includes_spec "SAFETY" message) as HS.
    pose proof (message_includes_spec "429" message) as HR.
    destruct (message_includes "SAFETY" message);
      destruct (message_includes "429" message); cbn [orb];
      split; intros; try reflexivity; intuition discriminate.
Qed.

Lemma client_retry_delay_witness :
  retryAfter (record_of sample_env 300 120)
  = Some (Page.retryDelay (entries (record_of sample_env 300 120))) /\
  Page.retryDelay (entries (record_of sample_env 300 120)) = 5000%Z.
Proof.
  destruct (client_retry_delay sample_env 300 120
              (Some "Chunk processing failed")) as [H _].
  destruct (H eq_refl) as [H1 H2]. split; [exact H1 | exact H2].
Defined.

End Retry.

(** ** What the dedup rule keeps and drops *)

Section Dedup.

Local Open Scope Q_scope.

(** X20. Nothing is lost without a stand-in: when the start offsets
    run parallel to the windows and every entry's timestamp reads as a
    number that, shifted by the start of its window, is not negative,
    every entry of the input has in the result an entry with its text
    and the canonical label of its speaker whose timestamp reads less
    than five seconds from the entry's own time. *)
Theorem mergeTranscripts_represents_input
    (chunks : list (list TranscriptEntry)) (chunkStartTimes : list Q) :
  Forall2 (fun chunk s => Forall (readable_at s) chunk)
    chunks chunkStartTimes ->
  forall (i : nat) chunk s entry p,
    chunks !! i = Some chunk -> chunkStartTimes !! i = Some s ->
    In entry chunk -> parseTimeToSeconds (timestamp entry) = Num p ->
    exists out t,
      In out (mergeTranscripts chunks chunkStartTimes) /\
      text out = text entry /\
      speakerMap_of chunks !! speaker entry = Some (speaker out) /\
      time_of out = Num t /\
      Qabs (t - (p + s)) < 5.
Proof.
  intros H i chunk s entry p Hi Hs He Hp.
  pose proof (Forall2_labelled (P := fun e s => readable_at s e) chunks
                chunkStartTimes H (speakerMap_of chunks)
                (speakerMap_labelled chunks)) as HL.
  pose proof (merge_chunks_absorbs (speakerMap_of chunks) chunks
                chunkStartTimes HL [] [] []) as Ha.
  cbn [app List.length] in Ha. rewrite app_nil_r in Ha.
  fold (merged_entries chunks chunkStartTimes) in Ha.
  pose proof (Forall2_lookup_lr _ _ _ _ _ _ Ha Hi Hs) as Hc.
  rewrite List.Forall_forall in Hc. specialize (Hc entry He).
  unfold isDuplicate in Hc. apply existsb_exists in Hc as (out & Hout & Hm).
  apply andb_prop in Hm as [Hm Htext]. apply andb_prop in Hm as [Htime Hsp].
  rewrite Hp in Htime. cbn [add lift2] in Htime.
  destruct (parseTimeToSeconds (timestamp out)) as [|t] eqn:Et;
    [discriminate|].
  cbn [sub lift2 JS.abs JS.lt] in Htime. apply Qltb_lt in Htime.
  unfold speaker_matches in Hsp.
  destruct (speakerMap_of chunks !! speaker entry) as [c|] eqn:Ec;
    [|discriminate].
  apply String.eqb_eq in Hsp, Htext.
  exists out, t. split.
  - eapply Permutation_in; [apply sort_perm | exact Hout].
  - split; [exact Htext|]. split; [now rewrite Hsp|].
    split; [exact Et | exact Htime].
Qed.

Lemma mergeTranscripts_represents_input_witness :
  exists out t,
    In out (mergeTranscripts overlap_chunks [0; 57]) /\
    text out = "hello"%string /\
    speakerMap_of overlap_chunks !! "Alice"%string = Some (speaker out) /\
    time_of out = Num t /\
    Qabs (t - (3 + 57)) < 5.
Proof.
  apply (mergeTranscripts_represents_input overlap_chunks [0; 57]
           ltac:(repeat constructor;
                 (eexists; split;
                  [vm_compute; reflexivity | vm_compute; discriminate]))
           1%nat _ 57 (mkEntry "00:03" "Alice" "hello") 3 eq_refl eq_refl
           ltac:(left; reflexivity) eq_refl).
Defined.

End Dedup.
